(** * cartog: the tile grid ([grid.go]) and its coordinate arithmetic

    A shallow embedding of [Coord], [TileGrid] and their methods, over an
    executable model of Go's [float32] (IEEE 754 binary32 with
    round-to-nearest-even, every operation rounded on its own) and of the
    goroutines that [SetLocation] starts. *)

From Stdlib Require Import ZArith Lia Bool List String.
From Stdlib Require Import Floats.SpecFloat.
From Stdlib Require Import Ascii DecimalString DecimalN.
From stdpp Require Import base gmap sets list strings.

Local Open Scope Z_scope.

(** ** Go's [float32] *)

Module F32.

Definition prec : Z := 24.
Definition emax : Z := 128.

Definition float32 : Type := spec_float.

Definition nan : float32 := S754_nan.
Definition zero : float32 := S754_zero false.

Definition add : float32 -> float32 -> float32 := SFadd prec emax.
Definition sub : float32 -> float32 -> float32 := SFsub prec emax.
Definition mul : float32 -> float32 -> float32 := SFmul prec emax.
Definition div : float32 -> float32 -> float32 := SFdiv prec emax.
Definition neg : float32 -> float32 := SFopp.
Definition ltb : float32 -> float32 -> bool := SFltb.
Definition leb : float32 -> float32 -> bool := SFleb.
Definition eqb : float32 -> float32 -> bool := SFeqb.

(** [float32(n)] for an integer [n], and the untyped integer constants
    of the source wherever they meet a [float32]. *)
Definition of_Z (n : Z) : float32 := binary_normalize prec emax n 0 false.

(** A value of the type: the canonical binary32 encodings. *)
Definition valid (x : float32) : bool := valid_binary prec emax x.

Definition is_nan (x : float32) : bool :=
  match x with S754_nan => true | _ => false end.

Definition is_finite (x : float32) : bool :=
  match x with S754_zero _ | S754_finite _ _ _ => true | _ => false end.

(** The sign bit of everything but a NaN. *)
Definition signed (s : bool) (x : float32) : Prop :=
  match x with
  | S754_nan => False
  | S754_zero s' | S754_infinity s' | S754_finite s' _ _ => s' = s
  end.

(** The integer part of a finite value (the fraction is discarded). *)
Definition trunc (x : float32) : option Z :=
  match x with
  | S754_zero _ => Some 0
  | S754_finite s m e =>
      let a := match e with
               | Zneg p => Z.shiftr (Zpos m) (Zpos p)
               | _ => Z.shiftl (Zpos m) e
               end in
      Some (if s then - a else a)
  | _ => None
  end.

End F32.

Export F32.

Arguments of_Z : simpl never.
Arguments add : simpl never.
Arguments sub : simpl never.
Arguments mul : simpl never.
Arguments div : simpl never.
Arguments ltb : simpl never.
Arguments leb : simpl never.
Arguments eqb : simpl never.

Declare Scope float32_scope.
Delimit Scope float32_scope with f32.
Bind Scope float32_scope with float32.
Infix "+" := add : float32_scope.
Infix "-" := sub : float32_scope.
Infix "*" := mul : float32_scope.
Infix "/" := div : float32_scope.
Notation "- x" := (neg x) : float32_scope.
Infix "<?" := ltb : float32_scope.
Infix "<=?" := leb : float32_scope.
Infix "=?" := eqb : float32_scope.

(** The float of value [n / 2], for an integer [n]: the pixel coordinates
    and sizes of the grid, and their halves, are of this form. *)
Definition half (n : Z) : float32 := binary_normalize prec emax n (-1) false.

(** The whole number [n] of steps of 2^e, rounded as a [float32]. *)
Definition dyadic (n e : Z) : float32 := binary_normalize prec emax n e false.

(** The constant [2.0]. *)
Definition two : float32 := S754_finite false 8388608 (-22).


(** ** [grid.go]: constants and [Coord] *)

Definition MAX_ZOOM : Z := 16.
Definition MIN_ZOOM : Z := 2.

Record Coord : Type := mkCoord {
  coordX : float32;
  coordY : float32;
  coordZ : float32
}.

Definition set_X (c : Coord) (v : float32) : Coord := mkCoord v (coordY c) (coordZ c).
Definition set_Y (c : Coord) (v : float32) : Coord := mkCoord (coordX c) v (coordZ c).
Definition set_Z (c : Coord) (v : float32) : Coord := mkCoord (coordX c) (coordY c) v.

(** [func (c *Coord) Add(a Coord)]: the assignments of the body, in order,
    the receiver threaded through them. *)
Definition Add (c a : Coord) : Coord :=
  let c := set_X c (coordX c + coordX a)%f32 in
  let c := set_Y c (coordY c + coordY a)%f32 in
  let c :=
    if (coordZ a <? of_Z 0)%f32 then
      let c := set_X c (coordX c / of_Z 2)%f32 in
      let c := set_Y c (coordY c / of_Z 2)%f32 in
      set_Z c (coordZ c + coordZ a)%f32
    else if (of_Z 0 <? coordZ a)%f32 then
      let c := set_X c (coordX c * of_Z 2)%f32 in
      let c := set_Y c (coordY c * of_Z 2)%f32 in
      set_Z c (coordZ c + coordZ a)%f32
    else c in
  if (of_Z MAX_ZOOM <? coordZ c)%f32 then set_Z c (of_Z MAX_ZOOM)
  else if (coordZ c <? of_Z MIN_ZOOM)%f32 then set_Z c (of_Z MIN_ZOOM)
  else c.

(** [MIN_ZOOM <= z && z <= MAX_ZOOM], with Go's comparisons. *)
Definition zoom_in_range (z : float32) : bool :=
  (of_Z MIN_ZOOM <=? z)%f32 && (z <=? of_Z MAX_ZOOM)%f32.

(** The clamp at the end of [Add], as a function of the zoom it is given. *)
Definition clampZoom (z : float32) : float32 :=
  if (of_Z MAX_ZOOM <? z)%f32 then of_Z MAX_ZOOM
  else if (z <? of_Z MIN_ZOOM)%f32 then of_Z MIN_ZOOM
  else z.


(** What a zoom-out followed by a zoom-in does to a pan offset: the two
    additions of a zero pan delta, the halving and the doubling. *)
Definition halve_double (x : float32) : float32 :=
  (((x + of_Z 0) / of_Z 2 + of_Z 0) * of_Z 2)%f32.

(** A finite value in units of 2^-149, the spacing of the smallest
    floats: every finite [float32] is a whole number of them. *)
Definition ulps (x : float32) : option Z :=
  match x with
  | S754_zero _ => Some 0
  | S754_finite s m e => Some (cond_Zopp s (Z.pos m * 2 ^ (e + 149)))
  | _ => None
  end.

(** Equal up to the smallest float: finite values at most 2^-149 apart;
    otherwise the same infinity, or NaN both. *)
Definition within_one_ulp (x r : float32) : Prop :=
  match ulps x, ulps r with
  | Some a, Some b => Z.abs (a - b) <= 1
  | None, None => x = r
  | _, _ => False
  end.

(** The values whose half is a [float32]: halving them rounds nothing. *)
Definition halves_exactly (x : float32) : bool :=
  match x with
  | S754_finite _ m e => (-149 <? e) || Z.even (Z.pos m)
  | S754_zero s => negb s
  | _ => true
  end.

(** What a zoom-in followed by a zoom-out does to a pan offset. *)
Definition double_halve (x : float32) : float32 :=
  (((x + of_Z 0) * of_Z 2 + of_Z 0) / of_Z 2)%f32.

(** The values whose double is a [float32]: all but the finite ones of
    the largest exponent. *)
Definition doubles_exactly (x : float32) : bool :=
  match x with
  | S754_finite _ _ e => e <? 104
  | S754_zero s => negb s
  | _ => true
  end.

(** ** [tile.TileCoord], [tile.PngTile] *)

(** The three fields are [uint32]: integers in [0, 2^32). *)
Record TileCoord : Type := mkTileCoord {
  tileX : Z;
  tileY : Z;
  tileZ : Z
}.

#[global] Instance TileCoord_eq_dec : EqDecision TileCoord.
Proof. solve_decision. Defined.

#[global] Instance TileCoord_countable : Countable TileCoord.
Proof.
  refine (inj_countable' (fun k => (tileX k, tileY k, tileZ k))
                         (fun p => mkTileCoord p.1.1 p.1.2 p.2) _).
  intros []; reflexivity.
Defined.

(** A decoded tile; the image itself is kept abstract. *)
Record PngTile : Type := mkPngTile {
  Tile : TileCoord;
  Image : N
}.

(** The [func()] values that travel on [TilesInFlight]: the cancel function
    of the context of one fetch, named by the tile being fetched. *)
Definition CancelFunc : Type := TileCoord.

Definition uint32_max : Z := 2 ^ 32.

Definition wrap32 (n : Z) : Z := n mod uint32_max.

(** The outcome of a call whose loops are run with a bound on their
    iterations: it returned, or it is still running when the bound is
    reached; either way with the state it has reached. *)
Inductive run (A : Type) : Type :=
| Returned (a : A)
| Running (a : A).
Arguments Returned {A} a.
Arguments Running {A} a.

Definition run_state {A : Type} (r : run A) : A :=
  match r with Returned a | Running a => a end.

Definition returned {A : Type} (r : run A) : bool :=
  match r with Returned _ => true | Running _ => false end.

(** What a constructor returns: the value, or the error. *)
Inductive result (A : Type) : Type :=
| Ok (a : A)
| Err (msg : string).
Arguments Ok {A} a.
Arguments Err {A} msg.

(** ** [TileGrid] *)

(** The two [sync.Map]s are a finite map and, for [loading] (whose values
    are all [true]), a finite set. An unbuffered channel is the queue of
    the values whose senders are parked on it. *)
Record TileGrid : Type := mkTileGrid {
  location : Coord;
  tileWidth : float32;
  tileHeight : float32;
  halfTileWidth : float32;
  halfTileHeight : float32;
  screenWidth : float32;
  screenHeight : float32;
  cache : gmap TileCoord PngTile;
  loading : gset TileCoord;
  ScreenTileWidth : Z;
  ScreenTileHeight : Z;
  TilesToLoad : list TileCoord;
  TilesToExpire : list TileCoord;
  TilesInFlight : list CancelFunc
}.

Definition set_location (t : TileGrid) (c : Coord) : TileGrid :=
  mkTileGrid c (tileWidth t) (tileHeight t) (halfTileWidth t) (halfTileHeight t)
    (screenWidth t) (screenHeight t) (cache t) (loading t)
    (ScreenTileWidth t) (ScreenTileHeight t)
    (TilesToLoad t) (TilesToExpire t) (TilesInFlight t).

Definition set_cache (t : TileGrid) (c : gmap TileCoord PngTile) : TileGrid :=
  mkTileGrid (location t) (tileWidth t) (tileHeight t) (halfTileWidth t)
    (halfTileHeight t) (screenWidth t) (screenHeight t) c (loading t)
    (ScreenTileWidth t) (ScreenTileHeight t)
    (TilesToLoad t) (TilesToExpire t) (TilesInFlight t).

Definition set_loading (t : TileGrid) (l : gset TileCoord) : TileGrid :=
  mkTileGrid (location t) (tileWidth t) (tileHeight t) (halfTileWidth t)
    (halfTileHeight t) (screenWidth t) (screenHeight t) (cache t) l
    (ScreenTileWidth t) (ScreenTileHeight t)
    (TilesToLoad t) (TilesToExpire t) (TilesInFlight t).

Definition set_TilesToLoad (t : TileGrid) (q : list TileCoord) : TileGrid :=
  mkTileGrid (location t) (tileWidth t) (tileHeight t) (halfTileWidth t)
    (halfTileHeight t) (screenWidth t) (screenHeight t) (cache t) (loading t)
    (ScreenTileWidth t) (ScreenTileHeight t)
    q (TilesToExpire t) (TilesInFlight t).

Definition set_TilesInFlight (t : TileGrid) (q : list CancelFunc) : TileGrid :=
  mkTileGrid (location t) (tileWidth t) (tileHeight t) (halfTileWidth t)
    (halfTileHeight t) (screenWidth t) (screenHeight t) (cache t) (loading t)
    (ScreenTileWidth t) (ScreenTileHeight t)
    (TilesToLoad t) (TilesToExpire t) q.

(** ** The goroutines around the grid *)

(** The statement a goroutine started by [SetLocation] executes next. *)
Inductive pc : Type :=
| AtLoadLoading     (* _, exists := t.loading.Load(tileCoord) *)
| AtLoadCache       (* _, exists = t.cache.Load(tileCoord) *)
| AtStoreLoading    (* t.loading.Store(tileCoord, true) *)
| AtSend.           (* t.TilesToLoad <- tileCoord *)

#[global] Instance pc_eq_dec : EqDecision pc.
Proof. solve_decision. Defined.

Record goroutine : Type := mkGoroutine {
  g_tile : TileCoord;
  g_pc : pc
}.

(** The grid with what runs around it: the goroutines of [SetLocation]
    that have not reached their send yet, the fetches the loader has
    started and not finished, and the contexts cancelled so far. *)
Record World : Type := mkWorld {
  grid : TileGrid;
  goroutines : list goroutine;
  fetching : list TileCoord;
  cancelled : list CancelFunc
}.

Definition set_grid (w : World) (t : TileGrid) : World :=
  mkWorld t (goroutines w) (fetching w) (cancelled w).

Definition set_goroutines (w : World) (gs : list goroutine) : World :=
  mkWorld (grid w) gs (fetching w) (cancelled w).

Definition spawn (k : TileCoord) (w : World) : World :=
  set_goroutines w (goroutines w ++ [mkGoroutine k AtLoadLoading]).

(** The values an integer loop variable takes: from [c] by [step] while
    below [hi], at most [n] of them. *)
Fixpoint zscan (n : nat) (c hi step : Z) : list Z :=
  match n with
  | O => []
  | Datatypes.S n => if c <? hi then c :: zscan n (c + step) hi step else []
  end.

(** The value of a finite [float32] in units of 2^-149, the smallest
    positive [float32]; 0 for the others. *)
Definition units (x : float32) : Z :=
  match x with
  | S754_finite s m e => cond_Zopp s (Z.pos m * 2 ^ (e + 149))
  | _ => 0
  end.

(** A well-formed finite [float32]. *)
Definition sound (x : float32) : Prop := valid x = true /\ is_finite x = true.

(** [x] lies between [lo] and [hi] half pixels. *)
Definition within (lo : Z) (x : float32) (hi : Z) : Prop :=
  sound x /\ lo * 2 ^ 148 <= units x <= hi * 2 ^ 148.



Definition has_duplicate {A : Type} (l : list A) : Prop :=
  exists (k : A) (l1 l2 l3 : list A), l = l1 ++ k :: l2 ++ k :: l3.

(** A grid whose location and sizes are whole pixels, with the derived
    fields as [NewTileGrid] computes them. *)
Definition on_pixels (t : TileGrid) (lx ly tw th sw sh : Z) : Prop :=
  coordX (location t) = of_Z lx /\ coordY (location t) = of_Z ly /\
  tileWidth t = of_Z tw /\ tileHeight t = of_Z th /\
  halfTileWidth t = (of_Z tw / of_Z 2)%f32 /\
  halfTileHeight t = (of_Z th / of_Z 2)%f32 /\
  screenWidth t = of_Z sw /\ screenHeight t = of_Z sh.

Definition pixel_range (lx ly tw th sw sh : Z) : Prop :=
  Z.abs lx <= 2 ^ 20 /\ Z.abs ly <= 2 ^ 20 /\
  0 < tw <= 2 ^ 20 /\ 0 < th <= 2 ^ 20 /\
  0 < sw <= 2 ^ 20 /\ 0 < sh <= 2 ^ 20.

(** The sizes of a grid on whole pixels, with the derived fields as
    [NewTileGrid] computes them. *)
Definition sized (t : TileGrid) (tw th sw sh : Z) : Prop :=
  tileWidth t = of_Z tw /\ tileHeight t = of_Z th /\
  halfTileWidth t = (of_Z tw / of_Z 2)%f32 /\
  halfTileHeight t = (of_Z th / of_Z 2)%f32 /\
  screenWidth t = of_Z sw /\ screenHeight t = of_Z sh /\
  ScreenTileWidth t = sw / tw /\ ScreenTileHeight t = sh / th.

(** The columns (or rows) of the scan of a grid on whole pixels: the
    steps of one tile from one tile before the location that stay below
    half a tile past the viewport. *)
Definition cellCount (size view : Z) : Z :=
  (5 * size + 2 * view - 1) / (2 * size).

(** Column by column and row by row, the tile whose index is the cell's
    pixel divided by the tile size, rounded down and not below zero. *)
Definition pixelTiles (lx ly tw th sw sh z : Z) : list TileCoord :=
  concat
    (map (fun i =>
            map (fun j => mkTileCoord (Z.max 0 (lx / tw + i - 1))
                                      (Z.max 0 (ly / th + j - 1)) z)
                (seqZ 0 (cellCount th sh)))
         (seqZ 0 (cellCount tw sw))).

(** The spec's grid: location (0, 0, 6), 256x256 tiles, 512x512 viewport,
    as [NewTileGrid] builds it, before any goroutine. *)
Definition origin_grid : TileGrid :=
  mkTileGrid (mkCoord (of_Z 0) (of_Z 0) (of_Z 6)) (of_Z 256) (of_Z 256)
    (of_Z 256 / of_Z 2)%f32 (of_Z 256 / of_Z 2)%f32 (of_Z 512) (of_Z 512)
    ∅ ∅ 2 2 [] [] [].

Definition origin_world : World := mkWorld origin_grid [] [] [].

Definition tile006 : TileCoord := mkTileCoord 0 0 6.

(** [loading] and [cache] share no key. *)
Definition disjoint_loading_cache (t : TileGrid) : Prop :=
  forall k : TileCoord, k ∈ loading t -> cache t !! k = None.

(** ** The earlier [grid.go] (its lines 351-520)

    [MAX_ZOOM] is 17, there is no [MIN_ZOOM]; [Add] clamps the zoom from
    above and on a zoom-in only; [forEachVisibleTile] converts the
    quotients as they are. *)
Module Earlier.

Definition MAX_ZOOM : Z := 17.

Definition Add (c a : Coord) : Coord :=
  let c := set_X c (coordX c + coordX a)%f32 in
  let c := set_Y c (coordY c + coordY a)%f32 in
  if (coordZ a <? of_Z 0)%f32 then
    let c := set_X c (coordX c / of_Z 2)%f32 in
    let c := set_Y c (coordY c / of_Z 2)%f32 in
    set_Z c (coordZ c + coordZ a)%f32
  else if (of_Z 0 <? coordZ a)%f32 then
    let c := set_X c (coordX c * of_Z 2)%f32 in
    let c := set_Y c (coordY c * of_Z 2)%f32 in
    let c := set_Z c (coordZ c + coordZ a)%f32 in
    if (of_Z MAX_ZOOM <? coordZ c)%f32 then set_Z c (of_Z MAX_ZOOM) else c
  else c.

(** The body of the two loops, given the conversion [uint32(f)]. *)
Definition tileCoordAt (uint32 : float32 -> Z) (t : TileGrid) (x y : float32)
  : TileCoord :=
  let tX := (x / tileWidth t)%f32 in
  let tY := (y / tileHeight t)%f32 in
  {| tileX := uint32 tX;
     tileY := uint32 tY;
     tileZ := uint32 (coordZ (location t)) |}.

End Earlier.

(** ** The [tile] package ([unnamed/part_003]; [tile.go] before it)

    The tile server is outside the program: a request, its round trip and
    the decoding of a PNG are functions given from outside. A tile or an
    error comes back as a sum. *)
Module tile.

(** What the verb [%d] of [fmt.Sprintf] prints for a [uint32]. *)
Definition decimal (n : Z) : string :=
  NilEmpty.string_of_uint (N.to_uint (Z.to_N n)).

(** [http.Client], as far as this package sets it up: its timeout, in
    nanoseconds. *)
Record HttpClient : Type := mkHttpClient { Timeout : Z }.

Record TileDatasource : Type := mkTileDatasource {
  BaseURL : string;
  Client : option HttpClient      (* the embedded [*http.Client]; [nil] is [None] *)
}.

Definition DefaultTileDatasource : TileDatasource :=
  mkTileDatasource "http://tile.openstreetmap.de"
                   (Some (mkHttpClient (6 * 60000000000))).

(** [http.DefaultClient]: no timeout. *)
Definition DefaultClient : HttpClient := mkHttpClient 0.

(** The errors of [osmapi] by their type, each with its [URL]; any other
    error is handed on as it came. *)
Inductive error : Type :=
| NotFoundError (URL : string)
| ForbiddenError (URL : string)
| GoneError (URL : string)
| RequestURITooLongError (URL : string)
| UnexpectedStatusCodeError (URL : string)
| OtherError (msg : string).

(** A response: its status code and what reading its body gives. *)
Record Response : Type := mkResponse {
  StatusCode : Z;
  Body : result (list Byte.byte)
}.

Definition constructPngUrl (ds : TileDatasource) (x y z : Z) : string :=
  (BaseURL ds ++ "/" ++ decimal z ++ "/" ++ decimal x ++ "/" ++ decimal y ++ ".png")%string.

Section Fetch.

(** What lies outside the program: [http.NewRequest] (which parses the
    URL), the round trip of [client.Do] (with the context it is given) and
    [png.Decode]. *)
Variable NewRequest : string -> result string.
Variable Do : HttpClient -> string -> result Response.
Variable Decode : list Byte.byte -> result N.

Definition NewPngTile (x y z : Z) (pngBytes : list Byte.byte) : PngTile + error :=
  match Decode pngBytes with
  | Err e => inr (OtherError e)
  | Ok pngImage => inl (mkPngTile (mkTileCoord x y z) pngImage)
  end.

Definition getPngTileFromAPI (ds : TileDatasource) (x y z : Z) : PngTile + error :=
  let client :=
    match Client ds with
    | Some c => c
    | None =>
        match Client DefaultTileDatasource with
        | Some c => c
        | None => DefaultClient
        end
    end in
  let url := constructPngUrl ds x y z in
  match NewRequest url with
  | Err e => inr (OtherError e)
  | Ok req =>
      match Do client req with
      | Err e => inr (OtherError e)
      | Ok resp =>
          if StatusCode resp =? 404 then inr (NotFoundError url)
          else if StatusCode resp =? 403 then inr (ForbiddenError url)
          else if StatusCode resp =? 410 then inr (GoneError url)
          else if StatusCode resp =? 414 then inr (RequestURITooLongError url)
          else if StatusCode resp =? 200 then
            match Body resp with
            | Err e => inr (OtherError e)
            | Ok bodyBytes => NewPngTile x y z bodyBytes
            end
          else inr (UnexpectedStatusCodeError url)
      end
  end.

(** The method [Tile] of a datasource, and the function [Tile] of the
    package, which asks the default one. *)
Definition TileOf (ds : TileDatasource) (x y z : Z) : PngTile + error :=
  getPngTileFromAPI ds x y z.

Definition Tile (x y z : Z) : PngTile + error :=
  TileOf DefaultTileDatasource x y z.

End Fetch.

End tile.

(** A decimal digit, and a string of them. *)
Definition is_digit (c : ascii) : bool :=
  let n := nat_of_ascii c in (48 <=? n)%nat && (n <=? 57)%nat.

Fixpoint all_digits (s : string) : bool :=
  match s with
  | EmptyString => true
  | String c s => is_digit c && all_digits s
  end.

(** The error [getPngTileFromAPI] gives for a status that is not 200. *)
Definition statusError (status : Z) (url : string) : tile.error :=
  if status =? 404 then tile.NotFoundError url
  else if status =? 403 then tile.ForbiddenError url
  else if status =? 410 then tile.GoneError url
  else if status =? 414 then tile.RequestURITooLongError url
  else tile.UnexpectedStatusCodeError url.

(** ** The keyboard ([unnamed/part_002], the callbacks of [InputState])

    A callback gives the [Coord] it sends on [MoveDelta], if it sends
    one; [main] calls [Move] with each. *)

Inductive Key : Type := KeyLeft | KeyRight | KeyUp | KeyDown | KeyOther.

Inductive Action : Type := Release | Press | Repeat.

(** [glfw.ModShift], the bit of the shift key in [mods]. *)
Definition ModShift : Z := 1.

Definition inputKeypressCallback (key : Key) (action : Action) (mods : Z)
  : option Coord :=
  match action with
  | Release => None
  | _ =>
      let velocity := of_Z 3 in
      let velocity :=
        if negb (Z.land mods ModShift =? 0) then (velocity * of_Z 10)%f32
        else velocity in
      let delta := mkCoord (of_Z 0) (of_Z 0) (of_Z 0) in
      match key with
      | KeyLeft => Some (set_X delta (- velocity)%f32)
      | KeyRight => Some (set_X delta velocity)
      | KeyUp => Some (set_Y delta (- velocity)%f32)
      | KeyDown => Some (set_Y delta velocity)
      | KeyOther => None
      end
  end.

(** [inputCharCallback]: the rune, by its code point (45 is '-', 43 '+'). *)
Definition inputCharCallback (ch : Z) : option Coord :=
  let delta := mkCoord (of_Z 0) (of_Z 0) (of_Z 0) in
  if ch =? 45 then Some (set_Z delta (of_Z (-1)))
  else if ch =? 43 then Some (set_Z delta (of_Z 1))
  else None.

(** The steps an arrow key makes, in pixels. *)
Definition keyStep (key : Key) (mods : Z) : Z * Z :=
  let v := if Z.land mods ModShift =? 0 then 3 else 30 in
  match key with
  | KeyLeft => (- v, 0)
  | KeyRight => (v, 0)
  | KeyUp => (0, - v)
  | KeyDown => (0, v)
  | KeyOther => (0, 0)
  end.

(** ** [main.go]: drawing a tile *)

Definition TILE_X : Z := 256.
Definition TILE_Y : Z := 256.

(** The calls of OpenGL that [drawTile] makes, in order. *)
Inductive glCall : Type :=
| BindTexture2D (texture : N)
| BeginQuads
| TexCoord2f (s t : float32)
| Vertex3f (x y z : float32)
| End_.

(** [drawTile], with the window's [Width] and [Height] for [wState]. *)
Definition drawTile (Width Height : Z) (origin : Coord) (coord : TileCoord)
           (texture : N) : list glCall :=
  let ox := (coordX origin / of_Z TILE_X)%f32 in
  let oy := (coordY origin / of_Z TILE_Y)%f32 in
  let scaleX := (of_Z TILE_X / of_Z Width)%f32 in
  let scaleY := (of_Z TILE_Y / of_Z Height)%f32 in
  let x1 := ((of_Z (tileX coord) - ox) * scaleX)%f32 in
  let y1 := (- (of_Z (tileY coord) - oy) * scaleY)%f32 in
  let x2 := (x1 + scaleX)%f32 in
  let y2 := (y1 - scaleY)%f32 in
  let x1 := (x1 * of_Z 2 - of_Z 1)%f32 in
  let x2 := (x2 * of_Z 2 - of_Z 1)%f32 in
  let y1 := (y1 * of_Z 2 + of_Z 1)%f32 in
  let y2 := (y2 * of_Z 2 + of_Z 1)%f32 in
  [ BindTexture2D texture; BeginQuads;
    TexCoord2f (of_Z 0) (of_Z 0); Vertex3f x1 y1 (of_Z 1);
    TexCoord2f (of_Z 1) (of_Z 0); Vertex3f x2 y1 (of_Z 1);
    TexCoord2f (of_Z 1) (of_Z 1); Vertex3f x2 y2 (of_Z 1);
    TexCoord2f (of_Z 0) (of_Z 1); Vertex3f x1 y2 (of_Z 1);
    End_ ].

(** Every cached tile sits under its own coordinates. *)
Definition cache_keys_ok (t : TileGrid) : Prop :=
  forall (k : TileCoord) (p : PngTile), cache t !! k = Some p -> Tile p = k.

(** One choice for [uint32(f)] where Go leaves it open, for the runs that
    are computed below; none of them converts such a value. *)
Definition unrepresentable_is_zero (x : float32) : Z := 0.

Section Grid.

(** [uint32(f)] for a [float32] whose integer part is not a [uint32]
    (and for infinities and NaN): Go leaves the value to the
    implementation, and so do we. *)
Variable unrepresentable : float32 -> Z.

Definition uint32_of_float32 (x : float32) : Z :=
  match trunc x with
  | Some n => if (0 <=? n) && (n <? uint32_max) then n
              else wrap32 (unrepresentable x)
  | None => wrap32 (unrepresentable x)
  end.

(** The body of the two loops of [forEachVisibleTile] for the cell at
    world coordinates [(x, y)]. *)
Definition tileCoordAt (t : TileGrid) (x y : float32) : TileCoord :=
  let tX := (x / tileWidth t)%f32 in
  let tY := (y / tileHeight t)%f32 in
  let tX := if (tX <? of_Z 0)%f32 then of_Z 0 else tX in
  let tY := if (tY <? of_Z 0)%f32 then of_Z 0 else tY in
  {| tileX := uint32_of_float32 tX;
     tileY := uint32_of_float32 tY;
     tileZ := uint32_of_float32 (coordZ (location t)) |}.

(** [for y := y; y < y2; y += t.tileHeight { ... }], the body of the loop
    as a function of [y] and of the state it changes. *)
Fixpoint forY {S : Type} (fuel : nat) (t : TileGrid) (body : float32 -> S -> S)
         (y y2 : float32) (s : S) : run S :=
  match fuel with
  | O => Running s
  | Datatypes.S n =>
      if (y <? y2)%f32
      then forY n t body (y + tileHeight t)%f32 y2 (body y s)
      else Returned s
  end.

(** [for x := x; x < x2; x += t.tileWidth { for y := y1; ... }] *)
Fixpoint forX {S : Type} (fuel : nat) (t : TileGrid)
         (body : float32 -> float32 -> S -> S)
         (x x2 y1 y2 : float32) (s : S) : run S :=
  match fuel with
  | O => Running s
  | Datatypes.S n =>
      if (x <? x2)%f32
      then match forY (Datatypes.S n) t (body x) y1 y2 s with
           | Returned s' => forX n t body (x + tileWidth t)%f32 x2 y1 y2 s'
           | Running s' => Running s'
           end
      else Returned s
  end.

(** The two loops of [forEachVisibleTile] over the cells of the grid. *)
Definition forEachCell {S : Type} (fuel : nat) (t : TileGrid)
           (body : float32 -> float32 -> S -> S) (s : S) : run S :=
  let x1 := (coordX (location t) - tileWidth t)%f32 in
  let x2 := (coordX (location t) + halfTileWidth t + screenWidth t)%f32 in
  let y1 := (coordY (location t) - tileHeight t)%f32 in
  let y2 := (coordY (location t) + halfTileHeight t + screenHeight t)%f32 in
  forX fuel t body x1 x2 y1 y2 s.

Definition forEachVisibleTile {S : Type} (fuel : nat) (t : TileGrid)
           (f : TileCoord -> S -> S) (s : S) : run S :=
  forEachCell fuel t (fun x y => f (tileCoordAt t x y)) s.

(** The world coordinates of the cells visited, in order. *)
Definition visibleCells (fuel : nat) (t : TileGrid) : run (list (float32 * float32)) :=
  forEachCell fuel t (fun x y acc => acc ++ [(x, y)]) [].

(** The tiles handed to the callback, in order. *)
Definition visibleTiles (fuel : nat) (t : TileGrid) : run (list TileCoord) :=
  forEachVisibleTile fuel t (fun k acc => acc ++ [k]) [].

(** [sync.Map.Range] deleting every key it visits. *)
Definition range_delete (l : gset TileCoord) : gset TileCoord :=
  foldr (fun k s => s ∖ {[k]}) l (elements l).

Definition CancelLoadingTiles (w : World) : World :=
  let t := grid w in
  (* case l := <-t.TilesToLoad *)
  let t := set_loading t (foldl (fun s l => s ∖ {[l]}) (loading t) (TilesToLoad t)) in
  let t := set_cache t (foldl (fun c l => delete l c) (cache t) (TilesToLoad t)) in
  (* case cancel := <-t.TilesInFlight *)
  let called := TilesInFlight t in
  let t := set_TilesInFlight (set_TilesToLoad t []) [] in
  (* drained: *)
  let t := set_loading t (range_delete (loading t)) in
  mkWorld t (goroutines w) (fetching w) (cancelled w ++ called).

Definition SetTile (w : World) (coord : TileCoord) (tile : PngTile) : World :=
  let t := grid w in
  let t := set_loading t (loading t ∖ {[coord]}) in
  let t := set_cache t (<[coord := tile]> (cache t)) in
  set_grid w t.

Definition SetLocation (fuel : nat) (w : World) (loc : Coord) : run World :=
  let w := set_grid w (set_location (grid w) loc) in
  forEachVisibleTile fuel (grid w) spawn w.

(** The [Coord] literal that [Move] adds after a zoom step (its [Z] is the
    zero value), computed from the whole tiles across the viewport. *)
Definition recentre (t : TileGrid) (delta : Coord) : Coord :=
  if (coordZ delta <? of_Z 0)%f32 then
    mkCoord (- of_Z (ScreenTileWidth t) / of_Z 4 * tileWidth t)%f32
            (- of_Z (ScreenTileHeight t) / of_Z 4 * tileHeight t)%f32
            (of_Z 0)
  else
    mkCoord (of_Z (ScreenTileWidth t) / of_Z 2 * tileWidth t)%f32
            (of_Z (ScreenTileHeight t) / of_Z 2 * tileHeight t)%f32
            (of_Z 0).

Definition Move (fuel : nat) (w : World) (delta : Coord) : run World :=
  let w := set_grid w (set_location (grid w) (Add (location (grid w)) delta)) in
  let w :=
    if negb (coordZ delta =? of_Z 0)%f32 then
      let w := CancelLoadingTiles w in
      set_grid w (set_location (grid w)
                    (Add (location (grid w)) (recentre (grid w) delta)))
    else w in
  SetLocation fuel w (location (grid w)).

(** The location [Move] hands to [SetLocation]. *)
Definition moved (t : TileGrid) (delta : Coord) : Coord :=
  let loc := Add (location t) delta in
  if negb (coordZ delta =? of_Z 0)%f32 then Add loc (recentre t delta) else loc.

(** The worlds after each call of a sequence of [Move] calls; a call that
    has not returned is the last one. *)
Fixpoint Moves (fuel : nat) (w : World) (deltas : list Coord) : list World :=
  match deltas with
  | [] => []
  | delta :: deltas =>
      match Move fuel w delta with
      | Returned w' => w' :: Moves fuel w' deltas
      | Running w' => [w']
      end
  end.

Definition NewTileGrid (fuel : nat) (current : Coord)
           (tileWidth tileHeight screenWidth screenHeight : Z)
  : result (run World) :=
  if (screenWidth =? 0) || (screenHeight =? 0) then
    Err "screen width and height must be positive"
  else if (tileWidth =? 0) || (tileHeight =? 0) then
    Err "tile width and height must be positive"
  else
    let t := {|
      location := current;
      cache := ∅;
      loading := ∅;
      TilesToLoad := [];
      TilesToExpire := [];
      TilesInFlight := [];
      tileWidth := of_Z tileWidth;
      tileHeight := of_Z tileHeight;
      halfTileWidth := (of_Z tileWidth / of_Z 2)%f32;
      halfTileHeight := (of_Z tileHeight / of_Z 2)%f32;
      screenWidth := of_Z screenWidth;
      screenHeight := of_Z screenHeight;
      ScreenTileWidth := screenWidth / tileWidth;
      ScreenTileHeight := screenHeight / tileHeight
    |} in
    Ok (SetLocation fuel (mkWorld t [] [] []) current).

(** [Resize] of the later grid ([unnamed/part_001], where the viewport
    fields are [viewWidth], [viewHeight], [ViewTileWidth], [ViewTileHeight]):
    the tiles across the viewport are counted with the tile size converted
    back from [float32]; a division by zero panics ([None]). *)
Definition Resize (t : TileGrid) (width height : Z) : option TileGrid :=
  let w := uint32_of_float32 (tileWidth t) in
  let h := uint32_of_float32 (tileHeight t) in
  if (w =? 0) || (h =? 0) then None
  else Some (mkTileGrid (location t) (tileWidth t) (tileHeight t)
               (halfTileWidth t) (halfTileHeight t)
               (of_Z width) (of_Z height) (cache t) (loading t)
               (width / w) (height / h)
               (TilesToLoad t) (TilesToExpire t) (TilesInFlight t)).

(** [NewTileGrid] of [unnamed/part_001]: only the tile sizes are tested. *)
Definition NewTileGrid_part_001 (fuel : nat) (origin : Coord)
           (tileWidth tileHeight viewWidth viewHeight : Z)
  : option (result (run World)) :=
  if (tileWidth =? 0) || (tileHeight =? 0) then
    Some (Err "tile width and height must be positive")
  else
    let t := {|
      location := origin;
      cache := ∅;
      loading := ∅;
      TilesToLoad := [];
      TilesToExpire := [];
      TilesInFlight := [];
      tileWidth := of_Z tileWidth;
      tileHeight := of_Z tileHeight;
      halfTileWidth := (of_Z tileWidth / of_Z 2)%f32;
      halfTileHeight := (of_Z tileHeight / of_Z 2)%f32;
      screenWidth := of_Z 0;
      screenHeight := of_Z 0;
      ScreenTileWidth := 0;
      ScreenTileHeight := 0
    |} in
    match Resize t viewWidth viewHeight with
    | Some t => Some (Ok (SetLocation fuel (mkWorld t [] [] []) origin))
    | None => None
    end.

Definition Drawable (fuel : nat) (t : TileGrid) : run (list PngTile) :=
  forEachVisibleTile fuel t
    (fun tileCoord tiles =>
       match cache t !! tileCoord with
       | Some pngTile => tiles ++ [pngTile]
       | None => tiles
       end) [].

(** [All]: every tile of the cache, in the order [sync.Map.Range] visits
    them, which Go leaves open; here the order of the map's keys. *)
Definition All (t : TileGrid) : list PngTile :=
  (map_to_list (cache t)).*2.

(** [GetLocation]: the location field, by reference. *)
Definition GetLocation (t : TileGrid) : Coord := location t.

(** A finite value above zero. *)
Definition positive_finite (x : float32) : bool :=
  match x with S754_finite false _ _ => true | _ => false end.

(** The value [forEachVisibleTile] converts to the [X] index of the cell
    at [x] (and, with the tile height, to its [Y] index). *)
Definition cellIndex (v size : float32) : float32 :=
  let q := (v / size)%f32 in
  if (q <? of_Z 0)%f32 then of_Z 0 else q.

(** Two runs that stopped the same way, in related states. *)
Definition run_rel {A B : Type} (R : A -> B -> Prop) (r1 : run A) (r2 : run B) : Prop :=
  match r1, r2 with
  | Returned a, Returned b => R a b
  | Running a, Running b => R a b
  | _, _ => False
  end.

(** The location the spec's words give [Move] to pass on: the delta
    applied, then a shift by a quarter of the viewport size back (zooming
    out) or by half of it forward (zooming in). *)
Definition moved_by_viewport (t : TileGrid) (delta : Coord) : Coord :=
  let loc := Add (location t) delta in
  if (coordZ delta <? of_Z 0)%f32 then
    Add loc (mkCoord (- (screenWidth t / of_Z 4))%f32
                     (- (screenHeight t / of_Z 4))%f32 (of_Z 0))
  else if (of_Z 0 <? coordZ delta)%f32 then
    Add loc (mkCoord (screenWidth t / of_Z 2)%f32
                     (screenHeight t / of_Z 2)%f32 (of_Z 0))
  else loc.

(** What C4 asks of the cell at [(x, y)]. *)
Definition cell_ok (t : TileGrid) (x y : float32) : Prop :=
  let k := tileCoordAt t x y in
  0 <= tileX k < uint32_max /\ 0 <= tileY k < uint32_max /\
  (cellIndex x (tileWidth t) <? of_Z 0)%f32 = false /\
  (cellIndex y (tileHeight t) <? of_Z 0)%f32 = false /\
  ((x <? of_Z 0)%f32 = true -> tileX k = 0) /\
  ((y <? of_Z 0)%f32 = true -> tileY k = 0).

(** *** One step of the program *)

(** The next statement of a goroutine of [SetLocation]: the grid after
    it, and the goroutine if it goes on. *)
Definition go_step (t : TileGrid) (g : goroutine) : TileGrid * option goroutine :=
  let k := g_tile g in
  match g_pc g with
  | AtLoadLoading =>
      if decide (k ∈ loading t) then (t, None)
      else (t, Some (mkGoroutine k AtLoadCache))
  | AtLoadCache =>
      match cache t !! k with
      | Some _ => (t, None)
      | None => (t, Some (mkGoroutine k AtStoreLoading))
      end
  | AtStoreLoading =>
      (set_loading t ({[k]} ∪ loading t), Some (mkGoroutine k AtSend))
  | AtSend =>
      (set_TilesToLoad t (TilesToLoad t ++ [k]), None)
  end.

(** A goroutine of [SetLocation] run from its first statement to its
    last with nothing in between: what a check and insertion in one step
    would do. *)
Fixpoint go_run (n : nat) (t : TileGrid) (g : goroutine) : TileGrid :=
  match n with
  | O => t
  | Datatypes.S n =>
      match go_step t g with
      | (t', Some g') => go_run n t' g'
      | (t', None) => t'
      end
  end.

Definition go_alone (t : TileGrid) (k : TileCoord) : TileGrid :=
  go_run 4 t (mkGoroutine k AtLoadLoading).

Inductive event : Type :=
| EvMove (delta : Coord)                     (* grid.Move(delta) *)
| EvSetLocation (loc : Coord)                (* grid.SetLocation(loc) *)
| EvSetTile (coord : TileCoord) (tile : PngTile)  (* grid.SetTile(coord, tile) *)
| EvGo (i : nat)          (* the i-th goroutine runs its next statement *)
| EvReceive (i : nat)     (* the loader receives the i-th parked tile *)
| EvFetched (j : nat) (tile : PngTile).
                          (* the j-th fetch ends and sets its tile *)

(** The world after an event; [None] when the event cannot happen. *)
Definition exec (fuel : nat) (w : World) (ev : event) : option World :=
  match ev with
  | EvMove delta => Some (run_state (Move fuel w delta))
  | EvSetLocation loc => Some (run_state (SetLocation fuel w loc))
  | EvSetTile coord tile => Some (SetTile w coord tile)
  | EvGo i =>
      match goroutines w !! i with
      | Some g =>
          let '(t, g') := go_step (grid w) g in
          Some (mkWorld t
                  (match g' with
                   | Some g' => <[i := g']> (goroutines w)
                   | None => delete i (goroutines w)
                   end)
                  (fetching w) (cancelled w))
      | None => None
      end
  | EvReceive i =>
      match TilesToLoad (grid w) !! i with
      | Some k =>
          let t := set_TilesToLoad (grid w) (delete i (TilesToLoad (grid w))) in
          (* fetchTile: go func() { cancel <- cancelCtx }() *)
          let t := set_TilesInFlight t (TilesInFlight t ++ [k]) in
          Some (mkWorld t (goroutines w) (fetching w ++ [k]) (cancelled w))
      | None => None
      end
  | EvFetched j tile =>
      match fetching w !! j with
      | Some k =>
          Some (SetTile (mkWorld (grid w) (goroutines w)
                           (delete j (fetching w)) (cancelled w)) k tile)
      | None => None
      end
  end.

Fixpoint execs (fuel : nat) (w : World) (evs : list event) : option World :=
  match evs with
  | [] => Some w
  | ev :: evs =>
      match exec fuel w ev with
      | Some w' => execs fuel w' evs
      | None => None
      end
  end.

(** *** The loader ([unnamed/part_002]: [fetchTile], [handleTileLoading]) *)

Variable NewRequest : string -> result string.
Variable Do : tile.HttpClient -> string -> result tile.Response.
Variable Decode : list Byte.byte -> result N.

(** [loadTexture]: the texture OpenGL gives, or the error. *)
Variable loadTexture : PngTile -> result N.

(** [fetchTile]: the tile, or [nil, nil] ([None]) where the fetch failed
    and its context had been cancelled ([canceled]), or the error. *)
Definition fetchTile (canceled : bool) (x y z : Z) : option PngTile + tile.error :=
  match tile.Tile NewRequest Do Decode x y z with
  | inr err => if canceled then inl None else inr err
  | inl t => inl (Some t)
  end.

(** The goroutine [handleTileLoading] starts for the tile it received as
    the [j]-th fetch in flight, from its fetch to its end: the tile is set
    where the fetch and [loadTexture] succeed, and nothing is where the
    fetch failed or was cancelled. (A [PngTile] is kept without its
    [Texture] here; a tile just fetched has none.) *)
Definition tileLoaded (canceled : bool) (w : World) (j : nat) : option World :=
  match fetching w !! j with
  | None => None
  | Some t =>
      let w' := mkWorld (grid w) (goroutines w) (delete j (fetching w)) (cancelled w) in
      match fetchTile canceled (tileX t) (tileY t) (tileZ t) with
      | inr _ => Some w'
      | inl None => Some w'
      | inl (Some pngTile) =>
          match loadTexture pngTile with
          | Err _ => Some w'
          | Ok _ => Some (SetTile w' t pngTile)
          end
      end
  end.

(** What happens in a run of [main]: a delta arrives and [Move] is
    called with it, a goroutine of [SetLocation] takes a step, the loader
    receives a tile, or a fetch comes to its end. *)
Inductive action : Type :=
| ActMove (delta : Coord)
| ActGo (i : nat)
| ActReceive (i : nat)
| ActLoaded (j : nat) (canceled : bool).

Definition act (fuel : nat) (w : World) (a : action) : option World :=
  match a with
  | ActMove delta => exec fuel w (EvMove delta)
  | ActGo i => exec fuel w (EvGo i)
  | ActReceive i => exec fuel w (EvReceive i)
  | ActLoaded j canceled => tileLoaded canceled w j
  end.

Fixpoint acts (fuel : nat) (w : World) (l : list action) : option World :=
  match l with
  | [] => Some w
  | a :: l =>
      match act fuel w a with
      | Some w' => acts fuel w' l
      | None => None
      end
  end.

(** ** Facts about the float operations *)


Lemma iter_pos_invariant {A : Type} (P : A -> Prop) (f : A -> A) :
  (forall a, P a -> P (f a)) ->
  forall (p : positive) (a : A), P a -> P (SpecFloat.iter_pos f p a).
Proof.
  intros Hf. induction p as [p IH | p IH |]; intros a Ha; simpl; auto.
Qed.

Lemma shr_1_nonneg (mrs : shr_record) :
  0 <= shr_m mrs -> 0 <= shr_m (shr_1 mrs).
Proof.
  destruct mrs as [m r s]. simpl.
  destruct m as [| [p | p |] | p]; simpl; lia.
Qed.

Lemma shr_record_of_loc_m (m : Z) (l : SpecFloat.location) :
  shr_m (shr_record_of_loc m l) = m.
Proof. destruct l as [| []]; reflexivity. Qed.

Lemma shr_fexp_nonneg (m e : Z) (l : SpecFloat.location) :
  0 <= m -> 0 <= shr_m (fst (shr_fexp prec emax m e l)).
Proof.
  intros Hm. unfold shr_fexp, shr.
  destruct (_ - e) as [| p | p]; simpl; rewrite ?shr_record_of_loc_m; auto.
  apply iter_pos_invariant; [apply shr_1_nonneg |].
  now rewrite shr_record_of_loc_m.
Qed.

Lemma round_nearest_even_nonneg (m : Z) (l : SpecFloat.location) :
  0 <= m -> 0 <= round_nearest_even m l.
Proof.
  intros Hm. destruct l as [| []]; simpl; try lia.
  destruct (Z.even m); lia.
Qed.

(** Rounding a non-negative magnitude never produces a NaN and keeps
    the sign it is given. *)
Lemma binary_round_aux_signed (s : bool) (m e : Z) (l : SpecFloat.location) :
  0 <= m -> signed s (binary_round_aux prec emax s m e l).
Proof.
  intros Hm. unfold binary_round_aux.
  pose proof (shr_fexp_nonneg m e l Hm) as H1.
  destruct (shr_fexp prec emax m e l) as [mrs' e'] eqn:E1. simpl in H1.
  pose proof (shr_fexp_nonneg _ e' loc_Exact
                (round_nearest_even_nonneg _ (loc_of_shr_record mrs') H1)) as H2.
  destruct (shr_fexp prec emax (round_nearest_even _ _) e' loc_Exact)
    as [mrs'' e''] eqn:E2.
  simpl in H2. destruct (shr_m mrs'') as [| q | q]; simpl; auto; try lia.
  destruct (e'' <=? _); simpl; auto.
Qed.

Lemma binary_round_signed (s : bool) (m : positive) (e : Z) :
  signed s (binary_round prec emax s m e).
Proof.
  unfold binary_round.
  destruct (shl_align m e _) as [mz ez].
  apply binary_round_aux_signed. lia.
Qed.

Lemma binary_normalize_not_nan (m e : Z) (sz : bool) :
  binary_normalize prec emax m e sz <> S754_nan.
Proof.
  destruct m as [| p | p]; simpl; [discriminate | |].
  - pose proof (binary_round_signed false p e) as H.
    intros E. rewrite E in H. exact H.
  - pose proof (binary_round_signed true p e) as H.
    intros E. rewrite E in H. exact H.
Qed.

Lemma add_finite_not_nan (x y : float32) :
  is_finite x = true -> is_nan y = false -> is_nan (x + y)%f32 = false.
Proof.
  intros Hx Hy.
  destruct x as [sx | sx | | sx mx ex]; try discriminate;
    destruct y as [sy | sy | | sy my ey]; try discriminate;
    try reflexivity.
  - destruct sx, sy; reflexivity.
  - unfold add, SFadd.
    destruct (binary_normalize prec emax _ _ false) eqn:E; try reflexivity.
    exfalso. eapply binary_normalize_not_nan. exact E.
Qed.

(** [SFcompare] is antisymmetric. *)
Lemma SFcompare_antisym (x y : float32) :
  SFcompare y x = option_map CompOpp (SFcompare x y).
Proof.
  destruct x as [sx | sx | | sx mx ex], y as [sy | sy | | sy my ey];
    simpl; try reflexivity;
    try (destruct sx; reflexivity); try (destruct sy; reflexivity);
    try (destruct sx, sy; reflexivity).
  destruct sx, sy; simpl; try reflexivity;
    rewrite (Z.compare_antisym ey ex);
    destruct (ey ?= ex) eqn:E; simpl; try reflexivity;
    rewrite (Pos.compare_cont_antisym mx my Eq); simpl;
    destruct (Pos.compare_cont Eq mx my); reflexivity.
Qed.

Lemma SFcompare_not_nan (x y : float32) :
  is_nan x = false -> is_nan y = false -> exists c, SFcompare x y = Some c.
Proof.
  destruct x, y; simpl; intros; try discriminate; eauto.
Qed.

Lemma ltb_false_leb (x y : float32) :
  is_nan x = false -> is_nan y = false ->
  (x <? y)%f32 = false -> (y <=? x)%f32 = true.
Proof.
  intros Hx Hy. unfold ltb, leb, SFltb, SFleb.
  rewrite (SFcompare_antisym x y).
  destruct (SFcompare_not_nan x y Hx Hy) as [c ->].
  destruct c; simpl; congruence.
Qed.

Lemma leb_not_nan (x y : float32) :
  (x <=? y)%f32 = true -> is_nan x = false /\ is_nan y = false.
Proof.
  destruct x, y; simpl; try discriminate; auto.
Qed.

Lemma ltb_not_nan (x y : float32) :
  (x <? y)%f32 = true -> is_nan x = false /\ is_nan y = false.
Proof.
  destruct x, y; simpl; try discriminate; auto.
Qed.

Lemma zoom_in_range_finite (z : float32) :
  zoom_in_range z = true -> is_finite z = true.
Proof.
  unfold zoom_in_range. intros H. apply andb_prop in H as [H1 H2].
  destruct z as [s | s | | s m e]; try reflexivity; try discriminate.
  destruct s; vm_compute in H1, H2; discriminate.
Qed.


(** ** Exact float arithmetic on values of at most 24 bits *)

Lemma iter_pos_nat {A : Type} (f : A -> A) (p : positive) (a : A) :
  SpecFloat.iter_pos f p a = Nat.iter (Pos.to_nat p) f a.
Proof.
  revert a. induction p as [p IH | p IH |]; intros a; cbn [SpecFloat.iter_pos].
  - rewrite !IH, Pos2Nat.inj_xI.
    replace (Datatypes.S (2 * Pos.to_nat p)) with (Pos.to_nat p + Pos.to_nat p + 1)%nat by lia.
    rewrite !Nat.iter_add. reflexivity.
  - rewrite !IH, Pos2Nat.inj_xO.
    replace (2 * Pos.to_nat p)%nat with (Pos.to_nat p + Pos.to_nat p)%nat by lia.
    rewrite Nat.iter_add. reflexivity.
  - reflexivity.
Qed.

Lemma digits2_pos_bounds (p : positive) :
  2 ^ (Z.pos (digits2_pos p) - 1) <= Z.pos p < 2 ^ Z.pos (digits2_pos p).
Proof.
  induction p as [p IH | p IH |]; simpl digits2_pos.
  - rewrite Pos2Z.inj_succ.
    replace (Z.succ (Z.pos (digits2_pos p)) - 1) with (Z.succ (Z.pos (digits2_pos p) - 1)) by lia.
    rewrite !Z.pow_succ_r by lia. lia.
  - rewrite Pos2Z.inj_succ.
    replace (Z.succ (Z.pos (digits2_pos p)) - 1) with (Z.succ (Z.pos (digits2_pos p) - 1)) by lia.
    rewrite !Z.pow_succ_r by lia. lia.
  - simpl. lia.
Qed.

Lemma digits2_pos_unique (p : positive) (d : Z) :
  2 ^ (d - 1) <= Z.pos p < 2 ^ d -> Z.pos (digits2_pos p) = d.
Proof.
  intros [Hlo Hhi]. pose proof (digits2_pos_bounds p) as [Blo Bhi].
  set (D := Z.pos (digits2_pos p)) in *.
  assert (HD : 0 < D) by (subst D; lia).
  destruct (Z.lt_trichotomy D d) as [Hlt | [Heq | Hgt]]; [| exact Heq |].
  - exfalso. assert (2 ^ D <= 2 ^ (d - 1)) by (apply Z.pow_le_mono_r; lia). lia.
  - exfalso.
    assert (d <= 0 \/ 0 < d) as [Hd | Hd] by lia.
    + assert (2 ^ d <= 2 ^ 0) by (apply Z.pow_le_mono_r; lia).
      simpl in *. lia.
    + assert (2 ^ d <= 2 ^ (D - 1)) by (apply Z.pow_le_mono_r; lia). lia.
Qed.

Lemma digits2_pos_shift (p q : positive) (j : Z) :
  0 <= j -> Z.pos p = Z.pos q * 2 ^ j ->
  Z.pos (digits2_pos p) = Z.pos (digits2_pos q) + j.
Proof.
  intros Hj Hp. apply digits2_pos_unique.
  pose proof (digits2_pos_bounds q) as [Blo Bhi].
  replace (Z.pos (digits2_pos q) + j - 1) with ((Z.pos (digits2_pos q) - 1) + j) by lia.
  rewrite !Z.pow_add_r by lia. rewrite Hp.
  assert (0 < 2 ^ j) by (apply Z.pow_pos_nonneg; lia). nia.
Qed.

Lemma shr_exact (n : nat) :
  forall p q : positive,
    Z.pos p = Z.pos q * 2 ^ Z.of_nat n ->
    Nat.iter n shr_1 (Build_shr_record (Z.pos p) false false) =
    Build_shr_record (Z.pos q) false false.
Proof.
  induction n as [| n IH]; intros p q H.
  - change (Z.of_nat 0) with 0 in H. rewrite Z.pow_0_r, Z.mul_1_r in H.
    now inversion H.
  - rewrite Nat.iter_succ_r. rewrite Nat2Z.inj_succ, Z.pow_succ_r in H by lia.
    destruct p as [p | p |]; try lia.
    simpl. apply IH. lia.
Qed.

Lemma shr_record_exact (m : Z) : shr_record_of_loc m loc_Exact = Build_shr_record m false false.
Proof. reflexivity. Qed.

(** Rounding a mantissa that needs no shift. *)
Lemma round_aux_noshift (s : bool) (p : positive) (e : Z) :
  fexp prec emax (Z.pos (digits2_pos p) + e) <= e -> e <= emax - prec ->
  binary_round_aux prec emax s (Z.pos p) e loc_Exact = S754_finite s p e.
Proof.
  intros Hk He. unfold binary_round_aux.
  assert (Hs : shr_fexp prec emax (Z.pos p) e loc_Exact =
               (Build_shr_record (Z.pos p) false false, e)).
  { unfold shr_fexp, shr. simpl Zdigits2.
    destruct (fexp prec emax (Z.pos (digits2_pos p) + e) - e) eqn:E; try reflexivity. lia. }
  rewrite Hs. simpl loc_of_shr_record. simpl round_nearest_even.
  simpl shr_m. rewrite Hs. simpl shr_m.
  apply Z.leb_le in He. now rewrite He.
Qed.

(** Rounding a mantissa whose shifted-out bits are all zero. *)
Lemma round_aux_shift (s : bool) (p q : positive) (e j : Z) :
  0 < j -> Z.pos p = Z.pos q * 2 ^ j ->
  fexp prec emax (Z.pos (digits2_pos p) + e) = e + j -> e + j <= emax - prec ->
  binary_round_aux prec emax s (Z.pos p) e loc_Exact = S754_finite s q (e + j).
Proof.
  intros Hj Hp Hk He. unfold binary_round_aux.
  assert (Hs : shr_fexp prec emax (Z.pos p) e loc_Exact =
               (Build_shr_record (Z.pos q) false false, e + j)).
  { unfold shr_fexp, shr. simpl Zdigits2. rewrite Hk.
    replace (e + j - e) with j by lia.
    destruct j as [| j | j]; try lia.
    rewrite iter_pos_nat. f_equal.
    apply shr_exact. now rewrite positive_nat_Z. }
  rewrite Hs. simpl loc_of_shr_record. simpl round_nearest_even. simpl shr_m.
  assert (Hs2 : shr_fexp prec emax (Z.pos q) (e + j) loc_Exact =
               (Build_shr_record (Z.pos q) false false, e + j)).
  { unfold shr_fexp, shr. simpl Zdigits2.
    rewrite (digits2_pos_shift p q j) in Hk by (lia || assumption).
    replace (Z.pos (digits2_pos q) + (e + j)) with (Z.pos (digits2_pos q) + j + e) by lia.
    rewrite Hk. replace (e + j - (e + j)) with 0 by lia. reflexivity. }
  rewrite Hs2. simpl shr_m.
  apply Z.leb_le in He. now rewrite He.
Qed.

Lemma pos_iter_xO (p d : positive) :
  Z.pos (Pos.iter xO p d) = Z.pos p * 2 ^ Z.pos d.
Proof.
  revert p. induction d as [| d IH] using Pos.peano_ind; intros p.
  - simpl. lia.
  - rewrite Pos.iter_succ, Pos2Z.inj_succ, Z.pow_succ_r by lia.
    rewrite Pos2Z.inj_xO, IH. lia.
Qed.

Lemma fexp_normal (x : Z) : -125 <= x -> fexp prec emax x = x - 24.
Proof. intros H. unfold fexp, emin, prec, emax. lia. Qed.

(** The canonical encoding of p * 2^e, for a p of at most 24 bits. *)
Lemma binary_round_small (s : bool) (p : positive) (e : Z) :
  let D := Z.pos (digits2_pos p) in
  D <= 24 -> -125 <= D + e -> D + e <= 128 ->
  binary_round prec emax s p e =
  S754_finite s (Z.to_pos (Z.pos p * 2 ^ (24 - D))) (e + D - 24).
Proof.
  intros D HD Hlo Hhi. unfold binary_round, shl_align.
  fold D. rewrite (fexp_normal (D + e)) by lia.
  destruct (D + e - 24 - e) as [| d | d] eqn:E; try lia.
  - assert (HD24 : D = 24) by lia.
    rewrite round_aux_noshift.
    + f_equal; [| lia]. rewrite HD24. simpl. now rewrite Pos.mul_1_r.
    + fold D. rewrite fexp_normal by lia. lia.
    + unfold emax, prec. lia.
  - assert (Hd : Z.pos d = 24 - D) by lia.
    assert (Hp : Z.pos (Pos.iter xO p d) = Z.pos p * 2 ^ (24 - D))
      by (rewrite pos_iter_xO, Hd; reflexivity).
    rewrite round_aux_noshift.
    + f_equal; [| lia]. rewrite <- Hp. reflexivity.
    + rewrite (digits2_pos_shift _ p (24 - D)) by (lia || assumption).
      fold D. rewrite fexp_normal by lia. lia.
    + unfold emax, prec. lia.
Qed.

(** A power of two moved from the mantissa to the exponent changes nothing,
    as long as the value fits 24 bits. *)
Lemma binary_round_scaled (s : bool) (p q : positive) (e j : Z) :
  0 <= j -> Z.pos p = Z.pos q * 2 ^ j ->
  Z.pos (digits2_pos q) <= 24 ->
  -125 <= Z.pos (digits2_pos q) + j + e -> Z.pos (digits2_pos q) + j + e <= 128 ->
  binary_round prec emax s p e = binary_round prec emax s q (e + j).
Proof.
  intros Hj Hp HD Hlo Hhi.
  pose proof (digits2_pos_shift p q j Hj Hp) as HDp.
  set (Dq := Z.pos (digits2_pos q)) in *. set (Dp := Z.pos (digits2_pos p)) in *.
  rewrite (binary_round_small s q (e + j)) by (fold Dq; lia). fold Dq.
  destruct (Z_le_gt_dec Dp 24) as [Hle | Hgt].
  - rewrite (binary_round_small s p e) by (fold Dp; lia). fold Dp.
    f_equal; [| lia]. f_equal. rewrite Hp, HDp.
    replace (24 - Dq) with (j + (24 - (Dq + j))) by lia.
    rewrite Z.pow_add_r by lia. lia.
  - unfold binary_round, shl_align. fold Dp.
    rewrite (fexp_normal (Dp + e)) by lia.
    destruct (Dp + e - 24 - e) as [| d | d] eqn:E; try lia.
    set (q' := Z.to_pos (Z.pos q * 2 ^ (24 - Dq))).
    assert (Hq' : Z.pos q' = Z.pos q * 2 ^ (24 - Dq)).
    { subst q'. rewrite Z2Pos.id; [reflexivity |].
      apply Z.mul_pos_pos; [lia | apply Z.pow_pos_nonneg; lia]. }
    rewrite (round_aux_shift s p q' e (Dp - 24)).
    + f_equal. lia.
    + lia.
    + rewrite Hq', Hp.
      replace j with ((24 - Dq) + (Dp - 24)) at 1 by lia.
      rewrite Z.pow_add_r by lia. lia.
    + fold Dp. rewrite fexp_normal by lia. lia.
    + unfold emax, prec. lia.
Qed.

(** ** The half-integers of at most 24 bits *)

Lemma Zdigits2_bounds (n : Z) :
  n <> 0 -> 2 ^ (Zdigits2 n - 1) <= Z.abs n < 2 ^ Zdigits2 n.
Proof.
  destruct n as [| p | p]; intros H; [contradiction | |]; simpl; apply digits2_pos_bounds.
Qed.

Lemma Zdigits2_le (n : Z) (d : Z) : 0 <= d -> Z.abs n < 2 ^ d -> Zdigits2 n <= d.
Proof.
  intros Hd H. destruct (Z.eq_dec n 0) as [-> | Hn]; [simpl; lia |].
  pose proof (Zdigits2_bounds n Hn) as [Hlo _].
  destruct (Z_le_gt_dec (Zdigits2 n) d) as [| Hgt]; [assumption | exfalso].
  assert (2 ^ d <= 2 ^ (Zdigits2 n - 1)) by (apply Z.pow_le_mono_r; lia). lia.
Qed.

Lemma Zdigits2_pos (n : Z) : n <> 0 -> 0 < Zdigits2 n.
Proof. destruct n; intros H; [contradiction | |]; simpl; lia. Qed.

Lemma half_canonical (n : Z) :
  n <> 0 -> Z.abs n < 2 ^ 24 ->
  half n = S754_finite (n <? 0) (Z.to_pos (Z.abs n * 2 ^ (24 - Zdigits2 n)))
                       (Zdigits2 n - 25).
Proof.
  intros Hn Hb. pose proof (Zdigits2_le n 24 ltac:(lia) Hb) as HD.
  pose proof (Zdigits2_pos n Hn) as HD0.
  unfold half, binary_normalize.
  destruct n as [| p | p]; [contradiction | |]; simpl in HD, HD0;
    rewrite binary_round_small by lia; simpl Z.abs; simpl Zdigits2;
    (f_equal; lia).
Qed.

Lemma half_mantissa (n : Z) :
  n <> 0 -> Z.abs n < 2 ^ 24 ->
  Z.pos (Z.to_pos (Z.abs n * 2 ^ (24 - Zdigits2 n))) = Z.abs n * 2 ^ (24 - Zdigits2 n).
Proof.
  intros Hn Hb. pose proof (Zdigits2_le n 24 ltac:(lia) Hb) as HD.
  rewrite Z2Pos.id; [reflexivity |].
  apply Z.mul_pos_pos; [lia | apply Z.pow_pos_nonneg; lia].
Qed.

Lemma shl_align_fst (m : positive) (e ez : Z) :
  ez <= e -> Z.pos (fst (shl_align m e ez)) = Z.pos m * 2 ^ (e - ez).
Proof.
  intros H. unfold shl_align.
  destruct (ez - e) as [| d | d] eqn:E; cbn [fst]; try lia.
  - replace (e - ez) with 0 by lia. rewrite Z.pow_0_r. lia.
  - rewrite pos_iter_xO. f_equal. f_equal. lia.
Qed.

(** The aligned mantissa of a half-integer in an addition: n * 2^(-1 - ez). *)
Lemma half_aligned (n ez : Z) :
  n <> 0 -> Z.abs n < 2 ^ 24 -> ez <= Zdigits2 n - 25 ->
  cond_Zopp (n <? 0)
    (Z.pos (fst (shl_align (Z.to_pos (Z.abs n * 2 ^ (24 - Zdigits2 n)))
                           (Zdigits2 n - 25) ez)))
  = n * 2 ^ (-1 - ez).
Proof.
  intros Hn Hb He. pose proof (Zdigits2_le n 24 ltac:(lia) Hb) as HD.
  rewrite shl_align_fst by lia. rewrite half_mantissa by assumption.
  rewrite <- Z.mul_assoc, <- Z.pow_add_r by lia.
  replace (24 - Zdigits2 n + (Zdigits2 n - 25 - ez)) with (-1 - ez) by lia.
  unfold cond_Zopp. destruct (n <? 0) eqn:E.
  - apply Z.ltb_lt in E. rewrite Z.abs_neq by lia. lia.
  - apply Z.ltb_ge in E. rewrite Z.abs_eq by lia. lia.
Qed.

Lemma binary_normalize_scaled (n j e : Z) :
  0 <= j -> Z.abs n < 2 ^ 24 -> -125 <= j + e -> 24 + j + e <= 128 -> 
  -125 <= e + j + 1 ->
  binary_normalize prec emax (n * 2 ^ j) e false =
  binary_normalize prec emax n (e + j) false.
Proof.
  intros Hj Hb Hlo Hhi Hlo'.
  assert (H2 : 0 < 2 ^ j) by (apply Z.pow_pos_nonneg; lia).
  destruct n as [| p | p]; [reflexivity | |].
  - pose proof (Zdigits2_le (Z.pos p) 24 ltac:(lia) Hb) as HD. simpl in HD.
    assert (HD0 : 0 < Z.pos (digits2_pos p)) by lia.
    destruct (Z.pos p * 2 ^ j) as [| r | r] eqn:E; try lia.
    simpl. apply binary_round_scaled; try lia.
  - pose proof (Zdigits2_le (Z.neg p) 24 ltac:(lia) Hb) as HD. simpl in HD.
    assert (HD0 : 0 < Z.pos (digits2_pos p)) by lia.
    destruct (Z.neg p * 2 ^ j) as [| r | r] eqn:E; try lia.
    simpl. apply binary_round_scaled; try lia.
Qed.

Lemma Zdigits2_le24 (n : Z) : Z.abs n < 2 ^ 24 -> Zdigits2 n <= 24.
Proof. apply Zdigits2_le. lia. Qed.

Lemma half_0 : half 0 = S754_zero false.
Proof. reflexivity. Qed.

(** Addition of half-integers is exact while the sum fits 24 bits. *)
Lemma half_add (a b : Z) :
  Z.abs a < 2 ^ 24 -> Z.abs b < 2 ^ 24 -> Z.abs (a + b) < 2 ^ 24 ->
  SFadd prec emax (half a) (half b) = half (a + b).
Proof.
  intros Ha Hb Hab.
  destruct (Z.eq_dec a 0) as [-> | Na].
  { rewrite half_0, Z.add_0_l.
    destruct (Z.eq_dec b 0) as [-> | Nb]; [reflexivity |].
    rewrite half_canonical by assumption. reflexivity. }
  destruct (Z.eq_dec b 0) as [-> | Nb].
  { rewrite half_0, Z.add_0_r. rewrite half_canonical by assumption. reflexivity. }
  pose proof (Zdigits2_le24 a Ha) as Da. pose proof (Zdigits2_le24 b Hb) as Db.
  rewrite (half_canonical a), (half_canonical b) by assumption.
  unfold SFadd.
  set (ez := Z.min (Zdigits2 a - 25) (Zdigits2 b - 25)).
  rewrite (half_aligned a ez), (half_aligned b ez) by (assumption || subst ez; lia).
  rewrite <- Z.mul_add_distr_r.
  rewrite binary_normalize_scaled by (assumption || subst ez; lia).
  unfold half. f_equal. subst ez. lia.
Qed.

Lemma half_sub (a b : Z) :
  Z.abs a < 2 ^ 24 -> Z.abs b < 2 ^ 24 -> Z.abs (a - b) < 2 ^ 24 ->
  SFsub prec emax (half a) (half b) = half (a - b).
Proof.
  intros Ha Hb Hab.
  destruct (Z.eq_dec b 0) as [-> | Nb].
  { rewrite half_0, Z.sub_0_r.
    destruct (Z.eq_dec a 0) as [-> | Na]; [reflexivity |].
    rewrite half_canonical by assumption. reflexivity. }
  destruct (Z.eq_dec a 0) as [-> | Na].
  { rewrite half_0, Z.sub_0_l.
    rewrite (half_canonical b), (half_canonical (- b)) by (assumption || lia).
    simpl SFsub. rewrite Z.abs_opp.
    assert (Hd : Zdigits2 (- b) = Zdigits2 b) by (destruct b; reflexivity).
    rewrite Hd. f_equal.
    destruct (b <? 0) eqn:E1, (- b <? 0) eqn:E2; try reflexivity; lia. }
  pose proof (Zdigits2_le24 a Ha) as Da. pose proof (Zdigits2_le24 b Hb) as Db.
  rewrite (half_canonical a), (half_canonical b) by assumption.
  unfold SFsub.
  set (ez := Z.min (Zdigits2 a - 25) (Zdigits2 b - 25)).
  rewrite (half_aligned a ez), (half_aligned b ez) by (assumption || subst ez; lia).
  rewrite <- Z.mul_sub_distr_r.
  rewrite binary_normalize_scaled by (assumption || subst ez; lia).
  unfold half. f_equal. subst ez. lia.
Qed.

(** Comparison of canonical encodings of positive half-integers. *)
Lemma half_compare_pos (a b : Z) :
  0 < a < 2 ^ 24 -> 0 < b < 2 ^ 24 ->
  match Zdigits2 a - 25 ?= Zdigits2 b - 25 with
  | Lt => Lt
  | Gt => Gt
  | Eq => Pos.compare_cont Eq (Z.to_pos (Z.abs a * 2 ^ (24 - Zdigits2 a)))
                              (Z.to_pos (Z.abs b * 2 ^ (24 - Zdigits2 b)))
  end = (a ?= b).
Proof.
  intros Ha Hb.
  pose proof (Zdigits2_bounds a ltac:(lia)) as [Alo Ahi].
  pose proof (Zdigits2_bounds b ltac:(lia)) as [Blo Bhi].
  pose proof (Zdigits2_le24 a ltac:(lia)) as Da.
  pose proof (Zdigits2_le24 b ltac:(lia)) as Db.
  rewrite (Z.abs_eq a) in * by lia. rewrite (Z.abs_eq b) in * by lia.
  destruct (Zdigits2 a - 25 ?= Zdigits2 b - 25) eqn:E.
  - apply Z.compare_eq in E. assert (Hd : Zdigits2 a = Zdigits2 b) by lia.
    fold (Pos.compare (Z.to_pos (a * 2 ^ (24 - Zdigits2 a)))
                      (Z.to_pos (b * 2 ^ (24 - Zdigits2 b)))).
    assert (H2 : 0 < 2 ^ (24 - Zdigits2 b)) by (apply Z.pow_pos_nonneg; lia).
    rewrite Hd, <- Z2Pos.inj_compare by nia.
    symmetry. apply Zmult_compare_compat_r. lia.
  - rewrite Z.compare_lt_iff in E. symmetry. apply Z.compare_lt_iff.
    assert (2 ^ Zdigits2 a <= 2 ^ (Zdigits2 b - 1)) by (apply Z.pow_le_mono_r; lia).
    lia.
  - rewrite Z.compare_gt_iff in E. symmetry. apply Z.compare_gt_iff.
    assert (2 ^ Zdigits2 b <= 2 ^ (Zdigits2 a - 1)) by (apply Z.pow_le_mono_r; lia).
    lia.
Qed.

Lemma half_compare (a b : Z) :
  Z.abs a < 2 ^ 24 -> Z.abs b < 2 ^ 24 ->
  SFcompare (half a) (half b) = Some (a ?= b).
Proof.
  intros Ha Hb.
  destruct (Z.eq_dec a 0) as [-> | Na]; destruct (Z.eq_dec b 0) as [-> | Nb].
  - reflexivity.
  - rewrite half_0, (half_canonical b) by assumption.
    destruct b; [contradiction | reflexivity | reflexivity].
  - rewrite half_0, (half_canonical a) by assumption.
    destruct a; [contradiction | reflexivity | reflexivity].
  - rewrite (half_canonical a), (half_canonical b) by assumption.
    unfold SFcompare. f_equal.
    destruct (a <? 0) eqn:Ea, (b <? 0) eqn:Eb.
    + (* both negative *)
      assert (Hd : forall n, Zdigits2 n = Zdigits2 (- n)) by (intros []; reflexivity).
      pose proof (half_compare_pos (- b) (- a) ltac:(lia) ltac:(lia)) as H.
      rewrite <- !Hd, !Z.abs_opp in H.
      rewrite Z.compare_opp in H. rewrite <- H.
      rewrite (Z.compare_antisym (Zdigits2 a - 25) (Zdigits2 b - 25)).
      destruct (Zdigits2 a - 25 ?= Zdigits2 b - 25); simpl; try reflexivity.
      now rewrite Pos.compare_cont_antisym.
    + symmetry. apply Z.compare_lt_iff. lia.
    + symmetry. apply Z.compare_gt_iff. lia.
    + apply half_compare_pos; lia.
Qed.

Lemma half_ltb (a b : Z) :
  Z.abs a < 2 ^ 24 -> Z.abs b < 2 ^ 24 ->
  SFltb (half a) (half b) = (a <? b).
Proof.
  intros Ha Hb. unfold SFltb. rewrite half_compare by assumption.
  unfold Z.ltb. destruct (a ?= b); reflexivity.
Qed.

(** [float32(n)] is the half-integer 2n. *)
Lemma of_Z_half (n : Z) :
  Z.abs n < 2 ^ 23 -> binary_normalize prec emax n 0 false = half (2 * n).
Proof.
  intros Hn. unfold half.
  replace (2 * n) with (n * 2 ^ 1) by lia.
  rewrite binary_normalize_scaled by lia. reflexivity.
Qed.

(** ** Halving and doubling *)

Lemma div_eucl_exact (a b q : Z) : 0 < b -> a = q * b -> Z.div_eucl a b = (q, 0).
Proof.
  intros Hb Ha.
  pose proof (Z.div_mul q b ltac:(lia)) as Hq.
  pose proof (Z.mod_mul q b ltac:(lia)) as Hr.
  rewrite <- Ha in Hq, Hr. unfold Z.div, Z.modulo in Hq, Hr.
  destruct (Z.div_eucl a b) as [q' r']. now subst.
Qed.

Lemma div_eucl_odd (q b : Z) :
  0 < b -> Z.div_eucl ((2 * q + 1) * b) (2 * b) = (q, b).
Proof.
  intros Hb.
  assert (Hq : ((2 * q + 1) * b) / (2 * b) = q).
  { symmetry. apply (Z.div_unique _ _ q b); lia. }
  assert (Hr : ((2 * q + 1) * b) mod (2 * b) = b).
  { symmetry. apply (Z.mod_unique _ _ q b); lia. }
  unfold Z.div, Z.modulo in Hq, Hr.
  destruct (Z.div_eucl ((2 * q + 1) * b) (2 * b)) as [q' r']. now subst.
Qed.

(** Halving a float whose half is not below the normal range: the
    exponent goes down by one. *)
Lemma div2_normal (s : bool) (m : positive) (e : Z) :
  Z.pos (digits2_pos m) = 24 -> -148 <= e -> e <= 105 ->
  SFdiv prec emax (S754_finite s m e) two = S754_finite s m (e - 1).
Proof.
  intros HD Hlo Hhi. unfold SFdiv, two, SFdiv_core_binary.
  cbn [Zdigits2]. rewrite HD. change (Z.pos (digits2_pos 8388608)) with 24.
  rewrite xorb_false_r.
  destruct (Z.eq_dec e (-148)) as [-> | Hne].
  - change (Z.min (fexp prec emax (24 + -148 - (24 + -22))) (-148 - -22)) with (-149).
    change (-148 - -22 - -149) with 23.
    rewrite Z.shiftl_mul_pow2 by lia.
    rewrite (div_eucl_exact _ _ (Z.pos m)) by (reflexivity || lia).
    change (new_location 8388608 0) with loc_Exact.
    apply round_aux_noshift; [rewrite HD; vm_compute; discriminate | vm_compute; discriminate].
  - assert (He' : Z.min (fexp prec emax (24 + e - (24 + -22))) (e - -22) = e - 2).
    { unfold fexp, emin, prec, emax. lia. }
    rewrite He'. replace (e - -22 - (e - 2)) with 24 by lia.
    rewrite Z.shiftl_mul_pow2 by lia.
    rewrite (div_eucl_exact _ _ (Z.pos m~0))
      by (reflexivity || (change (2 ^ 24) with (2 * 8388608); lia)).
    change (new_location 8388608 0) with loc_Exact.
    rewrite (round_aux_shift s (m~0) m (e - 2) 1).
    + f_equal. lia.
    + lia.
    + lia.
    + cbn [digits2_pos]. rewrite Pos2Z.inj_succ, HD.
      unfold fexp, emin, prec, emax. lia.
    + unfold emax, prec. lia.
Qed.

(** Doubling multiplies exactly, up to the overflow threshold. *)
Lemma mul2_normal (s : bool) (m : positive) (e : Z) :
  Z.pos (digits2_pos m) = 24 -> -149 <= e -> e <= 103 ->
  SFmul prec emax (S754_finite s m e) two = S754_finite s m (e + 1).
Proof.
  intros HD Hlo Hhi. unfold SFmul, two. rewrite xorb_false_r.
  assert (Hp : Z.pos (m * 8388608) = Z.pos m * 2 ^ 23) by (rewrite Pos2Z.inj_mul; reflexivity).
  rewrite (round_aux_shift s (m * 8388608) m (e + -22) 23).
  - f_equal. lia.
  - lia.
  - exact Hp.
  - rewrite (digits2_pos_shift _ m 23) by (lia || exact Hp). rewrite HD.
    unfold fexp, emin, prec, emax. lia.
  - unfold emax, prec. lia.
Qed.

Lemma mul2_subnormal (s : bool) (m : positive) :
  Z.pos (digits2_pos m) < 24 ->
  SFmul prec emax (S754_finite s m (-149)) two = S754_finite s m~0 (-149).
Proof.
  intros HD. unfold SFmul, two. rewrite xorb_false_r.
  assert (Hp : Z.pos (m * 8388608) = Z.pos m~0 * 2 ^ 22) by (rewrite Pos2Z.inj_mul; lia).
  rewrite (round_aux_shift s (m * 8388608) m~0 (-149 + -22) 22).
  - reflexivity.
  - lia.
  - exact Hp.
  - rewrite (digits2_pos_shift _ m~0 22) by (lia || exact Hp).
    cbn [digits2_pos]. rewrite Pos2Z.inj_succ.
    unfold fexp, emin, prec, emax. lia.
  - unfold emax, prec. lia.
Qed.

Lemma div2_subnormal_even (s : bool) (q : positive) :
  Z.pos (digits2_pos q~0) <= 24 ->
  SFdiv prec emax (S754_finite s q~0 (-149)) two = S754_finite s q (-149).
Proof.
  intros HD. unfold SFdiv, two, SFdiv_core_binary.
  cbn [Zdigits2]. change (Z.pos (digits2_pos 8388608)) with 24.
  rewrite xorb_false_r.
  cbn [digits2_pos] in *. rewrite Pos2Z.inj_succ in *.
  assert (He' : Z.min (fexp prec emax (Z.succ (Z.pos (digits2_pos q)) + -149 - (24 + -22)))
                      (-149 - -22) = -149).
  { unfold fexp, emin, prec, emax. lia. }
  rewrite He'. change (-149 - -22 - -149) with 22.
  rewrite Z.shiftl_mul_pow2 by lia.
  rewrite (div_eucl_exact _ _ (Z.pos q))
    by (reflexivity || (change (2 ^ 22) with 4194304; lia)).
  change (new_location 8388608 0) with loc_Exact.
  apply round_aux_noshift; [| unfold emax, prec; lia].
  unfold fexp, emin, prec, emax. lia.
Qed.

Lemma div2_subnormal_odd (s : bool) (q : positive) :
  Z.pos (digits2_pos q~1) <= 24 ->
  SFdiv prec emax (S754_finite s q~1 (-149)) two =
  S754_finite s (if Z.even (Z.pos q) then q else Pos.succ q) (-149).
Proof.
  intros HD. unfold SFdiv, two, SFdiv_core_binary.
  cbn [Zdigits2]. change (Z.pos (digits2_pos 8388608)) with 24.
  rewrite xorb_false_r.
  cbn [digits2_pos] in *. rewrite Pos2Z.inj_succ in *.
  assert (He' : Z.min (fexp prec emax (Z.succ (Z.pos (digits2_pos q)) + -149 - (24 + -22)))
                      (-149 - -22) = -149).
  { unfold fexp, emin, prec, emax. lia. }
  rewrite He'. change (-149 - -22 - -149) with 22.
  rewrite Z.shiftl_mul_pow2 by lia.
  replace (Z.pos q~1 * 2 ^ 22) with ((2 * Z.pos q + 1) * 4194304) by lia.
  change (Z.pos 8388608) with (2 * 4194304).
  rewrite div_eucl_odd by lia.
  change (new_location (2 * 4194304) 4194304) with (loc_Inexact Eq).
  unfold binary_round_aux.
  assert (Hs : forall (p : positive) (l : SpecFloat.location),
             Z.pos (digits2_pos p) <= 24 ->
             shr_fexp prec emax (Z.pos p) (-149) l = (shr_record_of_loc (Z.pos p) l, -149)).
  { intros p l Hp. unfold shr_fexp, shr. cbn [Zdigits2].
    replace (fexp prec emax (Z.pos (digits2_pos p) + -149) - -149) with 0
      by (unfold fexp, emin, prec, emax; lia).
    reflexivity. }
  rewrite Hs by lia. cbn [shr_record_of_loc loc_of_shr_record shr_m round_nearest_even].
  assert (Hq' : Z.pos (digits2_pos (if Z.even (Z.pos q) then q else Pos.succ q)) <= 24).
  { destruct (Z.even (Z.pos q)); [lia |].
    apply (Zdigits2_le (Z.pos (Pos.succ q)) 24); [lia |].
    pose proof (digits2_pos_bounds q) as [_ Hb].
    assert (2 ^ Z.pos (digits2_pos q) <= 2 ^ 23) by (apply Z.pow_le_mono_r; lia).
    rewrite Z.abs_eq by lia. rewrite Pos2Z.inj_succ. lia. }
  replace (if Z.even (Z.pos q) then Z.pos q else Z.pos q + 1)
    with (Z.pos (if Z.even (Z.pos q) then q else Pos.succ q))
    by (destruct (Z.even (Z.pos q)); [reflexivity | lia]).
  rewrite Hs by exact Hq'. cbn [shr_record_of_loc shr_m]. reflexivity.
Qed.

(** ** [Coord.Add]: the zoom stays clamped *)

Lemma clampZoom_in_range (z : float32) :
  is_nan z = false -> zoom_in_range (clampZoom z) = true.
Proof.
  intros Hz. unfold clampZoom.
  destruct (of_Z MAX_ZOOM <? z)%f32 eqn:Hmax; [reflexivity |].
  destruct (z <? of_Z MIN_ZOOM)%f32 eqn:Hmin; [reflexivity |].
  unfold zoom_in_range. apply andb_true_intro. split.
  - apply ltb_false_leb; auto.
  - apply ltb_false_leb; auto.
Qed.

Ltac case_ltb :=
  match goal with
  | |- context [ltb ?a ?b] => destruct (ltb a b) eqn:?; simpl
  end.

Lemma Add_Z (c a : Coord) :
  coordZ (Add c a) =
  clampZoom (if (coordZ a <? of_Z 0)%f32 || (of_Z 0 <? coordZ a)%f32
             then (coordZ c + coordZ a)%f32 else coordZ c).
Proof.
  unfold Add, clampZoom.
  destruct (coordZ a <? of_Z 0)%f32; simpl;
    [| destruct (of_Z 0 <? coordZ a)%f32; simpl ];
    repeat case_ltb; reflexivity.
Qed.

(** One [Add] keeps a zoom that is in range in range, whatever the delta:
    any sign, any magnitude, infinite or NaN. *)
Lemma Add_zoom_in_range (c a : Coord) :
  zoom_in_range (coordZ c) = true -> zoom_in_range (coordZ (Add c a)) = true.
Proof.
  intros Hc. rewrite Add_Z. apply clampZoom_in_range.
  pose proof (zoom_in_range_finite _ Hc) as Hfin.
  destruct ((coordZ a <? of_Z 0)%f32 || (of_Z 0 <? coordZ a)%f32) eqn:Hs.
  - apply add_finite_not_nan; [exact Hfin |].
    apply orb_prop in Hs as [Hs | Hs]; apply ltb_not_nan in Hs; tauto.
  - destruct (coordZ c); try discriminate; reflexivity.
Qed.


(** *** C2: what [Add] does to the pan offset *)

(** The clamp at the end of [Add] rewrites the zoom and nothing else. *)
Lemma Add_clamp_last (x y z : float32) :
  (if (of_Z MAX_ZOOM <? z)%f32 then set_Z (mkCoord x y z) (of_Z MAX_ZOOM)
   else if (z <? of_Z MIN_ZOOM)%f32 then set_Z (mkCoord x y z) (of_Z MIN_ZOOM)
   else mkCoord x y z) = mkCoord x y (clampZoom z).
Proof.
  unfold clampZoom, set_Z. simpl.
  destruct (of_Z MAX_ZOOM <? z)%f32; [reflexivity |].
  destruct (z <? of_Z MIN_ZOOM)%f32; reflexivity.
Qed.

Lemma ltb_zero_exclusive (z : float32) :
  (of_Z 0 <? z)%f32 = true -> (z <? of_Z 0)%f32 = false.
Proof. destruct z as [[] | [] | | [] m e]; try discriminate; reflexivity. Qed.

Lemma eqb_zero_neither (z : float32) :
  (z =? of_Z 0)%f32 = true ->
  (z <? of_Z 0)%f32 = false /\ (of_Z 0 <? z)%f32 = false.
Proof. destruct z as [[] | [] | | [] m e]; try discriminate; split; reflexivity. Qed.

Lemma Add_zoom_out (c a : Coord) :
  (coordZ a <? of_Z 0)%f32 = true ->
  Add c a = mkCoord ((coordX c + coordX a) / of_Z 2)%f32
                    ((coordY c + coordY a) / of_Z 2)%f32
                    (clampZoom (coordZ c + coordZ a)%f32).
Proof. intros Hz. unfold Add. rewrite Hz. apply Add_clamp_last. Qed.

Lemma Add_zoom_in (c a : Coord) :
  (of_Z 0 <? coordZ a)%f32 = true ->
  Add c a = mkCoord ((coordX c + coordX a) * of_Z 2)%f32
                    ((coordY c + coordY a) * of_Z 2)%f32
                    (clampZoom (coordZ c + coordZ a)%f32).
Proof.
  intros Hz. unfold Add. rewrite (ltb_zero_exclusive _ Hz), Hz.
  apply Add_clamp_last.
Qed.

(** C2. [Add] first adds the pan components; then a negative zoom delta
    halves both pan offsets, a positive one doubles them, and in both cases
    the zoom delta is added to the zoom; a zero zoom delta scales nothing.
    The clamp of the zoom comes last and touches the zoom alone, so the
    halving or doubling is there whether or not the zoom ends up clamped. *)
Theorem Add_scales_then_clamps (c a : Coord) :
  ((coordZ a <? of_Z 0)%f32 = true ->
   Add c a = mkCoord ((coordX c + coordX a) / of_Z 2)%f32
                     ((coordY c + coordY a) / of_Z 2)%f32
                     (clampZoom (coordZ c + coordZ a)%f32))
  /\ ((of_Z 0 <? coordZ a)%f32 = true ->
      Add c a = mkCoord ((coordX c + coordX a) * of_Z 2)%f32
                        ((coordY c + coordY a) * of_Z 2)%f32
                        (clampZoom (coordZ c + coordZ a)%f32))
  /\ ((coordZ a =? of_Z 0)%f32 = true ->
      Add c a = mkCoord (coordX c + coordX a)%f32 (coordY c + coordY a)%f32
                        (clampZoom (coordZ c))).
Proof.
  repeat split; intros Hz; unfold Add.
  - rewrite Hz. apply Add_clamp_last.
  - rewrite (ltb_zero_exclusive _ Hz), Hz. apply Add_clamp_last.
  - destruct (eqb_zero_neither _ Hz) as [-> ->].
    destruct c as [x y z]. apply Add_clamp_last.
Qed.

(** *** C7: zooming out, then in *)

Lemma valid_finite (s : bool) (m : positive) (e : Z) :
  valid (S754_finite s m e) = true ->
  e <= 104 /\
  ((Z.pos (digits2_pos m) = 24 /\ -149 <= e) \/
   (e = -149 /\ Z.pos (digits2_pos m) < 24)).
Proof.
  unfold valid, valid_binary, bounded, canonical_mantissa. intros H.
  apply andb_prop in H as [H1 H2]. apply Z.eqb_eq in H1. apply Z.leb_le in H2.
  unfold fexp, emin, emax, prec in *. lia.
Qed.

Lemma halve_double_finite (s : bool) (m : positive) (e : Z) :
  halve_double (S754_finite s m e) =
  SFmul prec emax (SFadd prec emax (SFdiv prec emax (S754_finite s m e) two)
                                   (S754_zero false)) two.
Proof. reflexivity. Qed.

Lemma add_finite_zero (s : bool) (m : positive) (e : Z) :
  SFadd prec emax (S754_finite s m e) (S754_zero false) = S754_finite s m e.
Proof. reflexivity. Qed.

Lemma halve_double_exact (x : float32) :
  valid x = true -> halves_exactly x = true -> halve_double x = x.
Proof.
  intros Hv Hx. destruct x as [[] | [] | | s m e]; try discriminate; try reflexivity.
  rewrite halve_double_finite.
  apply valid_finite in Hv as [Hhi [[HD Hlo] | [-> HD]]].
  - simpl in Hx. destruct (Z.eq_dec e (-149)) as [-> | Hne].
    + destruct m as [q | q |]; try discriminate.
      rewrite div2_subnormal_even, add_finite_zero by lia.
      cbn [digits2_pos] in HD. rewrite Pos2Z.inj_succ in HD.
      now rewrite mul2_subnormal by lia.
    + rewrite div2_normal, add_finite_zero by lia. rewrite mul2_normal by lia.
      f_equal. lia.
  - simpl in Hx. destruct m as [q | q |]; try discriminate.
    rewrite div2_subnormal_even, add_finite_zero by lia.
    cbn [digits2_pos] in HD. rewrite Pos2Z.inj_succ in HD.
    now rewrite mul2_subnormal by lia.
Qed.

Lemma within_one_ulp_refl (x : float32) : within_one_ulp x x.
Proof.
  unfold within_one_ulp. destruct (ulps x); [| reflexivity].
  rewrite Z.sub_diag. simpl. lia.
Qed.

Lemma succ_digits_le24 (q : positive) :
  Z.pos (digits2_pos q) <= 23 -> Z.pos (digits2_pos (Pos.succ q)) <= 24.
Proof.
  intros HD. apply (Zdigits2_le (Z.pos (Pos.succ q)) 24); [lia |].
  pose proof (digits2_pos_bounds q) as [_ Hb].
  assert (2 ^ Z.pos (digits2_pos q) <= 2 ^ 23) by (apply Z.pow_le_mono_r; lia).
  rewrite Z.abs_eq by lia. rewrite Pos2Z.inj_succ. lia.
Qed.

Lemma halve_double_odd (s : bool) (q : positive) :
  Z.pos (digits2_pos q) <= 23 ->
  within_one_ulp (S754_finite s q~1 (-149)) (halve_double (S754_finite s q~1 (-149))).
Proof.
  intros HD. rewrite halve_double_finite.
  rewrite div2_subnormal_odd, add_finite_zero
    by (cbn [digits2_pos]; rewrite Pos2Z.inj_succ; lia).
  set (q' := if Z.even (Z.pos q) then q else Pos.succ q).
  assert (Hq' : Z.pos q' = Z.pos q \/ Z.pos q' = Z.pos q + 1)
    by (subst q'; destruct (Z.even (Z.pos q)); lia).
  assert (HD' : Z.pos (digits2_pos q') <= 24).
  { subst q'. destruct (Z.even (Z.pos q)); [lia | now apply succ_digits_le24]. }
  destruct (Z_lt_ge_dec (Z.pos (digits2_pos q')) 24) as [Hlt | Hge].
  - rewrite mul2_subnormal by exact Hlt.
    unfold within_one_ulp, ulps. change (-149 + 149) with 0.
    rewrite Z.pow_0_r. destruct s; unfold cond_Zopp; lia.
  - rewrite mul2_normal by lia.
    unfold within_one_ulp, ulps.
    change (-149 + 149) with 0. change (-149 + 1 + 149) with 1.
    rewrite Z.pow_0_r, Z.pow_1_r. destruct s; unfold cond_Zopp; lia.
Qed.

Lemma halve_double_close (x : float32) :
  valid x = true -> within_one_ulp x (halve_double x).
Proof.
  intros Hv. destruct (halves_exactly x) eqn:Hx.
  { rewrite halve_double_exact by assumption. apply within_one_ulp_refl. }
  destruct x as [[] | [] | | s m e]; try discriminate.
  simpl in Hx. apply orb_false_elim in Hx as [He Hm]. apply Z.ltb_ge in He.
  assert (e = -149 /\ Z.pos (digits2_pos m) <= 24) as [-> HD].
  { apply valid_finite in Hv as [Hhi [[HD Hlo] | [-> HD]]]; lia. }
  destruct m as [q | q |]; try discriminate.
  - apply halve_double_odd.
    cbn [digits2_pos] in HD. rewrite Pos2Z.inj_succ in HD. lia.
  - destruct s; vm_compute; discriminate.
Qed.

Lemma ltb_zero_neg (z : float32) :
  (z <? of_Z 0)%f32 = true -> (of_Z 0 <? - z)%f32 = true.
Proof. destruct z as [[] | [] | | [] m e]; try discriminate; reflexivity. Qed.

Lemma Add_out_in (c : Coord) (dz : float32) :
  (dz <? of_Z 0)%f32 = true ->
  let c' := Add (Add c (mkCoord (of_Z 0) (of_Z 0) dz))
                (mkCoord (of_Z 0) (of_Z 0) (- dz)%f32) in
  coordX c' = halve_double (coordX c) /\ coordY c' = halve_double (coordY c).
Proof.
  intros Hdz. cbv zeta.
  rewrite (Add_zoom_out c (mkCoord (of_Z 0) (of_Z 0) dz) Hdz).
  rewrite Add_zoom_in by apply (ltb_zero_neg dz Hdz).
  split; reflexivity.
Qed.

(** C7. A zoom-out by [dz < 0] followed by a zoom-in by [-dz], both with
    zero pan components, brings [x] and [y] back: exactly when their
    halves are floats (every value with an exponent above the smallest,
    infinities and NaN included), and otherwise to a float at most one
    step 2^-149 of the smallest floats away. The zoom plays no part, so
    this holds whether or not a step clamps it. *)
Theorem zoom_out_in_restores_pan (c : Coord) (dz : float32) :
  valid (coordX c) = true -> valid (coordY c) = true ->
  (dz <? of_Z 0)%f32 = true ->
  let c' := Add (Add c (mkCoord (of_Z 0) (of_Z 0) dz))
                (mkCoord (of_Z 0) (of_Z 0) (- dz)%f32) in
  within_one_ulp (coordX c) (coordX c') /\
  within_one_ulp (coordY c) (coordY c') /\
  (halves_exactly (coordX c) = true -> coordX c' = coordX c) /\
  (halves_exactly (coordY c) = true -> coordY c' = coordY c).
Proof.
  intros Hx Hy Hdz. cbv zeta.
  destruct (Add_out_in c dz Hdz) as [-> ->].
  repeat split.
  - now apply halve_double_close.
  - now apply halve_double_close.
  - intros H. now apply halve_double_exact.
  - intros H. now apply halve_double_exact.
Qed.

(** *** C1: the zoom after any sequence of [Move] calls *)

Lemma forY_invariant {S : Type} (P : S -> Prop) (t : TileGrid)
      (body : float32 -> S -> S) (y2 : float32) :
  (forall y s, P s -> P (body y s)) ->
  forall (fuel : nat) (y : float32) (s : S),
    P s -> P (run_state (forY fuel t body y y2 s)).
Proof.
  intros Hf. induction fuel as [| n IH]; intros y s Hs; simpl; [exact Hs |].
  destruct (y <? y2)%f32; simpl; auto.
Qed.

Lemma forX_invariant {S : Type} (P : S -> Prop) (t : TileGrid)
      (body : float32 -> float32 -> S -> S) (x2 y1 y2 : float32) :
  (forall x y s, P s -> P (body x y s)) ->
  forall (fuel : nat) (x : float32) (s : S),
    P s -> P (run_state (forX fuel t body x x2 y1 y2 s)).
Proof.
  intros Hf. induction fuel as [| n IH]; intros x s Hs; [exact Hs |].
  cbn [forX]. destruct (x <? x2)%f32; [| exact Hs].
  pose proof (forY_invariant P t (body x) y2 (Hf x) (Datatypes.S n) y1 s Hs) as Hy.
  destruct (forY (Datatypes.S n) t (body x) y1 y2 s) as [s' | s'];
    simpl in Hy; auto.
Qed.

Lemma forEachVisibleTile_invariant {S : Type} (P : S -> Prop) (t : TileGrid)
      (f : TileCoord -> S -> S) (fuel : nat) (s : S) :
  (forall k s, P s -> P (f k s)) ->
  P s -> P (run_state (forEachVisibleTile fuel t f s)).
Proof.
  intros Hf Hs. unfold forEachVisibleTile, forEachCell.
  apply forX_invariant; [| exact Hs]. intros x y s0. apply Hf.
Qed.

(** [SetLocation] leaves the grid as it set it: the goroutines it starts
    have not run yet. *)
Lemma SetLocation_grid (fuel : nat) (w : World) (loc : Coord) :
  grid (run_state (SetLocation fuel w loc)) =
  set_location (grid w) loc.
Proof.
  unfold SetLocation.
  apply (forEachVisibleTile_invariant
           (fun w' => grid w' = set_location (grid w) loc)); [| reflexivity].
  intros k s Hs. exact Hs.
Qed.

Lemma Move_location (fuel : nat) (w : World) (delta : Coord) :
  location (grid (run_state (Move fuel w delta))) =
  moved (grid w) delta.
Proof.
  unfold Move. rewrite SetLocation_grid. unfold moved.
  destruct (negb (coordZ delta =? of_Z 0)%f32); reflexivity.
Qed.

Lemma moved_zoom_in_range (t : TileGrid) (delta : Coord) :
  zoom_in_range (coordZ (location t)) = true ->
  zoom_in_range (coordZ (moved t delta)) = true.
Proof.
  intros H. unfold moved.
  destruct (negb (coordZ delta =? of_Z 0)%f32).
  - apply Add_zoom_in_range, Add_zoom_in_range, H.
  - apply Add_zoom_in_range, H.
Qed.

(** C1. Starting from a zoom in [MIN_ZOOM, MAX_ZOOM], the zoom of the grid
    location is in [MIN_ZOOM, MAX_ZOOM] after every call of every sequence
    of [Move] calls, whatever the deltas (any sign and magnitude, infinite
    or NaN components included). *)
Theorem Move_zoom_in_range (fuel : nat) (deltas : list Coord) (w : World) :
  zoom_in_range (coordZ (location (grid w))) = true ->
  Forall (fun w' => zoom_in_range (coordZ (location (grid w'))) = true)
         (Moves fuel w deltas).
Proof.
  revert w. induction deltas as [| delta deltas IH]; intros w Hw; simpl.
  - constructor.
  - pose proof (Move_location fuel w delta) as Hloc.
    pose proof (moved_zoom_in_range (grid w) delta Hw) as Hz.
    rewrite <- Hloc in Hz.
    destruct (Move fuel w delta) as [w' | w']; simpl in Hz.
    + constructor; [exact Hz | apply IH, Hz].
    + constructor; [exact Hz | constructor].
Qed.


(** *** The loops, as seen through two callbacks *)

Lemma forY_sim {S1 S2 : Type} (R : S1 -> S2 -> Prop) (t : TileGrid)
      (b1 : float32 -> S1 -> S1) (b2 : float32 -> S2 -> S2) (y2 : float32) :
  (forall y s1 s2, R s1 s2 -> R (b1 y s1) (b2 y s2)) ->
  forall (fuel : nat) (y : float32) (s1 : S1) (s2 : S2),
    R s1 s2 -> run_rel R (forY fuel t b1 y y2 s1) (forY fuel t b2 y y2 s2).
Proof.
  intros Hb. induction fuel as [| n IH]; intros y s1 s2 Hs; simpl; [exact Hs |].
  destruct (y <? y2)%f32; simpl; auto.
Qed.

Lemma forX_sim {S1 S2 : Type} (R : S1 -> S2 -> Prop) (t : TileGrid)
      (b1 : float32 -> float32 -> S1 -> S1) (b2 : float32 -> float32 -> S2 -> S2)
      (x2 y1 y2 : float32) :
  (forall x y s1 s2, R s1 s2 -> R (b1 x y s1) (b2 x y s2)) ->
  forall (fuel : nat) (x : float32) (s1 : S1) (s2 : S2),
    R s1 s2 ->
    run_rel R (forX fuel t b1 x x2 y1 y2 s1) (forX fuel t b2 x x2 y1 y2 s2).
Proof.
  intros Hb. induction fuel as [| n IH]; intros x s1 s2 Hs; [exact Hs |].
  cbn [forX]. destruct (x <? x2)%f32; [| exact Hs].
  pose proof (forY_sim R t (b1 x) (b2 x) y2 (Hb x) (Datatypes.S n) y1 s1 s2 Hs) as Hy.
  destruct (forY (Datatypes.S n) t (b1 x) y1 y2 s1) as [s1' | s1'],
           (forY (Datatypes.S n) t (b2 x) y1 y2 s2) as [s2' | s2'];
    simpl in Hy; try contradiction; auto.
Qed.

Lemma run_rel_state {A B : Type} (R : A -> B -> Prop) (r1 : run A) (r2 : run B) :
  run_rel R r1 r2 -> R (run_state r1) (run_state r2) /\ returned r1 = returned r2.
Proof. destruct r1, r2; simpl; intros H; try contradiction; auto. Qed.

(** The tiles handed to the callback are the tiles of the cells visited. *)
Lemma visibleTiles_cells (fuel : nat) (t : TileGrid) :
  run_rel (fun tiles cells => tiles = map (fun c => tileCoordAt t c.1 c.2) cells)
          (visibleTiles fuel t) (visibleCells fuel t).
Proof.
  unfold visibleTiles, visibleCells, forEachVisibleTile, forEachCell.
  apply forX_sim; [| reflexivity].
  intros x y tiles cells ->. now rewrite map_app.
Qed.

Lemma forY_more_fuel {S : Type} (t : TileGrid) (body : float32 -> S -> S)
      (y2 : float32) (s' : S) :
  forall (n : nat) (y : float32) (s : S),
    forY n t body y y2 s = Returned s' ->
    forall m : nat, forY (n + m) t body y y2 s = Returned s'.
Proof.
  induction n as [| n IH]; intros y s H m; simpl in *; [discriminate |].
  destruct (y <? y2)%f32; auto.
Qed.

Lemma forX_more_fuel {S : Type} (t : TileGrid)
      (body : float32 -> float32 -> S -> S) (x2 y1 y2 : float32) (s' : S) :
  forall (n : nat) (x : float32) (s : S),
    forX n t body x x2 y1 y2 s = Returned s' ->
    forall m : nat, forX (n + m) t body x x2 y1 y2 s = Returned s'.
Proof.
  induction n as [| n IH]; intros x s H m; [discriminate |].
  change (Datatypes.S n + m)%nat with (Datatypes.S (n + m)).
  cbn [forX] in *. destruct (x <? x2)%f32; [| exact H].
  destruct (forY (Datatypes.S n) t (body x) y1 y2 s) as [s1 | s1] eqn:Hy;
    [| discriminate].
  change (Datatypes.S (n + m)) with (Datatypes.S n + m)%nat.
  rewrite (forY_more_fuel t (body x) y2 s1 _ _ _ Hy m). now apply IH.
Qed.

(** A call that has returned returns the same with more iterations allowed. *)
Lemma forEachVisibleTile_more_fuel {S : Type} (t : TileGrid)
      (f : TileCoord -> S -> S) (n m : nat) (s s' : S) :
  forEachVisibleTile n t f s = Returned s' ->
  forEachVisibleTile (n + m) t f s = Returned s'.
Proof. unfold forEachVisibleTile, forEachCell. intros H. now apply forX_more_fuel. Qed.

(** *** C4: no negative or wrapped tile index *)

Lemma uint32_of_float32_range (x : float32) :
  0 <= uint32_of_float32 x < uint32_max.
Proof.
  unfold uint32_of_float32, wrap32.
  assert (Hm : forall z, 0 <= z mod uint32_max < uint32_max)
    by (intros z; apply Z.mod_pos_bound; reflexivity).
  destruct (trunc x) as [n |]; [| apply Hm].
  destruct ((0 <=? n) && (n <? uint32_max)) eqn:E; [| apply Hm].
  apply andb_prop in E as [E1 E2]. lia.
Qed.

Lemma div_eucl_nonneg (a b : Z) : 0 <= a -> 0 < b -> 0 <= fst (Z.div_eucl a b).
Proof.
  intros Ha Hb. pose proof (Z.div_pos a b Ha Hb) as H.
  unfold Z.div in H. destruct (Z.div_eucl a b). exact H.
Qed.

Lemma div_signed (sx sy : bool) (mx my : positive) (ex ey : Z) :
  signed (xorb sx sy) (S754_finite sx mx ex / S754_finite sy my ey)%f32.
Proof.
  unfold div, SFdiv, SFdiv_core_binary.
  set (m' := match _ - _ - _ with Z0 => Z.pos mx | Z.pos _ => _ | Z.neg _ => 0 end).
  assert (Hm' : 0 <= m').
  { subst m'. destruct (_ - _ - _); try lia. apply Z.shiftl_nonneg. lia. }
  pose proof (div_eucl_nonneg m' (Z.pos my) Hm' ltac:(lia)) as Hq.
  destruct (Z.div_eucl m' (Z.pos my)) as [q r]. simpl in Hq.
  now apply binary_round_aux_signed.
Qed.

(** A cell at a negative world coordinate has index 0: its quotient by the
    tile size is negative (and clamped to 0) or is the negative zero. *)
Lemma cellIndex_negative (v size : float32) :
  positive_finite size = true -> (v <? of_Z 0)%f32 = true ->
  uint32_of_float32 (cellIndex v size) = 0.
Proof.
  intros Hs Hv. unfold cellIndex.
  destruct size as [| | | [] my ey]; try discriminate.
  destruct v as [[] | [] | | [] mx ex]; try discriminate.
  - reflexivity.
  - pose proof (div_signed true false mx my ex ey) as H.
    destruct (S754_finite true mx ex / S754_finite false my ey)%f32
      as [s | s | | s m e]; simpl in H; try contradiction; subst; reflexivity.
Qed.

Lemma cellIndex_not_negative (v size : float32) :
  (cellIndex v size <? of_Z 0)%f32 = false.
Proof.
  unfold cellIndex. destruct (v / size <? of_Z 0)%f32 eqn:E; [reflexivity | exact E].
Qed.

Lemma tileCoordAt_index (t : TileGrid) (x y : float32) :
  tileX (tileCoordAt t x y) = uint32_of_float32 (cellIndex x (tileWidth t)) /\
  tileY (tileCoordAt t x y) = uint32_of_float32 (cellIndex y (tileHeight t)).
Proof. split; reflexivity. Qed.

(** C4. For every location (negative pan offsets included) and every
    positive tile size, the tiles yielded are those of the cells visited,
    and for each cell the two indices are [uint32] values obtained from a
    float that is not negative (nothing negative is converted, so nothing
    wraps around), and a cell whose world coordinate is negative has
    index 0. This holds for each prefix of the scan, finished or not. *)
Theorem visible_tiles_never_negative (fuel : nat) (t : TileGrid) :
  positive_finite (tileWidth t) = true ->
  positive_finite (tileHeight t) = true ->
  run_state (visibleTiles fuel t) =
    map (fun c => tileCoordAt t c.1 c.2) (run_state (visibleCells fuel t)) /\
  Forall (fun c => cell_ok t c.1 c.2) (run_state (visibleCells fuel t)).
Proof.
  intros Hw Hh. split.
  - apply (run_rel_state _ _ _ (visibleTiles_cells fuel t)).
  - unfold visibleCells.
    assert (Hall : forall x y, cell_ok t x y).
    { intros x y. unfold cell_ok. cbv zeta.
      repeat split; try apply uint32_of_float32_range;
        try apply cellIndex_not_negative.
      - intros Hx. now apply cellIndex_negative.
      - intros Hy. now apply cellIndex_negative. }
    unfold forEachCell. apply forX_invariant; [| constructor].
    intros x y cells Hc. apply Forall_app. split; [exact Hc |].
    constructor; [apply Hall | constructor].
Qed.


(** *** C6: the grid at the origin, zoom 6 *)

Lemma SetLocation_more_fuel (n m : nat) (w w' : World) (loc : Coord) :
  SetLocation n w loc = Returned w' -> SetLocation (n + m) w loc = Returned w'.
Proof. unfold SetLocation. apply forEachVisibleTile_more_fuel. Qed.

(** C6. The grid created at location (0, 0, 6) with 256x256 tiles and a
    512x512 viewport: the construction returns, and the visible-tile scan
    returns the keys of {0,1,2} x {0,1,2} at zoom 6 and no other key
    (a bound of eight iterations is enough, and a larger one changes nothing). *)
Theorem origin_zoom6_visible_tiles (n : nat) :
  exists w : World,
    NewTileGrid (8 + n) (mkCoord (of_Z 0) (of_Z 0) (of_Z 6)) 256 256 512 512
      = Ok (Returned w) /\
    exists tiles : list TileCoord,
      visibleTiles (8 + n) (grid w) = Returned tiles /\
      forall k : TileCoord,
        k ∈ tiles <->
        (tileX k = 0 \/ tileX k = 1 \/ tileX k = 2) /\
        (tileY k = 0 \/ tileY k = 1 \/ tileY k = 2) /\
        tileZ k = 6.
Proof.
  eexists. split.
  - unfold NewTileGrid. simpl orb. cbv iota. apply f_equal.
    apply SetLocation_more_fuel. vm_compute. reflexivity.
  - eexists. split.
    + unfold visibleTiles. apply forEachVisibleTile_more_fuel.
      vm_compute. reflexivity.
    + intros [x y z]. simpl. rewrite !elem_of_cons, elem_of_nil. split.
      * intros H. repeat (destruct H as [H | H]; [inversion H; lia |]).
        contradiction.
      * intros ([-> | [-> | ->]] & [-> | [-> | ->]] & ->); tauto.
Qed.


(** *** The construction and its errors *)

(** The construction reports an error exactly when one of the four sizes
    is zero (the sizes are [uint32]: none is negative). *)
Lemma NewTileGrid_error_iff (fuel : nat) (current : Coord) (tw th sw sh : Z) :
  (exists msg, NewTileGrid fuel current tw th sw sh = Err msg) <->
  (tw = 0 \/ th = 0 \/ sw = 0 \/ sh = 0).
Proof.
  unfold NewTileGrid. split.
  - intros [msg H].
    destruct (sw =? 0) eqn:E1; [lia |]. destruct (sh =? 0) eqn:E2; [lia |].
    destruct (tw =? 0) eqn:E3; [lia |]. destruct (th =? 0) eqn:E4; [lia |].
    discriminate.
  - intros H.
    destruct (sw =? 0) eqn:E1; [simpl; eauto |].
    destruct (sh =? 0) eqn:E2; [simpl; eauto |].
    destruct (tw =? 0) eqn:E3; [simpl; eauto |].
    destruct (th =? 0) eqn:E4; [simpl; eauto |]. lia.
Qed.

(** With four sizes above zero the construction builds the grid of the
    source and runs [SetLocation] on it. *)
Lemma NewTileGrid_ok (fuel : nat) (current : Coord) (tw th sw sh : Z) :
  0 < tw -> 0 < th -> 0 < sw -> 0 < sh ->
  exists r : run World,
    NewTileGrid fuel current tw th sw sh = Ok r /\
    grid (run_state r) =
      mkTileGrid current (of_Z tw) (of_Z th)
        (of_Z tw / of_Z 2)%f32 (of_Z th / of_Z 2)%f32 (of_Z sw) (of_Z sh)
        ∅ ∅ (sw / tw) (sh / th) [] [] [].
Proof.
  intros Htw Hth Hsw Hsh. unfold NewTileGrid.
  destruct (sw =? 0) eqn:E1; [lia |]. destruct (sh =? 0) eqn:E2; [lia |].
  destruct (tw =? 0) eqn:E3; [lia |]. destruct (th =? 0) eqn:E4; [lia |].
  simpl. eexists. split; [reflexivity |]. now rewrite SetLocation_grid.
Qed.

(** A loop whose variable does not move and whose test holds is still
    running at every bound. *)
Lemma forX_stalls {S : Type} (t : TileGrid) (body : float32 -> float32 -> S -> S)
      (x x2 y1 y2 : float32) :
  (x <? x2)%f32 = true -> (x + tileWidth t)%f32 = x ->
  forall (fuel : nat) (s : S), returned (forX fuel t body x x2 y1 y2 s) = false.
Proof.
  intros Hlt Hfix. induction fuel as [| n IH]; intros s; [reflexivity |].
  cbn [forX]. rewrite Hlt.
  destruct (forY (Datatypes.S n) t (body x) y1 y2 s) as [s' | s'];
    [| reflexivity].
  rewrite Hfix. apply IH.
Qed.

(** Far from the origin the scan of [SetLocation] can stall: with location
    (2^33, 0, 6), 256x256 tiles and a 1024x768 viewport the sizes pass the
    checks and the construction reports no error, and [x += 256] leaves
    [x] at 2^33, below [x2], at every iteration. *)
Lemma NewTileGrid_never_returns (fuel : nat) :
  exists r : run World,
    NewTileGrid fuel (mkCoord (of_Z (2 ^ 33)) (of_Z 0) (of_Z 6)) 256 256 1024 768
      = Ok r /\ returned r = false.
Proof.
  eexists. split; [reflexivity |].
  unfold SetLocation, forEachVisibleTile, forEachCell.
  apply forX_stalls; vm_compute; reflexivity.
Qed.

(** *** [Move] on a zoom step *)

Lemma range_delete_empty (l : gset TileCoord) : range_delete l = ∅.
Proof.
  unfold range_delete. apply set_eq. intros k.
  split; [| intros H; now apply not_elem_of_empty in H].
  intros Hk. exfalso.
  assert (Hgen : forall (ks : list TileCoord) (s : gset TileCoord),
             k ∈ foldr (fun k s => s ∖ {[k]}) s ks -> k ∈ s /\ k ∉ ks).
  { induction ks as [| a ks IH]; intros s0 H; simpl in H.
    - split; [exact H | apply not_elem_of_nil].
    - apply elem_of_difference in H as [H Hne]. apply IH in H as [H1 H2].
      split; [exact H1 |]. rewrite elem_of_cons. intros [-> | Hin].
      + apply Hne. now apply elem_of_singleton.
      + now apply H2. }
  apply Hgen in Hk as [H1 H2]. apply H2. now apply elem_of_elements.
Qed.

Lemma SetLocation_set_location (fuel : nat) (w : World) (loc loc' : Coord) :
  SetLocation fuel (set_grid w (set_location (grid w) loc)) loc' =
  SetLocation fuel w loc'.
Proof. reflexivity. Qed.

(** What [CancelLoadingTiles] leaves: both channels drained, every cancel
    function that was waiting called, the tiles that were waiting to be
    sent gone from the cache, and the loading set empty. *)
Lemma CancelLoadingTiles_effect (w : World) :
  let w' := CancelLoadingTiles w in
  loading (grid w') = ∅ /\
  TilesToLoad (grid w') = [] /\
  TilesInFlight (grid w') = [] /\
  cancelled w' = cancelled w ++ TilesInFlight (grid w) /\
  cache (grid w') = foldl (fun c l => delete l c) (cache (grid w)) (TilesToLoad (grid w)) /\
  location (grid w') = location (grid w) /\
  goroutines w' = goroutines w.
Proof.
  cbv zeta. unfold CancelLoadingTiles. simpl.
  rewrite range_delete_empty. repeat split; reflexivity.
Qed.

End Grid.

(** ** Grids on whole pixels: the scan as an integer loop *)

Lemma shr_1_m (mrs : shr_record) :
  0 <= shr_m mrs -> shr_m (shr_1 mrs) = shr_m mrs / 2.
Proof.
  destruct mrs as [m r s]. cbn [shr_m shr_1].
  destruct m as [| [p | p |] | p]; intros H; cbn [shr_m]; try lia;
    try reflexivity.
  - apply (Z.div_unique _ _ _ 1); lia.
  - apply (Z.div_unique _ _ _ 0); lia.
Qed.

Lemma iter_shr_1_m (n : nat) (mrs : shr_record) :
  0 <= shr_m mrs ->
  0 <= shr_m (Nat.iter n shr_1 mrs) /\
  shr_m (Nat.iter n shr_1 mrs) * 2 ^ Z.of_nat n <= shr_m mrs.
Proof.
  intros H. induction n as [| n [IH1 IH2]].
  - simpl. lia.
  - rewrite Nat.iter_succ, shr_1_m by exact IH1.
    rewrite Nat2Z.inj_succ, Z.pow_succ_r by lia.
    pose proof (Z.mul_div_le (shr_m (Nat.iter n shr_1 mrs)) 2 ltac:(lia)).
    assert (0 <= shr_m (Nat.iter n shr_1 mrs) / 2) by (apply Z.div_pos; lia).
    assert (0 < 2 ^ Z.of_nat n) by (apply Z.pow_pos_nonneg; lia).
    split; [assumption | nia].
Qed.

(** The second shift of [binary_round_aux] only lowers the value. *)
Lemma shr_fexp_below (m e : Z) :
  0 <= m ->
  let '(mrs, e') := shr_fexp prec emax m e loc_Exact in
  0 <= shr_m mrs /\ e <= e' /\ shr_m mrs * 2 ^ (e' - e) <= m.
Proof.
  intros Hm. unfold shr_fexp, shr.
  destruct (fexp prec emax (Zdigits2 m + e) - e) as [| k | k] eqn:E;
    cbn [shr_record_of_loc shr_m]; rewrite ?Z.sub_diag, ?Z.pow_0_r; try lia.
  rewrite iter_pos_nat.
  destruct (iter_shr_1_m (Pos.to_nat k) (Build_shr_record m false false) Hm) as [H1 H2].
  rewrite positive_nat_Z in H2. cbn [shr_m] in H2.
  replace (e + Z.pos k - e) with (Z.pos k) by lia. lia.
Qed.

(** A rounded magnitude below 2^-e at exponent e truncates to 0. *)
Lemma round_second_stage (m2 e1 : Z) :
  0 <= m2 -> e1 < 0 -> m2 < 2 ^ (- e1) ->
  let '(mrs, e2) := shr_fexp prec emax m2 e1 loc_Exact in
  trunc (match shr_m mrs with
         | 0 => S754_zero false
         | Z.pos m => if e2 <=? emax - prec then S754_finite false m e2
                      else S754_infinity false
         | Z.neg _ => S754_nan
         end) = Some 0.
Proof.
  intros Hm He Hlt.
  pose proof (shr_fexp_below m2 e1 Hm) as H.
  destruct (shr_fexp prec emax m2 e1 loc_Exact) as [mrs e2].
  destruct H as (H1 & H2 & H3).
  destruct (shr_m mrs) as [| m | m] eqn:Em; [reflexivity | | lia].
  assert (H2k : 0 < 2 ^ (e2 - e1)) by (apply Z.pow_pos_nonneg; lia).
  assert (He2 : e2 < 0).
  { destruct (Z_lt_ge_dec e2 0) as [| Hge]; [assumption | exfalso].
    assert (2 ^ (- e1) <= 2 ^ (e2 - e1)) by (apply Z.pow_le_mono_r; lia). nia. }
  assert (Hle : (e2 <=? emax - prec) = true) by (apply Z.leb_le; unfold emax, prec; lia).
  rewrite Hle. unfold trunc.
  destruct e2 as [| p | p]; try lia.
  f_equal. rewrite Z.shiftr_div_pow2 by lia.
  apply Z.div_small. split; [lia |].
  assert (Hs : 2 ^ (- e1) = 2 ^ Z.pos p * 2 ^ (Z.neg p - e1)).
  { rewrite <- Z.pow_add_r by lia. f_equal. lia. }
  rewrite Hs in Hlt. 
  assert (0 < 2 ^ Z.pos p) by (apply Z.pow_pos_nonneg; lia). nia.
Qed.

Lemma round_nearest_even_le (m : Z) (l : SpecFloat.location) :
  m <= round_nearest_even m l <= m + 1.
Proof. destruct l as [| []]; simpl; try lia. destruct (Z.even m); lia. Qed.

Lemma loc_of_shr_record_of_loc (m : Z) (l : SpecFloat.location) :
  loc_of_shr_record (shr_record_of_loc m l) = l.
Proof. destruct l as [| []]; reflexivity. Qed.

(** One shift, then rounding: at most half of the value plus a half. *)
Lemma shr_1_round (q : Z) (l : SpecFloat.location) :
  0 <= q ->
  let mrs := shr_1 (shr_record_of_loc q l) in
  0 <= round_nearest_even (shr_m mrs) (loc_of_shr_record mrs) /\
  2 * round_nearest_even (shr_m mrs) (loc_of_shr_record mrs) <= q + 1.
Proof.
  intros Hq. destruct q as [| [p | p |] | p]; try lia;
    destruct l as [| []]; cbn; try lia;
    destruct p; lia.
Qed.

(** The first shift and the rounding of a quotient [q] of at most 25
    bits at exponent [-(24 + d)], with [q + 1 < 2^(24 + d)]: the rounded
    magnitude is below 1 at its exponent. *)
Lemma round_first_stage (q d : Z) (l : SpecFloat.location) :
  0 <= q -> 0 <= d <= 24 -> q + 1 < 2 ^ (24 + d) -> q < 2 ^ 25 ->
  let '(mrs, e1) := shr_fexp prec emax q (- (24 + d)) l in
  let m2 := round_nearest_even (shr_m mrs) (loc_of_shr_record mrs) in
  0 <= m2 /\ e1 < 0 /\ m2 < 2 ^ (- e1).
Proof.
  intros Hq0 Hd Hq1 Hq2.
  pose proof (Zdigits2_le q 25 ltac:(lia) ltac:(rewrite Z.abs_eq; lia)) as Dq.
  assert (Dq0 : 0 <= Zdigits2 q) by (destruct q; simpl; lia).
  assert (Hn1 : fexp prec emax (Zdigits2 q + - (24 + d)) - - (24 + d) = Zdigits2 q - 24).
  { unfold fexp, emin, prec, emax. lia. }
  unfold shr_fexp, shr. rewrite Hn1.
  assert (Hnoshift :
    let m2 := round_nearest_even (shr_m (shr_record_of_loc q l))
                (loc_of_shr_record (shr_record_of_loc q l)) in
    0 <= m2 /\ - (24 + d) < 0 /\ m2 < 2 ^ (- - (24 + d))).
  { cbv zeta. rewrite loc_of_shr_record_of_loc, shr_record_of_loc_m.
    pose proof (round_nearest_even_le q l) as Hrne.
    replace (- - (24 + d)) with (24 + d) by lia. lia. }
  destruct (Zdigits2 q - 24) as [| k | k] eqn:Ek; [exact Hnoshift | | exact Hnoshift].
  assert (k = 1%positive) as -> by lia.
  cbn [SpecFloat.iter_pos].
  pose proof (shr_1_round q l Hq0) as [Hr0 Hr1]. cbv zeta in Hr0, Hr1.
  assert (Hq24 : 2 ^ 24 <= q).
  { pose proof (Zdigits2_bounds q) as Hb.
    assert (q <> 0) by (intros ->; simpl in Ek; lia).
    specialize (Hb ltac:(assumption)). rewrite Z.abs_eq in Hb by lia.
    replace (Zdigits2 q - 1) with 24 in Hb by lia. lia. }
  assert (Hd1 : 1 <= d).
  { destruct (Z.eq_dec d 0) as [E0 | ]; [| lia].
    rewrite E0 in Hq1. change (2 ^ (24 + 0)) with (2 ^ 24) in Hq1. lia. }
  cbv zeta.
  replace (- (- (24 + d) + 1)) with (23 + d) by lia.
  assert (2 ^ (24 + d) = 2 * 2 ^ (23 + d)).
  { replace (24 + d) with (Z.succ (23 + d)) by lia. rewrite Z.pow_succ_r by lia. lia. }
  lia.
Qed.

(** The quotient of two floats with full mantissas, the first below the
    second, is below 1: its integer part is 0. *)
Lemma div_below_one (ma mb : positive) (ea eb : Z) :
  Z.pos (digits2_pos ma) = 24 -> Z.pos (digits2_pos mb) = 24 ->
  0 <= eb - ea <= 24 -> Z.pos ma < Z.pos mb * 2 ^ (eb - ea) ->
  trunc (S754_finite false ma ea / S754_finite false mb eb)%f32 = Some 0.
Proof.
  intros Da Db Hd Hlt.
  pose proof (digits2_pos_bounds ma) as [Alo Ahi]. rewrite Da in Alo, Ahi.
  pose proof (digits2_pos_bounds mb) as [Blo Bhi]. rewrite Db in Blo, Bhi.
  change (2 ^ (24 - 1)) with 8388608 in *. change (2 ^ 24) with 16777216 in *.
  set (d := eb - ea) in *.
  assert (H2d : 0 < 2 ^ d) by (apply Z.pow_pos_nonneg; lia).
  unfold div, SFdiv, SFdiv_core_binary. cbn [Zdigits2 xorb]. rewrite Da, Db.
  assert (He' : Z.min (fexp prec emax (24 + ea - (24 + eb))) (ea - eb) = - (24 + d)).
  { unfold fexp, emin, prec, emax. subst d. lia. }
  rewrite He'. replace (ea - eb - - (24 + d)) with 24 by (subst d; lia).
  rewrite Z.shiftl_mul_pow2 by lia. change (2 ^ 24) with 16777216.
  pose proof (Z_div_mod (Z.pos ma * 16777216) (Z.pos mb) ltac:(lia)) as Hdm.
  destruct (Z.div_eucl (Z.pos ma * 16777216) (Z.pos mb)) as [q r].
  destruct Hdm as [Hq Hr].
  assert (Hq0 : 0 <= q) by nia.
  assert (HT : 2 ^ (24 + d) = 16777216 * 2 ^ d)
    by (rewrite Z.pow_add_r by lia; reflexivity).
  assert (Hq1 : q + 1 < 2 ^ (24 + d)) by (rewrite HT; nia).
  assert (Hq2 : q < 2 ^ 25) by (change (2 ^ 25) with 33554432; nia).
  unfold binary_round_aux.
  pose proof (round_first_stage q d (new_location (Z.pos mb) r) Hq0 Hd Hq1 Hq2) as H1.
  destruct (shr_fexp prec emax q (- (24 + d)) (new_location (Z.pos mb) r)) as [mrs e1].
  cbv zeta in H1. destruct H1 as (H10 & H11 & H12).
  pose proof (round_second_stage _ e1 H10 H11 H12) as H2.
  destruct (shr_fexp prec emax
              (round_nearest_even (shr_m mrs) (loc_of_shr_record mrs)) e1 loc_Exact)
    as [mrs2 e2].
  exact H2.
Qed.

Lemma Zdigits2_mono (a b : Z) : 0 < a -> a <= b -> Zdigits2 a <= Zdigits2 b.
Proof.
  intros Ha Hab.
  pose proof (Zdigits2_bounds a ltac:(lia)) as [Alo _].
  pose proof (Zdigits2_bounds b ltac:(lia)) as [_ Bhi].
  rewrite Z.abs_eq in * by lia.
  destruct (Z_le_gt_dec (Zdigits2 a) (Zdigits2 b)) as [| Hgt]; [assumption | exfalso].
  assert (2 ^ Zdigits2 b <= 2 ^ (Zdigits2 a - 1)) by (apply Z.pow_le_mono_r; lia).
  lia.
Qed.

Lemma half_mantissa_digits (n : Z) :
  n <> 0 -> Z.abs n < 2 ^ 24 ->
  Z.pos (digits2_pos (Z.to_pos (Z.abs n * 2 ^ (24 - Zdigits2 n)))) = 24.
Proof.
  intros Hn Hb. pose proof (Zdigits2_le24 n Hb) as HD.
  pose proof (half_mantissa n Hn Hb) as Hm.
  destruct n as [| p | p]; [contradiction | |]; simpl in HD;
    rewrite (digits2_pos_shift _ p (24 - Z.pos (digits2_pos p))); try lia;
    exact Hm.
Qed.

(** A half-integer in [0, b) divided by the half-integer b: index 0. *)
Lemma half_div_index (unrep : float32 -> Z) (a b : Z) :
  0 <= a < b -> b < 2 ^ 24 ->
  uint32_of_float32 unrep (cellIndex (half a) (half b)) = 0.
Proof.
  intros Ha Hb. unfold cellIndex.
  rewrite (half_canonical b) by lia.
  replace (b <? 0) with false by (symmetry; apply Z.ltb_ge; lia).
  destruct (Z.eq_dec a 0) as [-> | Na]; [reflexivity |].
  rewrite (half_canonical a) by lia.
  replace (a <? 0) with false by (symmetry; apply Z.ltb_ge; lia).
  pose proof (Zdigits2_mono a b ltac:(lia) ltac:(lia)) as Hmono.
  pose proof (Zdigits2_le24 a ltac:(lia)) as HDa.
  pose proof (Zdigits2_le24 b ltac:(lia)) as HDb.
  pose proof (Zdigits2_pos a Na) as HDa0.
  set (ma := Z.to_pos (Z.abs a * 2 ^ (24 - Zdigits2 a))).
  set (mb := Z.to_pos (Z.abs b * 2 ^ (24 - Zdigits2 b))).
  assert (Htr : trunc (S754_finite false ma (Zdigits2 a - 25) /
                       S754_finite false mb (Zdigits2 b - 25))%f32 = Some 0).
  { apply div_below_one.
    - apply half_mantissa_digits; lia.
    - apply half_mantissa_digits; lia.
    - lia.
    - subst ma mb. rewrite !half_mantissa by lia. rewrite !Z.abs_eq by lia.
      rewrite <- Z.mul_assoc, <- Z.pow_add_r by lia.
      replace (24 - Zdigits2 b + (Zdigits2 b - 25 - (Zdigits2 a - 25)))
        with (24 - Zdigits2 a) by lia.
      assert (0 < 2 ^ (24 - Zdigits2 a)) by (apply Z.pow_pos_nonneg; lia). nia. }
  pose proof (div_signed false false ma mb (Zdigits2 a - 25) (Zdigits2 b - 25)) as Hs.
  destruct (S754_finite false ma (Zdigits2 a - 25) /
            S754_finite false mb (Zdigits2 b - 25))%f32 as [s | s | | s m e];
    simpl in Hs; try contradiction; subst s; try discriminate.
  - reflexivity.
  - change ((S754_finite false m e <? of_Z 0)%f32) with false. cbv iota.
    unfold uint32_of_float32. rewrite Htr. reflexivity.
Qed.

Lemma Zdigits2_double (n : Z) : n <> 0 -> Zdigits2 (2 * n) = Zdigits2 n + 1.
Proof.
  destruct n as [| p | p]; intros H; [contradiction | |];
    cbn [Z.mul Pos.mul Zdigits2 digits2_pos]; apply Pos2Z.inj_succ.
Qed.

(** [float32(n) / 2.0] is the half-integer n. *)
Lemma of_Z_div2 (n : Z) :
  0 < n < 2 ^ 23 -> (of_Z n / of_Z 2)%f32 = half n.
Proof.
  intros Hn. unfold of_Z at 1. rewrite of_Z_half by lia.
  change (of_Z 2) with two. unfold div.
  rewrite (half_canonical (2 * n)), (half_canonical n) by lia.
  replace (2 * n <? 0) with (n <? 0) by (destruct n; reflexivity).
  pose proof (Zdigits2_le24 (2 * n) ltac:(lia)) as HD.
  rewrite div2_normal.
  - rewrite Zdigits2_double in * by lia. f_equal; [| lia].
    f_equal. rewrite Z.abs_mul.
    replace (24 - Zdigits2 n) with (Z.succ (24 - (Zdigits2 n + 1))) by lia.
    rewrite Z.pow_succ_r by lia. change (Z.abs 2) with 2. lia.
  - apply half_mantissa_digits; lia.
  - pose proof (Zdigits2_pos (2 * n) ltac:(lia)). lia.
  - lia.
Qed.

Lemma zscan_more (step hi : Z) :
  0 < step ->
  forall (n : nat) (c : Z) (k : nat),
    hi - c <= Z.of_nat n * step ->
    zscan (Datatypes.S n + k) c hi step = zscan (Datatypes.S n) c hi step.
Proof.
  intros Hstep. induction n as [| n IH]; intros c k H.
  - cbn [Nat.add zscan]. replace (c <? hi) with false by (symmetry; apply Z.ltb_ge; lia).
    reflexivity.
  - change (Datatypes.S (Datatypes.S n) + k)%nat with (Datatypes.S (Datatypes.S n + k)).
    cbn [zscan]. destruct (c <? hi) eqn:E; [| reflexivity].
    f_equal. apply IH. lia.
Qed.

Lemma forY_S {S : Type} (n : nat) (t : TileGrid) (body : float32 -> S -> S)
      (y y2 : float32) (s : S) :
  forY (Datatypes.S n) t body y y2 s =
  if (y <? y2)%f32 then forY n t body (y + tileHeight t)%f32 y2 (body y s)
  else Returned s.
Proof. reflexivity. Qed.

Lemma forX_S {S : Type} (n : nat) (t : TileGrid)
      (body : float32 -> float32 -> S -> S) (x x2 y1 y2 : float32) (s : S) :
  forX (Datatypes.S n) t body x x2 y1 y2 s =
  if (x <? x2)%f32
  then match forY (Datatypes.S n) t (body x) y1 y2 s with
       | Returned s' => forX n t body (x + tileWidth t)%f32 x2 y1 y2 s'
       | Running s' => Running s'
       end
  else Returned s.
Proof. reflexivity. Qed.

Lemma zscan_S (n : nat) (c hi step : Z) :
  zscan (Datatypes.S n) c hi step =
  if c <? hi then c :: zscan n (c + step) hi step else [].
Proof. reflexivity. Qed.

(** A loop over half-integers runs as the loop over the integers. *)
Lemma forY_half {S : Type} (t : TileGrid) (body : float32 -> S -> S) (hi step : Z) :
  tileHeight t = half step -> 0 < step < 2 ^ 24 ->
  - 2 ^ 24 < hi -> hi + step < 2 ^ 24 ->
  forall (n : nat) (c : Z) (s : S),
    Z.abs c < 2 ^ 24 -> hi - c <= Z.of_nat n * step ->
    forY (Datatypes.S n) t body (half c) (half hi) s =
    Returned (foldl (fun s y => body (half y) s) s (zscan (Datatypes.S n) c hi step)).
Proof.
  intros Ht Hstep Hlo Hhi. induction n as [| n IH]; intros c s Hc H;
    rewrite forY_S, zscan_S; unfold ltb; rewrite half_ltb by lia;
    destruct (c <? hi) eqn:E; try reflexivity.
  - apply Z.ltb_lt in E. lia.
  - apply Z.ltb_lt in E.
    rewrite Ht. unfold add. rewrite half_add by lia.
    cbn [foldl]. apply IH; lia.
Qed.

Lemma forX_half {S : Type} (t : TileGrid) (body : float32 -> float32 -> S -> S)
      (hi stepx y1 y2 stepy : Z) (m : nat) :
  tileWidth t = half stepx -> tileHeight t = half stepy ->
  0 < stepx < 2 ^ 24 -> 0 < stepy < 2 ^ 24 ->
  - 2 ^ 24 < hi -> hi + stepx < 2 ^ 24 ->
  - 2 ^ 24 < y2 -> y2 + stepy < 2 ^ 24 -> Z.abs y1 < 2 ^ 24 ->
  y2 - y1 <= Z.of_nat m * stepy ->
  forall (n : nat) (c : Z) (s : S),
    Z.abs c < 2 ^ 24 -> hi - c <= Z.of_nat n * stepx ->
    forX (Datatypes.S (m + n)) t body (half c) (half hi) (half y1) (half y2) s =
    Returned
      (foldl (fun s x =>
                foldl (fun s y => body (half x) (half y) s) s
                      (zscan (Datatypes.S m) y1 y2 stepy))
             s (zscan (Datatypes.S n) c hi stepx)).
Proof.
  intros Htw Hth Hsx Hsy Hlo Hhi Hylo Hyhi Hy1 Hm.
  induction n as [| n IH]; intros c s Hc H;
    rewrite forX_S, (zscan_S _ c hi stepx); unfold ltb; rewrite half_ltb by lia;
    destruct (c <? hi) eqn:E; try reflexivity.
  - apply Z.ltb_lt in E. lia.
  - apply Z.ltb_lt in E.
    rewrite (forY_half t (body (half c)) y2 stepy Hth Hsy Hylo Hyhi (m + Datatypes.S n) y1 s)
      by lia.
    replace (Datatypes.S (m + Datatypes.S n)) with (Datatypes.S m + Datatypes.S n)%nat by lia.
    rewrite zscan_more by lia.
    rewrite Htw. unfold add. rewrite half_add by lia.
    replace (m + Datatypes.S n)%nat with (Datatypes.S (m + n)) by lia.
    cbn [foldl]. apply IH; lia.
Qed.

Lemma of_Z_half' (n : Z) : Z.abs n < 2 ^ 23 -> of_Z n = half (2 * n).
Proof. apply of_Z_half. Qed.

Lemma foldl_collect {A B : Type} (f : B -> A) (ys : list B) (acc : list A) :
  foldl (fun acc y => acc ++ [f y]) acc ys = acc ++ map f ys.
Proof.
  revert acc. induction ys as [| y ys IH]; intros acc; cbn [foldl map].
  - now rewrite app_nil_r.
  - rewrite IH, <- app_assoc. reflexivity.
Qed.

Lemma foldl_collect_app {A B : Type} (g : B -> list A) (xs : list B) (acc : list A) :
  foldl (fun acc x => acc ++ g x) acc xs = acc ++ concat (map g xs).
Proof.
  revert acc. induction xs as [| x xs IH]; intros acc; cbn [foldl map concat].
  - now rewrite app_nil_r.
  - rewrite IH, <- app_assoc. reflexivity.
Qed.

Lemma foldl_cells {A : Type} (k : float32 -> float32 -> A) (xs ys : list Z)
      (acc : list A) :
  foldl (fun s x => foldl (fun s y => s ++ [k (half x) (half y)]) s ys) acc xs =
  acc ++ concat (map (fun x => map (fun y => k (half x) (half y)) ys) xs).
Proof.
  revert acc. induction xs as [| x xs IH]; intros acc; cbn [foldl map concat].
  - now rewrite app_nil_r.
  - rewrite (foldl_collect (fun y => k (half x) (half y))), IH, <- app_assoc.
    reflexivity.
Qed.

(** The scan of a grid on whole pixels returns, and yields the tiles of
    the columns [xs] and rows [ys] of the integer loops. *)
Lemma visibleTiles_on_pixels (unrep : float32 -> Z) (t : TileGrid)
      (lx ly tw th sw sh : Z) :
  on_pixels t lx ly tw th sw sh -> pixel_range lx ly tw th sw sh ->
  let X1 := 2 * lx - 2 * tw in
  let X2 := 2 * lx + tw + 2 * sw in
  let Y1 := 2 * ly - 2 * th in
  let Y2 := 2 * ly + th + 2 * sh in
  let m := Z.to_nat (Y2 - Y1) in
  let n := Z.to_nat (X2 - X1) in
  forall f : nat,
    visibleTiles unrep (Datatypes.S (m + n) + f) t =
    Returned
      (concat (map (fun x => map (fun y => tileCoordAt unrep t (half x) (half y))
                                 (zscan (Datatypes.S m) Y1 Y2 (2 * th)))
                   (zscan (Datatypes.S n) X1 X2 (2 * tw)))).
Proof.
  intros (HX & HY & Htw & Hth & Hhw & Hhh & Hsw & Hsh) (Rx & Ry & Rtw & Rth & Rsw & Rsh).
  intros X1 X2 Y1 Y2 m n f.
  change (2 ^ 20) with 1048576 in *.
  assert (P24 : 2 ^ 24 = 16777216) by reflexivity.
  assert (P23 : 2 ^ 23 = 8388608) by reflexivity.
  unfold visibleTiles. apply forEachVisibleTile_more_fuel.
  unfold forEachVisibleTile, forEachCell.
  rewrite HX, HY, Htw, Hth, Hhw, Hhh, Hsw, Hsh.
  rewrite !of_Z_div2 by lia.
  rewrite (of_Z_half' lx), (of_Z_half' ly), (of_Z_half' tw), (of_Z_half' th),
    (of_Z_half' sw), (of_Z_half' sh) by lia.
  unfold sub, add. rewrite !half_sub, !half_add by lia.
  fold X1 Y1. replace (2 * lx + tw + 2 * sw) with X2 by reflexivity.
  replace (2 * ly + th + 2 * sh) with Y2 by reflexivity.
  rewrite (forX_half t _ X2 (2 * tw) Y1 Y2 (2 * th) m); try (subst X1 X2 Y1 Y2 m n; lia).
  - f_equal. apply (foldl_cells (tileCoordAt unrep t)).
  - rewrite Htw. apply of_Z_half'. lia.
  - rewrite Hth. apply of_Z_half'. lia.
  - subst m. rewrite Z2Nat.id by (subst Y1 Y2; lia). subst Y1 Y2. nia.
  - subst n. rewrite Z2Nat.id by (subst X1 X2; lia). subst X1 X2. nia.
Qed.

(** Whether the scan returns does not depend on the callback. *)
Lemma forEachVisibleTile_returned {S1 S2 : Type} (unrep : float32 -> Z) (fuel : nat)
      (t : TileGrid) (f1 : TileCoord -> S1 -> S1) (f2 : TileCoord -> S2 -> S2)
      (s1 : S1) (s2 : S2) :
  returned (forEachVisibleTile unrep fuel t f1 s1) =
  returned (forEachVisibleTile unrep fuel t f2 s2).
Proof.
  unfold forEachVisibleTile, forEachCell.
  apply (run_rel_state (fun _ _ => True)).
  apply forX_sim; [| exact I]. intros; exact I.
Qed.

(** With four sizes above zero and a location on whole pixels, all up to
    2^20 in magnitude, the construction returns a grid. *)
Lemma NewTileGrid_returns_on_pixels (unrep : float32 -> Z) (lx ly tw th sw sh : Z)
      (z : float32) :
  pixel_range lx ly tw th sw sh ->
  exists (fuel : nat) (w : World),
    forall more : nat,
      NewTileGrid unrep (fuel + more) (mkCoord (of_Z lx) (of_Z ly) z) tw th sw sh
      = Ok (Returned w).
Proof.
  intros Hrange.
  pose proof Hrange as (Rx & Ry & Rtw & Rth & Rsw & Rsh).
  unfold NewTileGrid.
  destruct (sw =? 0) eqn:E1; [lia |]. destruct (sh =? 0) eqn:E2; [lia |].
  destruct (tw =? 0) eqn:E3; [lia |]. destruct (th =? 0) eqn:E4; [lia |].
  cbn [orb]. cbv zeta.
  match goal with
  | |- context [SetLocation _ _ (mkWorld ?t [] [] []) ?c] =>
      set (t0 := t); set (c0 := c)
  end.
  assert (Hpix : on_pixels (set_location t0 c0) lx ly tw th sw sh)
    by (repeat split; reflexivity).
  pose proof (visibleTiles_on_pixels unrep _ lx ly tw th sw sh Hpix Hrange) as Hvis.
  cbv zeta in Hvis. specialize (Hvis 0%nat).
  match type of Hvis with
  | visibleTiles _ ?n _ = _ => set (fuel := n) in *
  end.
  assert (Hret : returned (SetLocation unrep fuel (mkWorld t0 [] [] []) c0) = true).
  { unfold SetLocation. cbn [grid set_grid].
    rewrite (forEachVisibleTile_returned unrep fuel _ spawn (fun k acc => acc ++ [k]) _ []).
    fold (visibleTiles unrep fuel (set_location t0 c0)). now rewrite Hvis. }
  destruct (SetLocation unrep fuel (mkWorld t0 [] [] []) c0) as [w | w] eqn:Hw;
    [| discriminate].
  exists fuel, w. intros more. f_equal.
  now apply SetLocation_more_fuel.
Qed.

Lemma half_positive_finite (b : Z) : 0 < b < 2 ^ 24 -> positive_finite (half b) = true.
Proof.
  intros Hb. rewrite half_canonical by lia.
  replace (b <? 0) with false by (symmetry; apply Z.ltb_ge; lia). reflexivity.
Qed.

(** On half-integers, a cell below the tile size has index 0: clamped when
    it is negative, truncated otherwise. *)
Lemma half_index_zero (unrep : float32 -> Z) (a b : Z) :
  a < b -> Z.abs a < 2 ^ 24 -> 0 < b < 2 ^ 24 ->
  uint32_of_float32 unrep (cellIndex (half a) (half b)) = 0.
Proof.
  intros Hab Ha Hb. destruct (Z_lt_ge_dec a 0) as [Hneg | Hpos].
  - apply cellIndex_negative; [now apply half_positive_finite |].
    change (of_Z 0) with (half 0). unfold ltb. rewrite half_ltb by lia.
    now apply Z.ltb_lt.
  - apply half_div_index; lia.
Qed.

Lemma zscan_two (n : nat) (c hi step : Z) :
  c + step < hi -> 0 < step ->
  exists rest : list Z,
    zscan (Datatypes.S (Datatypes.S n)) c hi step = c :: (c + step) :: rest.
Proof.
  intros H Hs. rewrite !zscan_S.
  replace (c <? hi) with true by (symmetry; apply Z.ltb_lt; lia).
  replace (c + step <? hi) with true by (symmetry; apply Z.ltb_lt; lia).
  eauto.
Qed.



(** ** Sizes that come from [uint32] *)

Lemma iter_shr_1_div (n : nat) (mrs : shr_record) :
  0 <= shr_m mrs ->
  shr_m (Nat.iter n shr_1 mrs) = shr_m mrs / 2 ^ Z.of_nat n.
Proof.
  intros H. induction n as [| n IH].
  - simpl. now rewrite Z.div_1_r.
  - destruct (iter_shr_1_m n mrs H) as [H0 _].
    rewrite Nat.iter_succ, shr_1_m by exact H0.
    rewrite IH, Nat2Z.inj_succ, Z.pow_succ_r by lia.
    rewrite Z.div_div by (try apply Z.pow_pos_nonneg; lia).
    f_equal. lia.
Qed.

(** What [shr_fexp] leaves of a mantissa: its quotient by the power of two
    that brings it down to 24 bits. *)
Lemma shr_fexp_div (m e : Z) (l : SpecFloat.location) :
  0 <= m ->
  let '(mrs, e') := shr_fexp prec emax m e l in
  e' = e + Z.max 0 (fexp prec emax (Zdigits2 m + e) - e) /\
  shr_m mrs = m / 2 ^ (e' - e).
Proof.
  intros Hm. unfold shr_fexp, shr.
  destruct (fexp prec emax (Zdigits2 m + e) - e) as [| k | k] eqn:E.
  - rewrite shr_record_of_loc_m. split; [lia |].
    rewrite Z.sub_diag, Z.pow_0_r. now rewrite Z.div_1_r.
  - rewrite iter_pos_nat, iter_shr_1_div by (rewrite shr_record_of_loc_m; exact Hm).
    rewrite shr_record_of_loc_m, positive_nat_Z. split; [lia |].
    f_equal. f_equal. lia.
  - rewrite shr_record_of_loc_m. split; [lia |].
    rewrite Z.sub_diag, Z.pow_0_r. now rewrite Z.div_1_r.
Qed.

(** A [uint32] above zero converts to a finite float above zero. *)
Lemma of_Z_positive_finite (n : Z) :
  0 < n < 2 ^ 32 -> positive_finite (of_Z n) = true.
Proof.
  intros [Hn0 Hn]. destruct n as [| p | p]; try lia.
  unfold of_Z. cbn [binary_normalize].
  pose proof (digits2_pos_bounds p) as [Dlo Dhi].
  assert (HD32 : Z.pos (digits2_pos p) <= 32).
  { apply (Zdigits2_le (Z.pos p) 32); [lia | exact Hn]. }
  set (D := Z.pos (digits2_pos p)) in *.
  destruct (Z_le_gt_dec D 24) as [Hle | Hgt].
  - rewrite binary_round_small by (fold D; lia). reflexivity.
  - unfold binary_round, shl_align. fold D.
    rewrite (fexp_normal (D + 0)) by lia.
    destruct (D + 0 - 24 - 0) as [| d | d] eqn:E; try lia.
    unfold binary_round_aux.
    pose proof (shr_fexp_div (Z.pos p) 0 loc_Exact ltac:(lia)) as H1.
    destruct (shr_fexp prec emax (Z.pos p) 0 loc_Exact) as [mrs e1].
    destruct H1 as [He1 Hm1].
    cbn [Zdigits2] in He1. fold D in He1. rewrite fexp_normal in He1 by lia.
    assert (He1' : e1 = D - 24) by lia. clear He1.
    rewrite He1' in Hm1. replace (D - 24 - 0) with (D - 24) in Hm1 by lia.
    assert (Hpow : 2 ^ (D - 1) = 2 ^ 23 * 2 ^ (D - 24) /\ 2 ^ D = 2 ^ 24 * 2 ^ (D - 24)).
    { rewrite <- !Z.pow_add_r by lia. split; f_equal; lia. }
    destruct Hpow as [Hp1 Hp2].
    assert (H2k : 0 < 2 ^ (D - 24)) by (apply Z.pow_pos_nonneg; lia).
    assert (Hm1b : 2 ^ 23 <= shr_m mrs < 2 ^ 24).
    { rewrite Hm1. split.
      - apply Z.div_le_lower_bound; lia.
      - apply Z.div_lt_upper_bound; lia. }
    pose proof (round_nearest_even_le (shr_m mrs) (loc_of_shr_record mrs)) as Hr.
    set (m2 := round_nearest_even (shr_m mrs) (loc_of_shr_record mrs)) in *.
    change (2 ^ 23) with 8388608 in *. change (2 ^ 24) with 16777216 in *.
    pose proof (shr_fexp_div m2 e1 loc_Exact ltac:(lia)) as H2.
    destruct (shr_fexp prec emax m2 e1 loc_Exact) as [mrs2 e2].
    destruct H2 as [He2 Hm2].
    assert (HD2 : 24 <= Zdigits2 m2 <= 25).
    { split.
      - pose proof (Zdigits2_bounds m2 ltac:(lia)) as [_ Hhi].
        rewrite Z.abs_eq in Hhi by lia.
        destruct (Z_le_gt_dec 24 (Zdigits2 m2)) as [| Hlt]; [assumption | exfalso].
        assert (2 ^ Zdigits2 m2 <= 2 ^ 23) by (apply Z.pow_le_mono_r; lia).
        change (2 ^ 23) with 8388608 in *. lia.
      - apply Zdigits2_le; [lia |]. rewrite Z.abs_eq by lia.
        change (2 ^ 25) with 33554432. lia. }
    rewrite fexp_normal in He2 by lia.
    assert (Hsh : e2 - e1 = 0 \/ e2 - e1 = 1) by lia.
    assert (Hpos : 0 < shr_m mrs2).
    { rewrite Hm2. destruct Hsh as [-> | ->].
      - rewrite Z.pow_0_r, Z.div_1_r. lia.
      - apply Z.div_str_pos. change (2 ^ 1) with 2. lia. }
    destruct (shr_m mrs2) as [| q | q]; try lia.
    replace (e2 <=? emax - prec) with true; [reflexivity |].
    symmetry. apply Z.leb_le. unfold emax, prec. lia.
Qed.

(** The grid [NewTileGrid] builds from sizes above zero has tile sizes
    that are finite and above zero, as C4 asks of them. *)
Lemma NewTileGrid_tile_sizes_positive (unrep : float32 -> Z) (fuel : nat)
      (current : Coord) (tw th sw sh : Z) :
  0 < tw < 2 ^ 32 -> 0 < th < 2 ^ 32 -> 0 < sw -> 0 < sh ->
  exists r : run World,
    NewTileGrid unrep fuel current tw th sw sh = Ok r /\
    positive_finite (tileWidth (grid (run_state r))) = true /\
    positive_finite (tileHeight (grid (run_state r))) = true.
Proof.
  intros Htw Hth Hsw Hsh.
  destruct (NewTileGrid_ok unrep fuel current tw th sw sh) as (r & Hr & Hg); try lia.
  exists r. split; [exact Hr |]. rewrite Hg. cbn [tileWidth tileHeight].
  split; now apply of_Z_positive_finite.
Qed.

(** ** [loading] and [cache], one goroutine at a time *)

(** X19. [SetTile] takes the tile out of [loading] and puts it in [cache], and
    touches no other key. *)
Lemma SetTile_effect (w : World) (coord : TileCoord) (tile : PngTile) :
  let w' := SetTile w coord tile in
  (coord ∉ loading (grid w')) /\
  cache (grid w') !! coord = Some tile /\
  forall k : TileCoord, k <> coord ->
    (k ∈ loading (grid w') <-> k ∈ loading (grid w)) /\
    cache (grid w') !! k = cache (grid w) !! k.
Proof.
  cbv zeta. unfold SetTile. cbn.
  split; [| split; [apply lookup_insert_eq |]].
  - rewrite elem_of_difference, elem_of_singleton. tauto.
  - intros k Hk. split; [| now apply lookup_insert_ne].
    rewrite elem_of_difference, elem_of_singleton. tauto.
Qed.

(** Calls of [SetTile], and goroutines of [SetLocation] that run from their
    first statement to their last undisturbed, keep [loading] and [cache]
    disjoint, and such a goroutine run again for the same tile sends
    nothing more. *)
Lemma SetTile_keeps_disjoint (w : World) (coord : TileCoord) (tile : PngTile) :
  disjoint_loading_cache (grid w) ->
  disjoint_loading_cache (grid (SetTile w coord tile)).
Proof.
  intros H k Hk. unfold SetTile in *. cbn in *.
  apply elem_of_difference in Hk as [Hk Hne].
  rewrite lookup_insert_ne by (intros ->; apply Hne; now apply elem_of_singleton).
  now apply H.
Qed.

Lemma go_alone_keeps_disjoint (t : TileGrid) (k : TileCoord) :
  disjoint_loading_cache t -> disjoint_loading_cache (go_alone t k).
Proof.
  intros H. unfold go_alone. cbn.
  destruct (decide (k ∈ loading t)) as [Hin | Hout]; [exact H |]. cbn.
  destruct (cache t !! k) eqn:Hc; [exact H |]. cbn.
  intros k' Hk'. cbn in *.
  apply elem_of_union in Hk' as [Hk' | Hk'].
  - apply elem_of_singleton in Hk'. now subst.
  - now apply H.
Qed.

Lemma go_alone_sends_once (t : TileGrid) (k : TileCoord) :
  go_alone (go_alone t k) k = go_alone t k.
Proof.
  unfold go_alone. cbn.
  destruct (decide (k ∈ loading t)) as [Hin | Hout].
  - cbn. destruct (decide (k ∈ loading t)); [reflexivity | contradiction].
  - cbn. destruct (cache t !! k) eqn:Hc.
    + cbn. destruct (decide (k ∈ loading t)); [contradiction |]. cbn. now rewrite Hc.
    + cbn. destruct (decide _) as [| Hn]; [reflexivity |].
      exfalso. apply Hn. cbn. apply elem_of_union. left. now apply elem_of_singleton.
Qed.

(** ** Concrete runs *)

Example Add_clamped_and_halved :
  Add (mkCoord (of_Z 100) (of_Z 60) (of_Z 2)) (mkCoord (of_Z 0) (of_Z 0) (of_Z (-1)))
  = mkCoord (of_Z 50) (of_Z 30) (of_Z 2).
Proof. vm_compute. reflexivity. Qed.

Example Add_nan_zoom_delta :
  Add (mkCoord (of_Z 100) (of_Z 60) (of_Z 6)) (mkCoord (of_Z 1) (of_Z 1) nan)
  = mkCoord (of_Z 101) (of_Z 61) (of_Z 6).
Proof. vm_compute. reflexivity. Qed.

(** C1, at a concrete input: three moves with a zoom-out, a NaN and an
    infinite zoom delta. *)
Lemma Move_zoom_in_range_witness :
  zoom_in_range (coordZ (location (grid origin_world))) = true /\
  Forall (fun w' => zoom_in_range (coordZ (location (grid w'))) = true)
         (Moves unrepresentable_is_zero 8 origin_world
            [mkCoord (of_Z 0) (of_Z 0) (of_Z (-7));
             mkCoord (of_Z 3) (of_Z 3) nan;
             mkCoord (of_Z 0) (of_Z 0) (S754_infinity false)]).
Proof.
  split; [reflexivity |].
  apply (Move_zoom_in_range unrepresentable_is_zero 8). reflexivity.
Defined.

(** C3, as stated, fails: with a 500x500 viewport and 256x256 tiles one
    whole tile fits across, so the zoom-out of [Move] shifts the halved
    offset 500 by 64 to 436, where a quarter of the viewport, 125, would
    give 375. *)
Lemma Move_shift_is_not_quarter_viewport :
  exists w0 : World,
    NewTileGrid unrepresentable_is_zero 8
      (mkCoord (of_Z 1000) (of_Z 1000) (of_Z 6)) 256 256 500 500 = Ok (Returned w0) /\
    let delta := mkCoord (of_Z 0) (of_Z 0) (of_Z (-1)) in
    let after := location (grid (run_state (Move unrepresentable_is_zero 8 w0 delta))) in
    coordX after = of_Z 436 /\
    coordX (moved_by_viewport (grid w0) delta) = of_Z 375 /\
    (coordX after =? coordX (moved_by_viewport (grid w0) delta))%f32 = false.
Proof.
  eexists. split; [vm_compute; reflexivity |].
  vm_compute. repeat split; reflexivity.
Qed.

(** Where the tile size divides the viewport size the two agree. *)
Example Move_shift_quarter_when_divisible :
  let delta := mkCoord (of_Z 0) (of_Z 0) (of_Z (-1)) in
  moved origin_grid delta = moved_by_viewport origin_grid delta.
Proof. vm_compute. reflexivity. Qed.

(** C5 (what the code does at the failing input). In the spec's grid two
    goroutines of the first [SetLocation] carry the tile (0, 0, 6). The
    first reads [loading] and [cache] and finds the tile in neither; the
    second does the same, stores the tile in [loading] and sends it; the
    loader receives it, the fetch ends and [SetTile] moves the tile from
    [loading] to [cache]; the first goroutine then stores the tile in
    [loading]: the tile is in both. *)
Theorem loading_and_cache_overlap :
  exists (w0 w : World) (tile : PngTile),
    NewTileGrid unrepresentable_is_zero 8
      (mkCoord (of_Z 0) (of_Z 0) (of_Z 6)) 256 256 512 512 = Ok (Returned w0) /\
    execs unrepresentable_is_zero 8 w0
      [EvGo 0; EvGo 0;
       EvGo 1; EvGo 1; EvGo 1; EvGo 1;
       EvReceive 0; EvFetched 0 tile;
       EvGo 0] = Some w /\
    tile006 ∈ loading (grid w) /\
    cache (grid w) !! tile006 = Some tile.
Proof.
  eexists. eexists. exists (mkPngTile tile006 1%N).
  split; [vm_compute; reflexivity |].
  split; [vm_compute; reflexivity |].
  split; vm_compute; reflexivity.
Qed.

(** C9 (what the code does at the failing input). The same two goroutines,
    statement by statement in turn: both read [loading], both read [cache],
    both store, both send; the loader receives the tile (0, 0, 6) twice and
    two fetches of it are in flight together, neither of them ended. *)
Theorem same_tile_dispatched_twice :
  exists w0 w : World,
    NewTileGrid unrepresentable_is_zero 8
      (mkCoord (of_Z 0) (of_Z 0) (of_Z 6)) 256 256 512 512 = Ok (Returned w0) /\
    execs unrepresentable_is_zero 8 w0
      [EvGo 0; EvGo 1; EvGo 0; EvGo 1; EvGo 0; EvGo 1; EvGo 0; EvGo 0;
       EvReceive 0; EvReceive 0] = Some w /\
    fetching w = [tile006; tile006].
Proof.
  eexists. eexists.
  split; [vm_compute; reflexivity |].
  split; vm_compute; reflexivity.
Qed.

(** C4, at a concrete input: the spec's grid. *)
Lemma visible_tiles_never_negative_witness :
  positive_finite (tileWidth origin_grid) = true /\
  positive_finite (tileHeight origin_grid) = true /\
  run_state (visibleTiles unrepresentable_is_zero 8 origin_grid) =
    map (fun c => tileCoordAt unrepresentable_is_zero origin_grid c.1 c.2)
        (run_state (visibleCells 8 origin_grid)) /\
  Forall (fun c => cell_ok unrepresentable_is_zero origin_grid c.1 c.2)
         (run_state (visibleCells 8 origin_grid)).
Proof.
  split; [reflexivity |]. split; [reflexivity |].
  apply (visible_tiles_never_negative unrepresentable_is_zero 8 origin_grid);
    reflexivity.
Defined.

(** C7, at a concrete input: a zoom-out by 1 and back from (100, 60, 6). *)
Lemma zoom_out_in_restores_pan_witness :
  let c := mkCoord (of_Z 100) (of_Z 60) (of_Z 6) in
  let dz := of_Z (-1) in
  let c' := Add (Add c (mkCoord (of_Z 0) (of_Z 0) dz))
                (mkCoord (of_Z 0) (of_Z 0) (- dz)%f32) in
  valid (coordX c) = true /\ valid (coordY c) = true /\
  (dz <? of_Z 0)%f32 = true /\
  within_one_ulp (coordX c) (coordX c') /\
  within_one_ulp (coordY c) (coordY c') /\
  (halves_exactly (coordX c) = true -> coordX c' = coordX c) /\
  (halves_exactly (coordY c) = true -> coordY c' = coordY c).
Proof.
  cbv zeta. split; [reflexivity |]. split; [reflexivity |]. split; [reflexivity |].
  apply (zoom_out_in_restores_pan (mkCoord (of_Z 100) (of_Z 60) (of_Z 6)) (of_Z (-1)));
    reflexivity.
Defined.

(** The smallest float is not restored: its half rounds to zero. *)
Example halve_double_smallest :
  halve_double (S754_finite false 1 (-149)) = S754_zero false.
Proof. vm_compute. reflexivity. Qed.

(** Far to the left of the origin (x = -2^40, below the tile width) a
    step of one tile, and the whole width of the scan, are lost to
    rounding: [x1 = x2], the scan returns at once and yields no tile. *)
Lemma far_location_yields_nothing :
  let t := set_location origin_grid
             (mkCoord (of_Z (- 2 ^ 40)) (of_Z 0) (of_Z 6)) in
  (coordX (location t) <? tileWidth t)%f32 = true /\
  visibleTiles unrepresentable_is_zero 1 t = Returned [].
Proof. cbv zeta. split; vm_compute; reflexivity. Qed.

(** ** The other versions of the grid *)

(** The earlier [Add] has no lower clamp: a zoom-out from zoom 2 gives 1. *)
Example Earlier_Add_below_MIN_ZOOM :
  Earlier.Add (mkCoord (of_Z 0) (of_Z 0) (of_Z 2)) (mkCoord (of_Z 0) (of_Z 0) (of_Z (-1)))
  = mkCoord (of_Z 0) (of_Z 0) (of_Z 1).
Proof. vm_compute. reflexivity. Qed.

(** The earlier scan converts the quotient -1 of the cell at x = -256 as
    it is: the index is what the implementation makes of [uint32(-1.0)]. *)
Example Earlier_index_of_negative_cell (unrep : float32 -> Z) :
  tileX (Earlier.tileCoordAt (uint32_of_float32 unrep) origin_grid (of_Z (-256)) (of_Z 0))
  = wrap32 (unrep (of_Z (-1))).
Proof. reflexivity. Qed.

(** The later construction accepts a viewport of zero width and height. *)
Example NewTileGrid_part_001_zero_viewport :
  exists w : World,
    NewTileGrid_part_001 unrepresentable_is_zero 8
      (mkCoord (of_Z 0) (of_Z 0) (of_Z 6)) 256 256 0 0 = Some (Ok (Returned w)).
Proof. eexists. vm_compute. reflexivity. Qed.

(** ** Zooming in past [MAX_ZOOM] *)

(** From the location of [main] (31 and 22 tiles in, zoom 6, 1024x768
    viewport) eighteen zoom-in steps return, the last eight of them with
    the zoom clamped at 16 and the pan offset doubled all the same; the
    nineteenth, with [x] above 2^32, never returns. *)
Example zooming_in_stalls :
  exists w0 w : World,
    NewTileGrid unrepresentable_is_zero 16
      (mkCoord (of_Z (31 * 256)) (of_Z (22 * 256)) (of_Z 6)) 256 256 1024 768
      = Ok (Returned w0) /\
    let zoom_in := mkCoord (of_Z 0) (of_Z 0) (of_Z 1) in
    let ws := Moves unrepresentable_is_zero 16 w0 (repeat zoom_in 18) in
    length ws = 18%nat /\ last ws = Some w /\
    coordZ (location (grid w)) = of_Z 16 /\
    forall fuel : nat, returned (Move unrepresentable_is_zero fuel w zoom_in) = false.
Proof.
  eexists. eexists. split; [vm_compute; reflexivity |].
  cbv zeta. split; [vm_compute; reflexivity |].
  split; [vm_compute; reflexivity |].
  split; [vm_compute; reflexivity |].
  intros fuel. unfold Move, SetLocation, forEachVisibleTile, forEachCell.
  apply forX_stalls; vm_compute; reflexivity.
Qed.

(** ** What [SetLocation], [Drawable], [All] and [CancelLoadingTiles] do *)

Lemma spawn_all (w : World) (tiles : list TileCoord) :
  foldl (fun w k => spawn k w) w tiles =
  set_goroutines w (goroutines w ++ map (fun k => mkGoroutine k AtLoadLoading) tiles).
Proof.
  revert w. induction tiles as [| k tiles IH]; intros w; cbn [foldl map].
  - rewrite app_nil_r. now destruct w.
  - rewrite IH. unfold spawn, set_goroutines. cbn. now rewrite <- app_assoc.
Qed.

(** [SetLocation] and the scan stop the same way, and the world after
    is the world before with the location set and one goroutine more for
    each tile of the scan. *)
Lemma SetLocation_spawns (unrep : float32 -> Z) (fuel : nat) (w : World) (loc : Coord) :
  run_rel (fun w' tiles =>
             w' = mkWorld (set_location (grid w) loc)
                    (goroutines w ++ map (fun k => mkGoroutine k AtLoadLoading) tiles)
                    (fetching w) (cancelled w))
          (SetLocation unrep fuel w loc)
          (visibleTiles unrep fuel (set_location (grid w) loc)).
Proof.
  set (w0 := set_grid w (set_location (grid w) loc)).
  assert (H : run_rel (fun w' tiles => w' = foldl (fun w k => spawn k w) w0 tiles)
                      (SetLocation unrep fuel w loc)
                      (visibleTiles unrep fuel (set_location (grid w) loc))).
  { unfold SetLocation, visibleTiles, forEachVisibleTile, forEachCell. fold w0.
    apply forX_sim; [| reflexivity].
    intros x y w1 tiles ->. now rewrite foldl_app. }
  destruct (SetLocation unrep fuel w loc) as [w' | w'],
           (visibleTiles unrep fuel (set_location (grid w) loc)) as [tiles | tiles];
    cbn in *; try contradiction; rewrite H, spawn_all; reflexivity.
Qed.

(** X1. [SetLocation] stores the location, which [GetLocation] then gives
    back, and starts one goroutine for each tile of the scan, in the order
    of the scan and each at its first statement; the maps, the channels and
    whatever runs already are as they were. It returns exactly when the
    scan does. *)
Theorem SetLocation_starts_a_goroutine_per_tile
        (unrep : float32 -> Z) (fuel : nat) (w : World) (loc : Coord) :
  let w' := run_state (SetLocation unrep fuel w loc) in
  let tiles := run_state (visibleTiles unrep fuel (set_location (grid w) loc)) in
  GetLocation (grid w') = loc /\
  grid w' = set_location (grid w) loc /\
  fetching w' = fetching w /\ cancelled w' = cancelled w /\
  goroutines w' = goroutines w ++ map (fun k => mkGoroutine k AtLoadLoading) tiles /\
  returned (SetLocation unrep fuel w loc) =
    returned (visibleTiles unrep fuel (set_location (grid w) loc)).
Proof.
  cbv zeta. pose proof (SetLocation_spawns unrep fuel w loc) as H.
  apply run_rel_state in H as [-> Hr].
  repeat split; try reflexivity. exact Hr.
Qed.

(** X2. [Drawable] returns the cached tiles of the scan: the tile the cache
    holds for each key the scan yields, in the order of the scan and as
    often as the scan yields the key; keys that are not cached are skipped.
    Every tile it returns is one that [All] returns. *)
Theorem Drawable_is_the_cached_scan
        (unrep : float32 -> Z) (fuel : nat) (t : TileGrid) :
  run_state (Drawable unrep fuel t) =
    omap (fun k => cache t !! k) (run_state (visibleTiles unrep fuel t)) /\
  returned (Drawable unrep fuel t) = returned (visibleTiles unrep fuel t) /\
  (forall p : PngTile, p ∈ run_state (Drawable unrep fuel t) -> p ∈ All t).
Proof.
  assert (H : run_rel (fun drawn tiles => drawn = omap (fun k => cache t !! k) tiles)
                      (Drawable unrep fuel t) (visibleTiles unrep fuel t)).
  { unfold Drawable, visibleTiles, forEachVisibleTile, forEachCell.
    apply forX_sim; [| reflexivity].
    intros x y drawn tiles ->. rewrite omap_app. cbn.
    destruct (cache t !! tileCoordAt unrep t x y); [reflexivity |].
    now rewrite app_nil_r. }
  apply run_rel_state in H as [H1 H2]. split; [exact H1 |]. split; [exact H2 |].
  intros p. rewrite H1, list_elem_of_omap. intros (k & _ & Hk).
  unfold All. apply list_elem_of_fmap. exists (k, p). split; [reflexivity |].
  now apply elem_of_map_to_list.
Qed.

(** X3. [All] returns the cached tiles, each key's tile once: a tile is
    returned exactly when some key holds it, and there are as many as keys;
    after [SetTile] the tile set is among them. *)
Theorem All_is_the_cache (w : World) (coord : TileCoord) (tile : PngTile) :
  (forall p : PngTile, p ∈ All (grid w) <-> exists k, cache (grid w) !! k = Some p) /\
  length (All (grid w)) = size (cache (grid w)) :> nat /\
  tile ∈ All (grid (SetTile w coord tile)).
Proof.
  assert (HAll : forall (t : TileGrid) (p : PngTile),
             p ∈ All t <-> exists k, cache t !! k = Some p).
  { intros t p. unfold All. rewrite list_elem_of_fmap. split.
    - intros ([k q] & -> & H). exists k. now apply elem_of_map_to_list.
    - intros [k H]. exists (k, p). split; [reflexivity |].
      now apply elem_of_map_to_list. }
  split; [apply HAll |]. split.
  - unfold All. rewrite length_fmap. apply length_map_to_list.
  - apply HAll. exists coord. unfold SetTile. cbn. apply lookup_insert_eq.
Qed.

Lemma foldl_delete_lookup (ks : list TileCoord) (c : gmap TileCoord PngTile)
      (k : TileCoord) :
  foldl (fun c l => delete l c) c ks !! k = if decide (k ∈ ks) then None else c !! k.
Proof.
  revert c. induction ks as [| a ks IH]; intros c; cbn [foldl].
  - destruct (decide (k ∈ [])) as [H | _]; [| reflexivity].
    now apply not_elem_of_nil in H.
  - rewrite IH. destruct (decide (k ∈ ks)) as [Hin | Hout].
    + destruct (decide (k ∈ a :: ks)) as [| Hn]; [reflexivity |].
      exfalso. apply Hn. now apply list_elem_of_further.
    + destruct (decide (a = k)) as [-> | Hne].
      * rewrite lookup_delete_eq.
        destruct (decide (k ∈ k :: ks)) as [| Hn]; [reflexivity |].
        exfalso. apply Hn. apply list_elem_of_here.
      * rewrite lookup_delete_ne by exact Hne.
        destruct (decide (k ∈ a :: ks)) as [Hin |]; [| reflexivity].
        apply elem_of_cons in Hin as [-> | Hin]; contradiction.
Qed.

(** X4. [CancelLoadingTiles] evicts from the cache the tiles that were
    waiting on [TilesToLoad] when it ran, and only those: a tile fetched
    before and requested again is lost with the request. *)
Theorem CancelLoadingTiles_evicts_the_queued (w : World) (k : TileCoord) :
  cache (grid (CancelLoadingTiles w)) !! k =
  if decide (k ∈ TilesToLoad (grid w)) then None else cache (grid w) !! k.
Proof. unfold CancelLoadingTiles. cbn. apply foldl_delete_lookup. Qed.

(** X5. After [CancelLoadingTiles] nothing is loading and both channels
    are empty, and a second call right after changes nothing. *)
Theorem CancelLoadingTiles_twice (w : World) :
  let w' := CancelLoadingTiles w in
  loading (grid w') = ∅ /\ TilesToLoad (grid w') = [] /\
  TilesInFlight (grid w') = [] /\
  CancelLoadingTiles w' = w'.
Proof.
  cbv zeta. unfold CancelLoadingTiles. cbn.
  rewrite !range_delete_empty, app_nil_r. repeat split; reflexivity.
Qed.

(** ** Integers in and out of [float32] *)

(** The encoding of a whole number of at most 24 bits. *)
Lemma of_Z_canonical (p : positive) :
  let D := Z.pos (digits2_pos p) in
  D <= 24 ->
  of_Z (Z.pos p) = S754_finite false (Z.to_pos (Z.pos p * 2 ^ (24 - D))) (D - 24).
Proof.
  intros D HD. unfold of_Z. cbn [binary_normalize].
  rewrite binary_round_small by (fold D; lia). reflexivity.
Qed.

Lemma trunc_finite (s : bool) (m : positive) (e : Z) :
  trunc (S754_finite s m e) =
  Some (cond_Zopp s (if e <? 0 then Z.pos m / 2 ^ (- e) else Z.pos m * 2 ^ e)).
Proof.
  unfold trunc. f_equal. destruct e as [| q | q]; destruct s; cbn [cond_Zopp Z.ltb Z.compare].
  all: rewrite ?Z.shiftl_mul_pow2, ?Z.shiftr_div_pow2 by lia; reflexivity.
Qed.

Lemma trunc_of_Z (n : Z) : 0 <= n < 2 ^ 24 -> trunc (of_Z n) = Some n.
Proof.
  intros [Hn0 Hn]. destruct n as [| p | p]; [reflexivity | | lia].
  pose proof (digits2_pos_bounds p) as [Dlo Dhi].
  assert (HD : Z.pos (digits2_pos p) <= 24)
    by (apply (Zdigits2_le (Z.pos p) 24); lia).
  rewrite of_Z_canonical by exact HD.
  set (D := Z.pos (digits2_pos p)) in *.
  assert (H2k : 0 < 2 ^ (24 - D)) by (apply Z.pow_pos_nonneg; lia).
  rewrite trunc_finite, Z2Pos.id by lia. cbn [cond_Zopp]. f_equal.
  destruct (D - 24 <? 0) eqn:E.
  - replace (- (D - 24)) with (24 - D) by lia. apply Z.div_mul. lia.
  - apply Z.ltb_ge in E. replace (24 - D) with 0 by lia.
    replace (D - 24) with 0 by lia. rewrite Z.pow_0_r. lia.
Qed.

Lemma uint32_of_trunc (unrep : float32 -> Z) (x : float32) (n : Z) :
  trunc x = Some n -> 0 <= n < 2 ^ 32 -> uint32_of_float32 unrep x = n.
Proof.
  intros Hx Hn. unfold uint32_of_float32. rewrite Hx.
  replace (0 <=? n) with true by (symmetry; apply Z.leb_le; lia).
  replace (n <? uint32_max) with true; [reflexivity |].
  symmetry. apply Z.ltb_lt. unfold uint32_max. lia.
Qed.

Lemma pow_24_32 : 2 ^ 24 < 2 ^ 32.
Proof. reflexivity. Qed.

(** X6. A [uint32] below 2^24 survives the conversion to [float32] and
    back. *)
Theorem uint32_float32_round_trip (unrep : float32 -> Z) (n : Z) :
  0 <= n < 2 ^ 24 -> uint32_of_float32 unrep (of_Z n) = n.
Proof.
  intros Hn. apply uint32_of_trunc; [now apply trunc_of_Z |].
  pose proof pow_24_32. lia.
Qed.

Lemma uint32_float32_round_trip_witness :
  0 <= 256 < 2 ^ 24 /\ uint32_of_float32 unrepresentable_is_zero (of_Z 256) = 256.
Proof.
  assert (H : 0 <= 256 < 2 ^ 24) by (change (2 ^ 24) with 16777216; lia).
  split; [exact H |]. exact (uint32_float32_round_trip unrepresentable_is_zero 256 H).
Defined.

Lemma leb_finite_pos (m1 m2 : positive) (e1 e2 : Z) :
  (S754_finite false m1 e1 <=? S754_finite false m2 e2)%f32 = true ->
  e1 < e2 \/ (e1 = e2 /\ Z.pos m1 <= Z.pos m2).
Proof.
  unfold leb, SFleb, SFcompare.
  destruct (Z.compare_spec e1 e2) as [E | E | E]; [| left; exact E | discriminate].
  rewrite Pos.compare_cont_spec.
  destruct (Pos.compare_spec m1 m2) as [Em | Em | Em]; cbn; try discriminate;
    intros _; right; split; try assumption; lia.
Qed.

(** X7. The zoom of a tile key: for a zoom in [MIN_ZOOM, MAX_ZOOM] the
    conversion gives a whole number between 2 and 16, the zoom without its
    fraction. *)
Theorem tile_zoom_in_range (unrep : float32 -> Z) (t : TileGrid) (x y : float32) :
  valid (coordZ (location t)) = true ->
  zoom_in_range (coordZ (location t)) = true ->
  MIN_ZOOM <= tileZ (tileCoordAt unrep t x y) <= MAX_ZOOM /\
  trunc (coordZ (location t)) = Some (tileZ (tileCoordAt unrep t x y)).
Proof.
  unfold tileCoordAt. cbn [tileZ]. generalize (coordZ (location t)).
  intros z Hv Hz.
  pose proof (zoom_in_range_finite _ Hz) as Hfin.
  unfold zoom_in_range in Hz. apply andb_prop in Hz as [H2 H16].
  change (of_Z MIN_ZOOM) with (S754_finite false 8388608 (-22)) in H2.
  change (of_Z MAX_ZOOM) with (S754_finite false 8388608 (-19)) in H16.
  destruct z as [s | s | | s m e]; try discriminate.
  apply valid_finite in Hv as [He Hv].
  destruct s; [unfold leb, SFleb, SFcompare in H2; discriminate |].
  apply leb_finite_pos in H2, H16.
  assert (Hm : 2 ^ 23 <= Z.pos m < 2 ^ 24 /\ -22 <= e <= -19 /\
               (e = -19 -> Z.pos m = 2 ^ 23)).
  { pose proof (digits2_pos_bounds m) as Hb.
    destruct Hv as [[HD _] | [He' _]]; [| lia].
    rewrite HD in Hb. change (2 ^ (24 - 1)) with 8388608 in Hb.
    change (2 ^ 23) with 8388608. change (2 ^ 24) with 16777216 in *. lia. }
  clear H2 H16.
  destruct Hm as (Hm & He' & He19).
  change (2 ^ 23) with 8388608 in *. change (2 ^ 24) with 16777216 in *.
  assert (Htr : trunc (S754_finite false m e) = Some (Z.pos m / 2 ^ (- e))).
  { rewrite trunc_finite. replace (e <? 0) with true by (symmetry; apply Z.ltb_lt; lia).
    reflexivity. }
  assert (Hq : 2 <= Z.pos m / 2 ^ (- e) <= 16).
  { assert (e = -22 \/ e = -21 \/ e = -20 \/ e = -19) as [-> | [-> | [-> | ->]]] by lia.
    - change (2 ^ (- -22)) with 4194304.
      split; [apply Z.div_le_lower_bound; lia |].
      assert (Z.pos m / 4194304 < 17) by (apply Z.div_lt_upper_bound; lia). lia.
    - change (2 ^ (- -21)) with 2097152.
      split; [apply Z.div_le_lower_bound; lia |].
      assert (Z.pos m / 2097152 < 17) by (apply Z.div_lt_upper_bound; lia). lia.
    - change (2 ^ (- -20)) with 1048576.
      split; [apply Z.div_le_lower_bound; lia |].
      assert (Z.pos m / 1048576 < 17) by (apply Z.div_lt_upper_bound; lia). lia.
    - rewrite He19 by reflexivity. split; vm_compute; discriminate. }
  unfold uint32_of_float32. rewrite Htr.
  replace (0 <=? Z.pos m / 2 ^ (- e)) with true by (symmetry; apply Z.leb_le; lia).
  replace (Z.pos m / 2 ^ (- e) <? uint32_max) with true
    by (symmetry; apply Z.ltb_lt; unfold uint32_max; change (2 ^ 32) with 4294967296; lia).
  cbn [andb]. unfold MIN_ZOOM, MAX_ZOOM. split; [lia | reflexivity].
Qed.

Lemma tile_zoom_in_range_witness :
  valid (coordZ (location origin_grid)) = true /\
  zoom_in_range (coordZ (location origin_grid)) = true /\
  MIN_ZOOM <= tileZ (tileCoordAt unrepresentable_is_zero origin_grid (of_Z 0) (of_Z 0))
    <= MAX_ZOOM /\
  trunc (coordZ (location origin_grid)) =
    Some (tileZ (tileCoordAt unrepresentable_is_zero origin_grid (of_Z 0) (of_Z 0))).
Proof.
  split; [reflexivity |]. split; [reflexivity |].
  apply (tile_zoom_in_range unrepresentable_is_zero origin_grid (of_Z 0) (of_Z 0));
    reflexivity.
Defined.

(** X8. The construction of [unnamed/part_001] with tile sizes above zero
    and below 2^24: it reports no error and does not panic, whatever the
    viewport, a viewport of zero included; the tiles across the viewport
    are the quotients of the viewport by the tile size, rounded down. *)
Theorem NewTileGrid_part_001_counts_tiles
        (unrep : float32 -> Z) (fuel : nat) (origin : Coord) (tw th vw vh : Z) :
  0 < tw < 2 ^ 24 -> 0 < th < 2 ^ 24 ->
  exists r : run World,
    NewTileGrid_part_001 unrep fuel origin tw th vw vh = Some (Ok r) /\
    ScreenTileWidth (grid (run_state r)) = vw / tw /\
    ScreenTileHeight (grid (run_state r)) = vh / th /\
    screenWidth (grid (run_state r)) = of_Z vw /\
    screenHeight (grid (run_state r)) = of_Z vh.
Proof.
  intros Htw Hth. pose proof pow_24_32 as H32.
  unfold NewTileGrid_part_001, Resize.
  replace (tw =? 0) with false by (symmetry; apply Z.eqb_neq; lia).
  replace (th =? 0) with false by (symmetry; apply Z.eqb_neq; lia).
  cbn [orb tileWidth tileHeight].
  rewrite (uint32_of_trunc unrep (of_Z tw) tw), (uint32_of_trunc unrep (of_Z th) th)
    by (try apply trunc_of_Z; lia).
  replace (tw =? 0) with false by (symmetry; apply Z.eqb_neq; lia).
  replace (th =? 0) with false by (symmetry; apply Z.eqb_neq; lia).
  cbn [orb]. eexists. split; [reflexivity |].
  rewrite SetLocation_grid. cbn. repeat split; reflexivity.
Qed.

Lemma NewTileGrid_part_001_counts_tiles_witness :
  0 < 256 < 2 ^ 24 /\ 0 < 256 < 2 ^ 24 /\
  exists r : run World,
    NewTileGrid_part_001 unrepresentable_is_zero 8
      (mkCoord (of_Z 0) (of_Z 0) (of_Z 6)) 256 256 1000 700 = Some (Ok r) /\
    ScreenTileWidth (grid (run_state r)) = 1000 / 256 /\
    ScreenTileHeight (grid (run_state r)) = 700 / 256 /\
    screenWidth (grid (run_state r)) = of_Z 1000 /\
    screenHeight (grid (run_state r)) = of_Z 700.
Proof.
  assert (H : 0 < 256 < 2 ^ 24) by (change (2 ^ 24) with 16777216; lia).
  split; [exact H |]. split; [exact H |].
  exact (NewTileGrid_part_001_counts_tiles unrepresentable_is_zero 8
           (mkCoord (of_Z 0) (of_Z 0) (of_Z 6)) 256 256 1000 700 H H).
Defined.

(** ** The quotient of two whole numbers, truncated *)

Lemma round_nearest_even_up (m : Z) (l : SpecFloat.location) :
  round_nearest_even m l <> m -> l = loc_Inexact Eq \/ l = loc_Inexact Gt.
Proof. destruct l as [| []]; cbn; intros H; auto; contradiction. Qed.

Lemma new_location_up (n r : Z) :
  new_location n r = loc_Inexact Eq \/ new_location n r = loc_Inexact Gt ->
  n <= 2 * r.
Proof.
  unfold new_location, new_location_even, new_location_odd.
  destruct (Z.even n); destruct (r =? 0); intros [H | H]; try discriminate;
    injection H as H.
  - apply Z.compare_eq in H. lia.
  - rewrite Z.compare_gt_iff in H. lia.
  - destruct (Z.compare_spec (2 * r + 1) n); discriminate.
  - destruct (Z.compare_spec (2 * r + 1) n); try discriminate. lia.
Qed.

Lemma shr_1_odd (q : Z) (l : SpecFloat.location) :
  0 <= q ->
  let mrs := shr_1 (shr_record_of_loc q l) in
  loc_of_shr_record mrs = loc_Inexact Eq \/ loc_of_shr_record mrs = loc_Inexact Gt ->
  Z.odd q = true.
Proof.
  intros Hq. destruct q as [| [p | p |] | p]; try lia;
    destruct l as [| []]; cbn; intros [H | H]; try discriminate; reflexivity.
Qed.

(** The first shift and the rounding of a quotient [q] of 24 or 25 bits:
    [j] bits go, and where the rounding goes up the bits gone were at least
    half. *)
Lemma div_first_stage (q e' : Z) (n r : Z) :
  2 ^ 23 <= q < 2 ^ 25 -> -100 <= e' ->
  let '(mrs, e1) := shr_fexp prec emax q e' (new_location n r) in
  let m2 := round_nearest_even (shr_m mrs) (loc_of_shr_record mrs) in
  exists j : Z,
    0 <= j <= 1 /\ e1 = e' + j /\ 2 ^ 23 <= q / 2 ^ j < 2 ^ 24 /\
    (m2 = q / 2 ^ j \/
     (m2 = q / 2 ^ j + 1 /\ (j = 0 -> n <= 2 * r) /\ (j = 1 -> Z.odd q = true))).
Proof.
  intros Hq He.
  change (2 ^ 23) with 8388608 in *. change (2 ^ 25) with 33554432 in *.
  change (2 ^ 24) with 16777216.
  assert (HD : 24 <= Zdigits2 q <= 25).
  { pose proof (Zdigits2_bounds q ltac:(lia)) as [Hlo Hhi]. rewrite Z.abs_eq in * by lia.
    split.
    - destruct (Z_le_gt_dec 24 (Zdigits2 q)) as [| Hlt]; [assumption | exfalso].
      assert (2 ^ Zdigits2 q <= 2 ^ 23) by (apply Z.pow_le_mono_r; lia).
      change (2 ^ 23) with 8388608 in *. lia.
    - apply Zdigits2_le; [lia |]. rewrite Z.abs_eq by lia.
      change (2 ^ 25) with 33554432. lia. }
  unfold shr_fexp, shr. rewrite fexp_normal by lia.
  replace (Zdigits2 q + e' - 24 - e') with (Zdigits2 q - 24) by lia.
  destruct (Zdigits2 q - 24) as [| k | k] eqn:Ek; try lia.
  - (* 24 bits: nothing goes *)
    exists 0. rewrite Z.pow_0_r, Z.div_1_r, shr_record_of_loc_m, loc_of_shr_record_of_loc.
    assert (Hq24 : q < 16777216).
    { pose proof (Zdigits2_bounds q ltac:(lia)) as [_ Hhi]. rewrite Z.abs_eq in * by lia.
      replace (Zdigits2 q) with 24 in Hhi by lia. exact Hhi. }
    split; [lia |]. split; [lia |]. split; [lia |].
    pose proof (round_nearest_even_le q (new_location n r)) as Hle.
    destruct (Z.eq_dec (round_nearest_even q (new_location n r)) q) as [E | E];
      [left; exact E | right].
    split; [lia |]. split; [| lia]. intros _.
    apply new_location_up. now apply round_nearest_even_up in E.
  - (* 25 bits: one goes *)
    assert (k = 1%positive) as -> by lia. cbn [SpecFloat.iter_pos].
    exists 1. change (2 ^ 1) with 2.
    assert (Hq24 : 16777216 <= q).
    { pose proof (Zdigits2_bounds q ltac:(lia)) as [Hlo _]. rewrite Z.abs_eq in * by lia.
      replace (Zdigits2 q - 1) with 24 in Hlo by lia. exact Hlo. }
    assert (Hm1 : shr_m (shr_1 (shr_record_of_loc q (new_location n r))) = q / 2)
      by (rewrite shr_1_m, shr_record_of_loc_m; [reflexivity | rewrite shr_record_of_loc_m; lia]).
    rewrite Hm1.
    split; [lia |]. split; [lia |].
    split; [split; [apply Z.div_le_lower_bound; lia | apply Z.div_lt_upper_bound; lia] |].
    set (mrs := shr_1 (shr_record_of_loc q (new_location n r))) in *.
    pose proof (round_nearest_even_le (q / 2) (loc_of_shr_record mrs)) as Hle.
    destruct (Z.eq_dec (round_nearest_even (q / 2) (loc_of_shr_record mrs)) (q / 2))
      as [E | E]; [left; exact E | right].
    split; [lia |]. split; [lia |]. intros _.
    apply round_nearest_even_up in E.
    apply (shr_1_odd q (new_location n r)); [lia | exact E].
Qed.

(** The second shift: a rounded mantissa [m2] of 24 bits, or 2^24, at an
    exponent [e1 <= 0], truncates to [m2 / 2^(-e1)]. *)
Lemma div_second_stage (m2 e1 : Z) :
  2 ^ 23 <= m2 <= 2 ^ 24 -> -100 <= e1 <= 0 ->
  let '(mrs, e2) := shr_fexp prec emax m2 e1 loc_Exact in
  trunc (match shr_m mrs with
         | 0 => S754_zero false
         | Z.pos m => if e2 <=? emax - prec then S754_finite false m e2
                      else S754_infinity false
         | Z.neg _ => S754_nan
         end) = Some (m2 / 2 ^ (- e1)).
Proof.
  intros Hm He.
  change (2 ^ 23) with 8388608 in *. change (2 ^ 24) with 16777216 in *.
  pose proof (shr_fexp_div m2 e1 loc_Exact ltac:(lia)) as H.
  destruct (shr_fexp prec emax m2 e1 loc_Exact) as [mrs e2].
  destruct H as [He2 Hm2].
  assert (HD : 24 <= Zdigits2 m2 <= 25).
  { pose proof (Zdigits2_bounds m2 ltac:(lia)) as [Hlo Hhi]. rewrite Z.abs_eq in * by lia.
    split.
    - destruct (Z_le_gt_dec 24 (Zdigits2 m2)) as [| Hlt]; [assumption | exfalso].
      assert (2 ^ Zdigits2 m2 <= 2 ^ 23) by (apply Z.pow_le_mono_r; lia).
      change (2 ^ 23) with 8388608 in *. lia.
    - apply Zdigits2_le; [lia |]. rewrite Z.abs_eq by lia.
      change (2 ^ 25) with 33554432. lia. }
  rewrite fexp_normal in He2 by lia.
  assert (Hsh : e2 = e1 \/ (e2 = e1 + 1 /\ m2 = 16777216)).
  { destruct (Z.eq_dec (Zdigits2 m2) 24) as [E | E]; [left; lia | right].
    split; [lia |].
    pose proof (Zdigits2_bounds m2 ltac:(lia)) as [Hlo _]. rewrite Z.abs_eq in * by lia.
    replace (Zdigits2 m2 - 1) with 24 in Hlo by lia.
    change (2 ^ 24) with 16777216 in Hlo. lia. }
  assert (HP : 0 < 2 ^ (- e1)) by (apply Z.pow_pos_nonneg; lia).
  destruct Hsh as [-> | [-> ->]].
  - rewrite Z.sub_diag, Z.pow_0_r, Z.div_1_r in Hm2. rewrite Hm2.
    destruct m2 as [| p | p]; try lia.
    replace (e1 <=? emax - prec) with true
      by (symmetry; apply Z.leb_le; unfold emax, prec; lia).
    rewrite trunc_finite. cbn [cond_Zopp]. f_equal.
    destruct (e1 <? 0) eqn:E; [reflexivity |].
    apply Z.ltb_ge in E. replace e1 with 0 by lia.
    change (- 0) with 0. rewrite Z.pow_0_r, Z.div_1_r. lia.
  - replace (e1 + 1 - e1) with 1 in Hm2 by lia. rewrite Hm2.
    change (16777216 / 2 ^ 1) with 8388608.
    replace (e1 + 1 <=? emax - prec) with true
      by (symmetry; apply Z.leb_le; unfold emax, prec; lia).
    rewrite trunc_finite. cbn [cond_Zopp]. f_equal.
    destruct (e1 + 1 <? 0) eqn:E.
    + apply Z.ltb_lt in E.
      assert (0 < 2 ^ (- (e1 + 1))) by (apply Z.pow_pos_nonneg; lia).
      replace (- e1) with (1 + - (e1 + 1)) by lia.
      rewrite Z.pow_add_r by lia. change (2 ^ 1) with 2.
      rewrite <- Z.div_div by lia. reflexivity.
    + apply Z.ltb_ge in E.
      assert (e1 = -1 \/ e1 = 0) as [-> | ->] by lia; reflexivity.
Qed.

(** The quotient of two floats with full mantissas whose values are whole
    multiples of a common unit of at least 2^24 units of the quotient's
    last place: its integer part is the integer quotient. *)
Lemma div_trunc (ma mb : positive) (ea eb S : Z) :
  Z.pos (digits2_pos ma) = 24 -> Z.pos (digits2_pos mb) = 24 ->
  -23 <= ea - eb <= 23 ->
  2 ^ 24 <= S ->
  (S | Z.pos ma * 2 ^ 24) -> (S | Z.pos mb * 2 ^ (24 - (ea - eb))) ->
  trunc (S754_finite false ma ea / S754_finite false mb eb)%f32 =
  Some (Z.pos ma * 2 ^ 24 / (Z.pos mb * 2 ^ (24 - (ea - eb)))).
Proof.
  intros Da Db Hd HS [a' Ha'] [b' Hb'].
  pose proof (digits2_pos_bounds ma) as [Alo Ahi]. rewrite Da in Alo, Ahi.
  pose proof (digits2_pos_bounds mb) as [Blo Bhi]. rewrite Db in Blo, Bhi.
  change (2 ^ (24 - 1)) with 8388608 in *. change (2 ^ 24) with 16777216 in *.
  set (d := ea - eb) in *.
  set (P := 2 ^ (24 - d)) in *.
  assert (HP : 0 < P) by (apply Z.pow_pos_nonneg; lia).
  unfold div, SFdiv, SFdiv_core_binary. cbn [Zdigits2 xorb]. rewrite Da, Db.
  assert (He' : Z.min (fexp prec emax (24 + ea - (24 + eb))) (ea - eb) = d - 24).
  { unfold fexp, emin, prec, emax. subst d. lia. }
  rewrite He'. replace (ea - eb - (d - 24)) with 24 by (subst d; lia).
  rewrite Z.shiftl_mul_pow2 by lia. change (2 ^ 24) with 16777216.
  set (N := Z.pos ma * 16777216) in *.
  pose proof (Z_div_mod N (Z.pos mb) ltac:(lia)) as Hdm.
  assert (Hdiv : N / Z.pos mb = fst (Z.div_eucl N (Z.pos mb))) by reflexivity.
  destruct (Z.div_eucl N (Z.pos mb)) as [q r]. cbn [fst] in Hdiv.
  destruct Hdm as [HN Hr].
  assert (Hq : 2 ^ 23 <= q < 2 ^ 25).
  { change (2 ^ 23) with 8388608. change (2 ^ 25) with 33554432. subst N. nia. }
  rewrite <- Z.div_div by lia. rewrite Hdiv.
  unfold binary_round_aux.
  pose proof (div_first_stage q (d - 24) (Z.pos mb) r Hq ltac:(lia)) as H1.
  destruct (shr_fexp prec emax q (d - 24) (new_location (Z.pos mb) r)) as [mrs e1].
  cbv zeta in H1. destruct H1 as (j & Hj & He1 & Hm1 & Hm2).
  set (m2 := round_nearest_even (shr_m mrs) (loc_of_shr_record mrs)) in *.
  change (2 ^ 23) with 8388608 in *. change (2 ^ 24) with 16777216 in *.
  pose proof (div_second_stage m2 e1 ltac:(change (2 ^ 23) with 8388608;
                change (2 ^ 24) with 16777216; lia) ltac:(lia)) as H2.
  destruct (shr_fexp prec emax m2 e1 loc_Exact) as [mrs2 e2].
  transitivity (Some (m2 / 2 ^ (- e1))); [exact H2 |]. f_equal.
  (* the arithmetic *)
  set (P1 := 2 ^ (- e1)) in *.
  assert (HP1 : 0 < P1) by (apply Z.pow_pos_nonneg; lia).
  assert (H2j : 2 ^ j = 1 /\ j = 0 \/ 2 ^ j = 2 /\ j = 1).
  { assert (j = 0 \/ j = 1) as [-> | ->] by lia; [left | right]; split; reflexivity. }
  assert (HPP : P = 2 ^ j * P1).
  { subst P P1. rewrite <- Z.pow_add_r by lia. f_equal. lia. }
  set (m1 := q / 2 ^ j) in *.
  assert (Hk : q / P = m1 / P1).
  { rewrite HPP. subst m1. rewrite Z.div_div by lia. reflexivity. }
  rewrite Hk.
  destruct Hm2 as [-> | (-> & Hup0 & Hup1)]; [reflexivity |].
  set (k := m1 / P1).
  pose proof (Z_div_mod_eq_full m1 P1) as Hm1eq. fold k in Hm1eq.
  pose proof (Z.mod_pos_bound m1 P1 HP1) as Ht.
  set (t := m1 mod P1) in *.
  destruct (Z_lt_ge_dec (t + 1) P1) as [Hlt | Hge].
  - symmetry. apply (Z.div_unique _ _ _ (t + 1)); lia.
  - exfalso.
    assert (Hm1k : m1 + 1 = (k + 1) * P1) by lia.
    (* the rounding went up: the part dropped was at least half *)
    assert (Hhalf : (2 * m1 + 1) * (Z.pos mb * 2 ^ j) <= 2 * N).
    { destruct H2j as [[-> ->] | [-> ->]].
      - specialize (Hup0 eq_refl). subst m1. rewrite Z.div_1_r in *. nia.
      - specialize (Hup1 eq_refl).
        assert (Hqodd : q = 2 * m1 + 1).
        { subst m1. change (2 ^ 1) with 2.
          rewrite (Z.div_mod q 2) at 1 by lia. rewrite Zmod_odd, Hup1. lia. }
        nia. }
    (* the quotient is below the next whole number by a unit at least *)
    assert (HNlt : N < (k + 1) * (Z.pos mb * P)).
    { assert (q < (k + 1) * P).
      { rewrite HPP. subst m1.
        assert (q < (q / 2 ^ j + 1) * 2 ^ j).
        { pose proof (Z_div_mod_eq_full q (2 ^ j)).
          pose proof (Z.mod_pos_bound q (2 ^ j) ltac:(lia)). lia. }
        nia. }
      nia. }
    assert (Hunit : S <= (k + 1) * (Z.pos mb * P) - N).
    { rewrite Ha', Hb' in *.
      replace ((k + 1) * (b' * S) - a' * S) with (((k + 1) * b' - a') * S) by ring.
      set (c := (k + 1) * b' - a').
      assert (Hc : 0 < c * S).
      { subst c. replace (((k + 1) * b' - a') * S) with ((k + 1) * (b' * S) - a' * S) by ring.
        lia. }
      assert (0 < c).
      { destruct (Z_lt_ge_dec 0 c) as [| Hn]; [assumption | exfalso].
        assert (c * S <= 0) by (apply Z.mul_nonpos_nonneg; lia). lia. }
      assert (1 * S <= c * S) by (apply Z.mul_le_mono_nonneg_r; lia). lia. }
    assert (Hclose : 2 * ((k + 1) * (Z.pos mb * P) - N) <= Z.pos mb * 2 ^ j).
    { rewrite HPP.
      replace (2 * m1 + 1) with (2 * ((k + 1) * P1) - 1) in Hhalf by lia.
      nia. }
    destruct H2j as [[E _] | [E _]]; rewrite E in Hclose; lia.
Qed.

(** The integer part of the quotient of two whole numbers below 2^24. *)
Lemma trunc_div_of_Z (a b : Z) :
  0 <= a < 2 ^ 24 -> 0 < b < 2 ^ 24 ->
  trunc (of_Z a / of_Z b)%f32 = Some (a / b).
Proof.
  intros Ha Hb.
  destruct b as [| pb | pb]; try lia.
  pose proof (Zdigits2_le24 (Z.pos pb) ltac:(rewrite Z.abs_eq; lia)) as HDb.
  pose proof (Zdigits2_pos (Z.pos pb) ltac:(lia)) as HDb0.
  cbn [Zdigits2] in HDb, HDb0.
  rewrite (of_Z_canonical pb) by exact HDb.
  destruct a as [| pa | pa]; try lia.
  - reflexivity.
  - pose proof (Zdigits2_le24 (Z.pos pa) ltac:(rewrite Z.abs_eq; lia)) as HDa.
    pose proof (Zdigits2_pos (Z.pos pa) ltac:(lia)) as HDa0.
    cbn [Zdigits2] in HDa, HDa0.
    rewrite (of_Z_canonical pa) by exact HDa.
    set (Da := Z.pos (digits2_pos pa)) in *. set (Db := Z.pos (digits2_pos pb)) in *.
    pose proof (half_mantissa_digits (Z.pos pa) ltac:(lia) ltac:(rewrite Z.abs_eq; lia)) as Ma.
    pose proof (half_mantissa_digits (Z.pos pb) ltac:(lia) ltac:(rewrite Z.abs_eq; lia)) as Mb.
    cbn [Zdigits2 Z.abs] in Ma, Mb. fold Da in Ma. fold Db in Mb.
    assert (H2a : 0 < 2 ^ (24 - Da)) by (apply Z.pow_pos_nonneg; lia).
    assert (H2b : 0 < 2 ^ (24 - Db)) by (apply Z.pow_pos_nonneg; lia).
    assert (HS : 0 < 2 ^ (48 - Da)) by (apply Z.pow_pos_nonneg; lia).
    rewrite (div_trunc _ _ _ _ (2 ^ (48 - Da))); try assumption; try lia.
    + f_equal. rewrite !Z2Pos.id by lia.
      replace (Da - 24 - (Db - 24)) with (Da - Db) by lia.
      replace (Z.pos pa * 2 ^ (24 - Da) * 2 ^ 24) with (Z.pos pa * 2 ^ (48 - Da))
        by (rewrite <- Z.mul_assoc, <- Z.pow_add_r by lia; do 2 f_equal; lia).
      replace (Z.pos pb * 2 ^ (24 - Db) * 2 ^ (24 - (Da - Db)))
        with (Z.pos pb * 2 ^ (48 - Da))
        by (rewrite <- Z.mul_assoc, <- Z.pow_add_r by lia; do 2 f_equal; lia).
      apply Z.div_mul_cancel_r; lia.
    + apply Z.pow_le_mono_r; lia.
    + exists (Z.pos pa). rewrite Z2Pos.id by lia.
      rewrite <- Z.mul_assoc, <- Z.pow_add_r by lia. do 2 f_equal. lia.
    + exists (Z.pos pb). rewrite Z2Pos.id by lia.
      rewrite <- Z.mul_assoc, <- Z.pow_add_r by lia. do 2 f_equal. lia.
Qed.

(** ** The scan of a grid on whole pixels, in closed form *)

Lemma zscan_seqZ (step hi : Z) :
  0 < step ->
  forall (n : nat) (c : Z),
    hi - c <= Z.of_nat n * step ->
    zscan n c hi step =
    map (fun i => c + i * step) (seqZ 0 ((hi - c + step - 1) / step)).
Proof.
  intros Hstep. induction n as [| n IH]; intros c H.
  - rewrite seqZ_nil; [reflexivity |].
    assert ((hi - c + step - 1) / step < 1) by (apply Z.div_lt_upper_bound; lia). lia.
  - rewrite zscan_S. destruct (c <? hi) eqn:E.
    + apply Z.ltb_lt in E.
      assert (Hcnt : (hi - c + step - 1) / step = (hi - (c + step) + step - 1) / step + 1).
      { replace (hi - c + step - 1) with (hi - (c + step) + step - 1 + 1 * step) by lia.
        rewrite Z.div_add by lia. reflexivity. }
      assert (Hpos : 0 <= (hi - (c + step) + step - 1) / step)
        by (apply Z.div_pos; lia).
      rewrite Hcnt, seqZ_cons by lia. cbn [map].
      rewrite Z.mul_0_l, Z.add_0_r. f_equal.
      rewrite IH by lia.
      replace (Z.pred ((hi - (c + step) + step - 1) / step + 1))
        with ((hi - (c + step) + step - 1) / step) by lia.
      change (Z.succ 0) with (1 + 0). rewrite <- fmap_add_seqZ.
      change (map ?f (?g <$> ?l)) with (f <$> (g <$> l)).
      rewrite <- list_fmap_compose. apply list_fmap_ext. intros _ i _. cbn. lia.
    + apply Z.ltb_ge in E. rewrite seqZ_nil; [reflexivity |].
      assert ((hi - c + step - 1) / step < 1) by (apply Z.div_lt_upper_bound; lia). lia.
Qed.

(** The index of the cell at a whole pixel: the pixel divided by the tile
    size, rounded down, and 0 left of (or above) the origin. *)
Lemma cellIndex_of_Z (unrep : float32 -> Z) (a b : Z) :
  Z.abs a < 2 ^ 23 -> 0 < b < 2 ^ 23 ->
  uint32_of_float32 unrep (cellIndex (of_Z a) (of_Z b)) = Z.max 0 (a / b).
Proof.
  intros Ha Hb. change (2 ^ 23) with 8388608 in *.
  assert (P24 : 2 ^ 24 = 16777216) by reflexivity.
  assert (P32 : 2 ^ 32 = 4294967296) by reflexivity.
  destruct (Z_lt_ge_dec a 0) as [Hneg | Hpos].
  - rewrite cellIndex_negative.
    + assert (a / b < 0) by (apply Z.div_lt_upper_bound; lia). lia.
    + apply of_Z_positive_finite. lia.
    + unfold of_Z at 1 2. rewrite !of_Z_half by (change (2 ^ 23) with 8388608; lia).
      unfold ltb. rewrite half_ltb by lia. apply Z.ltb_lt. lia.
  - pose proof (trunc_div_of_Z a b ltac:(lia) ltac:(lia)) as Htr.
    assert (Hq : 0 <= a / b <= a).
    { split; [apply Z.div_pos; lia |]. apply Z.div_le_upper_bound; nia. }
    unfold cellIndex.
    assert (Hnn : ((of_Z a / of_Z b)%f32 <? of_Z 0)%f32 = false).
    { destruct b as [| pb | pb]; try lia.
      pose proof (Zdigits2_le24 (Z.pos pb) ltac:(rewrite Z.abs_eq; lia)) as HDb.
      cbn [Zdigits2] in HDb. rewrite (of_Z_canonical pb) by exact HDb.
      destruct a as [| pa | pa]; try lia; [reflexivity |].
      pose proof (Zdigits2_le24 (Z.pos pa) ltac:(rewrite Z.abs_eq; lia)) as HDa.
      cbn [Zdigits2] in HDa. rewrite (of_Z_canonical pa) by exact HDa.
      match goal with
      | |- context [(S754_finite false ?m1 ?e1 / S754_finite false ?m2 ?e2)%f32] =>
          pose proof (div_signed false false m1 m2 e1 e2) as Hs;
          destruct (S754_finite false m1 e1 / S754_finite false m2 e2)%f32
            as [s | s | | s m e]
      end; cbn in Hs; try contradiction; subst; reflexivity. }
    rewrite Hnn. rewrite (uint32_of_trunc unrep _ (a / b)); [lia | exact Htr | lia].
Qed.

Lemma length_concat_map {A B C : Type} (f : A -> B -> C) (xs : list A) (ys : list B) :
  length (concat (map (fun x => map (f x) ys) xs)) = (length xs * length ys)%nat.
Proof.
  induction xs as [| x xs IH]; cbn [map concat length]; [reflexivity |].
  rewrite length_app, length_map, IH. reflexivity.
Qed.

Lemma cellCount_pos (size view : Z) : 0 < size -> 0 < view -> 2 <= cellCount size view.
Proof.
  intros Hs Hv. unfold cellCount. apply Z.div_le_lower_bound; lia.
Qed.

Lemma cellCount_last (size view i : Z) :
  0 < size -> 0 <= i < cellCount size view -> 2 * size * i < 3 * size + 2 * view.
Proof.
  intros Hs [Hi0 Hi]. unfold cellCount in Hi.
  pose proof (Z.mul_div_le (5 * size + 2 * view - 1) (2 * size) ltac:(lia)).
  nia.
Qed.

Lemma visibleTiles_pixelTiles
        (unrep : float32 -> Z) (t : TileGrid) (lx ly tw th sw sh : Z) :
  on_pixels t lx ly tw th sw sh -> pixel_range lx ly tw th sw sh ->
  exists fuel : nat, forall more : nat,
    visibleTiles unrep (fuel + more) t =
    Returned (pixelTiles lx ly tw th sw sh
                (uint32_of_float32 unrep (coordZ (location t)))).
Proof.
  intros Hpix Hrange.
  pose proof (visibleTiles_on_pixels unrep t lx ly tw th sw sh Hpix Hrange) as Hvis.
  cbv zeta in Hvis.
  destruct Hpix as (HX & HY & Htw & Hth & Hhw & Hhh & Hsw & Hsh).
  destruct Hrange as (Rx & Ry & Rtw & Rth & Rsw & Rsh).
  change (2 ^ 20) with 1048576 in *.
  assert (P23 : 2 ^ 23 = 8388608) by reflexivity.
  set (X1 := 2 * lx - 2 * tw) in *. set (X2 := 2 * lx + tw + 2 * sw) in *.
  set (Y1 := 2 * ly - 2 * th) in *. set (Y2 := 2 * ly + th + 2 * sh) in *.
  set (m := Z.to_nat (Y2 - Y1)) in *. set (n := Z.to_nat (X2 - X1)) in *.
  exists (Datatypes.S (m + n)). intros more. rewrite Hvis. f_equal.
  rewrite (zscan_seqZ (2 * tw) X2 ltac:(lia) (Datatypes.S n) X1)
    by (subst n X1 X2; rewrite Nat2Z.inj_succ, Z2Nat.id by lia; nia).
  rewrite (zscan_seqZ (2 * th) Y2 ltac:(lia) (Datatypes.S m) Y1)
    by (subst m Y1 Y2; rewrite Nat2Z.inj_succ, Z2Nat.id by lia; nia).
  replace ((X2 - X1 + 2 * tw - 1) / (2 * tw)) with (cellCount tw sw)
    by (unfold cellCount; f_equal; subst X1 X2; lia).
  replace ((Y2 - Y1 + 2 * th - 1) / (2 * th)) with (cellCount th sh)
    by (unfold cellCount; f_equal; subst Y1 Y2; lia).
  unfold pixelTiles. rewrite map_map. f_equal.
  apply map_ext_in. intros i Hi. rewrite map_map. apply map_ext_in. intros j Hj.
  apply list_elem_of_In, elem_of_seqZ in Hi, Hj.
  pose proof (cellCount_last tw sw i ltac:(lia) ltac:(lia)) as Hci.
  pose proof (cellCount_last th sh j ltac:(lia) ltac:(lia)) as Hcj.
  replace (X1 + i * (2 * tw)) with (2 * (lx + (i - 1) * tw)) by (subst X1; lia).
  replace (Y1 + j * (2 * th)) with (2 * (ly + (j - 1) * th)) by (subst Y1; lia).
  rewrite <- !of_Z_half' by nia.
  unfold tileCoordAt. cbv zeta.
  fold (cellIndex (of_Z (lx + (i - 1) * tw)) (tileWidth t)).
  fold (cellIndex (of_Z (ly + (j - 1) * th)) (tileHeight t)).
  rewrite Htw, Hth, !cellIndex_of_Z by nia.
  rewrite !Z.div_add by lia.
  f_equal; f_equal; lia.
Qed.

Lemma length_pixelTiles (lx ly tw th sw sh z : Z) :
  length (pixelTiles lx ly tw th sw sh z) =
  (Z.to_nat (cellCount tw sw) * Z.to_nat (cellCount th sh))%nat.
Proof. unfold pixelTiles. now rewrite length_concat_map, !length_seqZ. Qed.

(** X9. The scan of a grid on whole pixels returns, and yields column by
    column and row by row the tiles whose indices are the pixels of the
    cells divided by the tile size, rounded down and not below zero: for
    column [i] and row [j], counted from 0, the tile
    [(max 0 (x / tileWidth + i - 1), max 0 (y / tileHeight + j - 1))].
    Their number is the product of the columns and the rows, at least two
    of each, and is the same wherever the grid is. *)
Theorem visibleTiles_by_column_and_row
        (unrep : float32 -> Z) (t : TileGrid) (lx ly tw th sw sh : Z) :
  on_pixels t lx ly tw th sw sh -> pixel_range lx ly tw th sw sh ->
  exists (fuel : nat) (tiles : list TileCoord),
    (forall more : nat, visibleTiles unrep (fuel + more) t = Returned tiles) /\
    tiles = pixelTiles lx ly tw th sw sh
              (uint32_of_float32 unrep (coordZ (location t))) /\
    Z.of_nat (length tiles) = cellCount tw sw * cellCount th sh /\
    2 <= cellCount tw sw /\ 2 <= cellCount th sh.
Proof.
  intros Hpix Hrange.
  destruct (visibleTiles_pixelTiles unrep t lx ly tw th sw sh Hpix Hrange) as [fuel H].
  destruct Hrange as (Rx & Ry & Rtw & Rth & Rsw & Rsh).
  pose proof (cellCount_pos tw sw ltac:(lia) ltac:(lia)) as Hc.
  pose proof (cellCount_pos th sh ltac:(lia) ltac:(lia)) as Hr.
  exists fuel. eexists. split; [exact H |]. split; [reflexivity |].
  rewrite length_pixelTiles. split; [| split; assumption].
  rewrite Nat2Z.inj_mul, !Z2Nat.id by lia. reflexivity.
Qed.

Lemma visibleTiles_by_column_and_row_witness :
  on_pixels origin_grid 0 0 256 256 512 512 /\
  pixel_range 0 0 256 256 512 512 /\
  exists (fuel : nat) (tiles : list TileCoord),
    (forall more : nat,
       visibleTiles unrepresentable_is_zero (fuel + more) origin_grid = Returned tiles) /\
    tiles = pixelTiles 0 0 256 256 512 512
              (uint32_of_float32 unrepresentable_is_zero (coordZ (location origin_grid))) /\
    Z.of_nat (length tiles) = cellCount 256 512 * cellCount 256 512 /\
    2 <= cellCount 256 512 /\ 2 <= cellCount 256 512.
Proof.
  assert (H1 : on_pixels origin_grid 0 0 256 256 512 512)
    by (repeat split; reflexivity).
  assert (H2 : pixel_range 0 0 256 256 512 512)
    by (unfold pixel_range; change (2 ^ 20) with 1048576; lia).
  split; [exact H1 |]. split; [exact H2 |].
  exact (visibleTiles_by_column_and_row unrepresentable_is_zero origin_grid
           0 0 256 256 512 512 H1 H2).
Defined.

(** X10. The construction with four sizes of at most 2^20 and a location
    on whole pixels of at most 2^20 in magnitude returns a grid: empty
    cache, nothing loading, empty channels, the whole tiles across the
    viewport counted, and one goroutine at its first statement for each
    tile of the scan. *)
Theorem NewTileGrid_on_pixels
        (unrep : float32 -> Z) (lx ly tw th sw sh : Z) (z : float32) :
  pixel_range lx ly tw th sw sh ->
  exists (fuel : nat) (w : World),
    (forall more : nat,
       NewTileGrid unrep (fuel + more) (mkCoord (of_Z lx) (of_Z ly) z) tw th sw sh
       = Ok (Returned w)) /\
    grid w = mkTileGrid (mkCoord (of_Z lx) (of_Z ly) z) (of_Z tw) (of_Z th)
               (of_Z tw / of_Z 2)%f32 (of_Z th / of_Z 2)%f32 (of_Z sw) (of_Z sh)
               ∅ ∅ (sw / tw) (sh / th) [] [] [] /\
    goroutines w =
      map (fun k => mkGoroutine k AtLoadLoading)
          (pixelTiles lx ly tw th sw sh (uint32_of_float32 unrep z)) /\
    fetching w = [] /\ cancelled w = [].
Proof.
  intros Hrange.
  pose proof Hrange as (Rx & Ry & Rtw & Rth & Rsw & Rsh).
  set (c0 := mkCoord (of_Z lx) (of_Z ly) z).
  set (t0 := mkTileGrid c0 (of_Z tw) (of_Z th)
               (of_Z tw / of_Z 2)%f32 (of_Z th / of_Z 2)%f32 (of_Z sw) (of_Z sh)
               ∅ ∅ (sw / tw) (sh / th) [] [] []).
  assert (Hpix : on_pixels t0 lx ly tw th sw sh) by (repeat split; reflexivity).
  destruct (visibleTiles_pixelTiles unrep t0 lx ly tw th sw sh Hpix Hrange) as [fuel Hvis].
  exists fuel,
    (mkWorld t0
       (map (fun k => mkGoroutine k AtLoadLoading)
            (pixelTiles lx ly tw th sw sh (uint32_of_float32 unrep z))) [] []).
  split; [| repeat split; reflexivity].
  intros more. unfold NewTileGrid.
  replace (sw =? 0) with false by (symmetry; apply Z.eqb_neq; lia).
  replace (sh =? 0) with false by (symmetry; apply Z.eqb_neq; lia).
  replace (tw =? 0) with false by (symmetry; apply Z.eqb_neq; lia).
  replace (th =? 0) with false by (symmetry; apply Z.eqb_neq; lia).
  cbn [orb]. cbv zeta. f_equal. fold c0.
  pose proof (SetLocation_spawns unrep (fuel + more) (mkWorld t0 [] [] []) c0) as H.
  change (set_location (grid (mkWorld t0 [] [] [])) c0) with t0 in H.
  rewrite Hvis in H.
  change (mkTileGrid c0 (of_Z tw) (of_Z th) (of_Z tw / of_Z 2)%f32 (of_Z th / of_Z 2)%f32
            (of_Z sw) (of_Z sh) ∅ ∅ (sw / tw) (sh / th) [] [] []) with t0.
  destruct (SetLocation unrep (fuel + more) (mkWorld t0 [] [] []) c0) as [w' | w'];
    cbn in H; [| contradiction].
  rewrite H. reflexivity.
Qed.

Lemma NewTileGrid_on_pixels_witness :
  pixel_range 7936 5632 256 256 1024 768 /\
  exists (fuel : nat) (w : World),
    (forall more : nat,
       NewTileGrid unrepresentable_is_zero (fuel + more)
         (mkCoord (of_Z 7936) (of_Z 5632) (of_Z 6)) 256 256 1024 768
       = Ok (Returned w)) /\
    grid w = mkTileGrid (mkCoord (of_Z 7936) (of_Z 5632) (of_Z 6)) (of_Z 256) (of_Z 256)
               (of_Z 256 / of_Z 2)%f32 (of_Z 256 / of_Z 2)%f32 (of_Z 1024) (of_Z 768)
               ∅ ∅ (1024 / 256) (768 / 256) [] [] [] /\
    goroutines w =
      map (fun k => mkGoroutine k AtLoadLoading)
          (pixelTiles 7936 5632 256 256 1024 768
             (uint32_of_float32 unrepresentable_is_zero (of_Z 6))) /\
    fetching w = [] /\ cancelled w = [].
Proof.
  assert (H : pixel_range 7936 5632 256 256 1024 768)
    by (unfold pixel_range; change (2 ^ 20) with 1048576; lia).
  split; [exact H |].
  exact (NewTileGrid_on_pixels unrepresentable_is_zero 7936 5632 256 256 1024 768
           (of_Z 6) H).
Defined.

(** ** One goroutine of [SetLocation], undisturbed *)

(** X11. A goroutine of [SetLocation] that runs from its first statement
    to its last with nothing in between sends its tile on [TilesToLoad]
    exactly when the tile is neither loading nor cached, and then marks it
    as loading; otherwise it changes nothing. It keeps [loading] and
    [cache] disjoint, and a second one for the same tile sends nothing. *)
Theorem goroutine_undisturbed (t : TileGrid) (k : TileCoord) :
  (k ∈ loading t \/ is_Some (cache t !! k) -> go_alone t k = t) /\
  (k ∉ loading t -> cache t !! k = None ->
   go_alone t k =
     set_TilesToLoad (set_loading t ({[k]} ∪ loading t)) (TilesToLoad t ++ [k])) /\
  (disjoint_loading_cache t -> disjoint_loading_cache (go_alone t k)) /\
  go_alone (go_alone t k) k = go_alone t k.
Proof.
  split; [| split; [| split]].
  - intros H. unfold go_alone. cbn.
    destruct (decide (k ∈ loading t)) as [Hin | Hout]; [reflexivity |]. cbn.
    destruct H as [H | [p Hp]]; [contradiction |]. now rewrite Hp.
  - intros Hl Hc. unfold go_alone. cbn.
    destruct (decide (k ∈ loading t)) as [Hin | Hout]; [contradiction |]. cbn.
    rewrite Hc. reflexivity.
  - apply go_alone_keeps_disjoint.
  - apply go_alone_sends_once.
Qed.

(** ** The [tile] package *)

Lemma string_of_uint_digits (d : Decimal.uint) :
  all_digits (NilEmpty.string_of_uint d) = true.
Proof. induction d; cbn; auto. Qed.

Lemma decimal_digits (n : Z) : all_digits (tile.decimal n) = true.
Proof. apply string_of_uint_digits. Qed.

Lemma decimal_inj (n n' : Z) :
  0 <= n -> 0 <= n' -> tile.decimal n = tile.decimal n' -> n = n'.
Proof.
  intros Hn Hn' H. unfold tile.decimal in H.
  apply (f_equal NilEmpty.uint_of_string) in H. rewrite !NilEmpty.usu in H.
  injection H as H. apply DecimalN.Unsigned.to_uint_inj in H. lia.
Qed.

Lemma append_cancel_l (s a b : string) : (s ++ a = s ++ b)%string -> a = b.
Proof. induction s as [| c s IH]; cbn; intros H; [exact H |]. injection H as H. auto. Qed.

(** Two strings of digits followed by a character that is no digit: the
    digits are the same and so are the rests. *)
Lemma digits_then (c : ascii) (a a' r r' : string) :
  is_digit c = false -> all_digits a = true -> all_digits a' = true ->
  (a ++ String c r = a' ++ String c r')%string -> a = a' /\ r = r'.
Proof.
  intros Hc. revert a'. induction a as [| x a IH]; intros [| x' a'] Ha Ha' H; cbn in *.
  - injection H as H. auto.
  - injection H as Hx _. subst x'. apply andb_prop in Ha' as [Hd _]. congruence.
  - injection H as Hx _. subst x. apply andb_prop in Ha as [Hd _]. congruence.
  - injection H as Hx H. subst x'.
    apply andb_prop in Ha as [_ Ha]. apply andb_prop in Ha' as [_ Ha'].
    destruct (IH a' Ha Ha' H) as [-> ->]. auto.
Qed.

(** X12. The URL of a tile is the base URL followed by
    [/z/x/y.png] in decimal, and it names its tile: for one datasource, two
    tiles with the same URL are the same tile. *)
Theorem constructPngUrl_names_the_tile (ds : tile.TileDatasource) (x y z x' y' z' : Z) :
  0 <= x -> 0 <= y -> 0 <= z -> 0 <= x' -> 0 <= y' -> 0 <= z' ->
  tile.constructPngUrl ds x y z = tile.constructPngUrl ds x' y' z' ->
  x = x' /\ y = y' /\ z = z'.
Proof.
  intros Hx Hy Hz Hx' Hy' Hz' H. unfold tile.constructPngUrl in H.
  apply append_cancel_l in H. cbn in H. injection H as H.
  apply digits_then in H as [Ez H]; try apply decimal_digits; [| reflexivity].
  apply digits_then in H as [Ex H]; try apply decimal_digits; [| reflexivity].
  change (".png")%string with (String "." "png") in H.
  apply digits_then in H as [Ey _]; try apply decimal_digits; [| reflexivity].
  repeat split; now apply decimal_inj.
Qed.

Lemma constructPngUrl_names_the_tile_witness :
  0 <= 1 /\ 0 <= 2 /\ 0 <= 3 /\
  tile.constructPngUrl tile.DefaultTileDatasource 1 2 3
    = "http://tile.openstreetmap.de/3/1/2.png"%string /\
  (1 = 1 /\ 2 = 2 /\ 3 = 3).
Proof.
  assert (H1 : 0 <= 1) by lia. assert (H2 : 0 <= 2) by lia. assert (H3 : 0 <= 3) by lia.
  split; [exact H1 |]. split; [exact H2 |]. split; [exact H3 |].
  split; [reflexivity |].
  exact (constructPngUrl_names_the_tile tile.DefaultTileDatasource 1 2 3 1 2 3
           H1 H2 H3 H1 H2 H3 eq_refl).
Defined.

(** X13. [Tile] returns a tile only where the request was made, the
    server answered with status 200, its body could be read and is a PNG;
    the tile then has the coordinates asked for and the decoded image. For
    every other status the error names the URL asked for: not found (404),
    forbidden (403), gone (410), URI too long (414), and unexpected status
    code for all the rest, other 2xx codes included. The client is the
    default datasource's, with its timeout of six minutes. *)
Theorem Tile_outcome
        (NewRequest : string -> result string)
        (Do : tile.HttpClient -> string -> result tile.Response)
        (Decode : list Byte.byte -> result N) (x y z : Z) :
  let url := tile.constructPngUrl tile.DefaultTileDatasource x y z in
  let client := tile.mkHttpClient 360000000000 in
  (forall p : PngTile,
     tile.Tile NewRequest Do Decode x y z = inl p ->
     Tile p = mkTileCoord x y z /\
     exists (req : string) (resp : tile.Response) (body : list Byte.byte),
       NewRequest url = Ok req /\ Do client req = Ok resp /\
       tile.StatusCode resp = 200 /\ tile.Body resp = Ok body /\
       Decode body = Ok (Image p)) /\
  (forall (req : string) (resp : tile.Response),
     NewRequest url = Ok req -> Do client req = Ok resp ->
     tile.StatusCode resp <> 200 ->
     tile.Tile NewRequest Do Decode x y z
     = inr (statusError (tile.StatusCode resp) url)).
Proof.
  cbv zeta. unfold tile.Tile, tile.TileOf, tile.getPngTileFromAPI.
  cbn [tile.Client tile.DefaultTileDatasource].
  change (tile.mkHttpClient (6 * 60000000000)) with (tile.mkHttpClient 360000000000).
  set (url := tile.constructPngUrl tile.DefaultTileDatasource x y z).
  split.
  - intros p H.
    destruct (NewRequest url) as [req | e] eqn:Er; [| discriminate].
    destruct (Do (tile.mkHttpClient 360000000000) req) as [resp | e] eqn:Edo; [| discriminate].
    destruct (tile.StatusCode resp =? 404); [discriminate |].
    destruct (tile.StatusCode resp =? 403); [discriminate |].
    destruct (tile.StatusCode resp =? 410); [discriminate |].
    destruct (tile.StatusCode resp =? 414); [discriminate |].
    destruct (tile.StatusCode resp =? 200) eqn:E200; [| discriminate].
    apply Z.eqb_eq in E200.
    destruct (tile.Body resp) as [body | e] eqn:Eb; [| discriminate].
    unfold tile.NewPngTile in H.
    destruct (Decode body) as [img | e] eqn:Ed; [| discriminate].
    injection H as <-. split; [reflexivity |].
    exists req, resp, body. repeat split; try reflexivity; assumption.
  - intros req resp -> -> Hs. unfold statusError.
    destruct (tile.StatusCode resp =? 404); [reflexivity |].
    destruct (tile.StatusCode resp =? 403); [reflexivity |].
    destruct (tile.StatusCode resp =? 410); [reflexivity |].
    destruct (tile.StatusCode resp =? 414); [reflexivity |].
    apply Z.eqb_neq in Hs. rewrite Hs. reflexivity.
Qed.

(** ** The cache in a run of the program *)

Lemma cache_keys_ok_deleted (t : TileGrid) (ks : list TileCoord) :
  cache_keys_ok t ->
  cache_keys_ok (set_cache t (foldl (fun c l => delete l c) (cache t) ks)).
Proof.
  intros H k p. cbn. rewrite foldl_delete_lookup.
  destruct (decide (k ∈ ks)); [discriminate | apply H].
Qed.

Lemma Move_cache_keys_ok (unrep : float32 -> Z) (fuel : nat) (w : World) (delta : Coord) :
  cache_keys_ok (grid w) ->
  cache_keys_ok (grid (run_state (Move unrep fuel w delta))).
Proof.
  intros H. unfold Move. rewrite SetLocation_grid.
  destruct (negb (coordZ delta =? of_Z 0)%f32).
  - intros k p. cbn. rewrite foldl_delete_lookup.
    destruct (decide (k ∈ _)); [discriminate | apply H].
  - exact H.
Qed.

Lemma go_step_cache (t : TileGrid) (g : goroutine) :
  cache (go_step t g).1 = cache t.
Proof.
  unfold go_step. destruct (g_pc g); cbn.
  - destruct (decide _); reflexivity.
  - destruct (cache t !! g_tile g); reflexivity.
  - reflexivity.
  - reflexivity.
Qed.

Lemma fetchTile_coordinates
      (NewRequest : string -> result string)
      (Do : tile.HttpClient -> string -> result tile.Response)
      (Decode : list Byte.byte -> result N)
      (canceled : bool) (x y z : Z) (p : PngTile) :
  fetchTile NewRequest Do Decode canceled x y z = inl (Some p) ->
  Tile p = mkTileCoord x y z.
Proof.
  unfold fetchTile, tile.Tile, tile.TileOf, tile.getPngTileFromAPI.
  destruct (NewRequest _) as [req | e]; [| destruct canceled; discriminate].
  destruct (Do _ req) as [resp | e]; [| destruct canceled; discriminate].
  destruct (tile.StatusCode resp =? 404); [destruct canceled; discriminate |].
  destruct (tile.StatusCode resp =? 403); [destruct canceled; discriminate |].
  destruct (tile.StatusCode resp =? 410); [destruct canceled; discriminate |].
  destruct (tile.StatusCode resp =? 414); [destruct canceled; discriminate |].
  destruct (tile.StatusCode resp =? 200); [| destruct canceled; discriminate].
  destruct (tile.Body resp) as [body | e]; [| destruct canceled; discriminate].
  unfold tile.NewPngTile.
  destruct (Decode body) as [img | e]; [| destruct canceled; discriminate].
  intros H. injection H as <-. reflexivity.
Qed.

Section Run.

Variable unrep : float32 -> Z.
Variable NewRequest : string -> result string.
Variable Do : tile.HttpClient -> string -> result tile.Response.
Variable Decode : list Byte.byte -> result N.
Variable loadTexture : PngTile -> result N.

Lemma act_cache_keys_ok (fuel : nat) (w w' : World) (a : action) :
  cache_keys_ok (grid w) ->
  act unrep NewRequest Do Decode loadTexture fuel w a = Some w' ->
  cache_keys_ok (grid w').
Proof.
  intros H. destruct a as [delta | i | i | j canceled]; cbn [act exec].
  - intros E. injection E as <-. now apply Move_cache_keys_ok.
  - destruct (goroutines w !! i) as [g |]; [| discriminate].
    pose proof (go_step_cache (grid w) g) as Hc.
    destruct (go_step (grid w) g) as [t g']. cbn in Hc.
    intros E. injection E as <-. intros k p. cbn. rewrite Hc. apply H.
  - destruct (TilesToLoad (grid w) !! i) as [k0 |]; [| discriminate].
    intros E. injection E as <-. exact H.
  - unfold tileLoaded.
    destruct (fetching w !! j) as [t |]; [| discriminate].
    destruct (fetchTile NewRequest Do Decode canceled (tileX t) (tileY t) (tileZ t))
      as [[p |] | err] eqn:Ef.
    + destruct (loadTexture p).
      * intros E. injection E as <-. intros k q. cbn.
        destruct (decide (t = k)) as [-> | Hne].
        -- rewrite lookup_insert_eq. intros Hq. injection Hq as <-.
           rewrite (fetchTile_coordinates _ _ _ _ _ _ _ _ Ef). now destruct k.
        -- rewrite lookup_insert_ne by exact Hne. apply H.
      * intros E. injection E as <-. exact H.
    + intros E. injection E as <-. exact H.
    + intros E. injection E as <-. exact H.
Qed.

End Run.

(** X14. In a run of the program (deltas arriving and [Move] called with
    them, goroutines of [SetLocation] taking their steps in any order, the
    loader receiving tiles and fetches coming to their end, tile set or
    not) every tile in the cache sits under its own coordinates, whatever
    the server answers. *)
Theorem cached_tiles_sit_under_their_coordinates
        (unrep : float32 -> Z)
        (NewRequest : string -> result string)
        (Do : tile.HttpClient -> string -> result tile.Response)
        (Decode : list Byte.byte -> result N)
        (loadTexture : PngTile -> result N)
        (fuel : nat) (l : list action) (w w' : World) :
  cache_keys_ok (grid w) ->
  acts unrep NewRequest Do Decode loadTexture fuel w l = Some w' ->
  cache_keys_ok (grid w').
Proof.
  revert w. induction l as [| a l IH]; intros w H; cbn [acts].
  - intros E. injection E as <-. exact H.
  - destruct (act unrep NewRequest Do Decode loadTexture fuel w a) as [w1 |] eqn:Ea;
      [| discriminate].
    apply IH. exact (act_cache_keys_ok _ _ _ _ _ _ _ _ _ H Ea).
Qed.

Lemma cached_tiles_sit_under_their_coordinates_witness :
  let NewRequest := fun url : string => Ok url in
  let Do := fun (_ : tile.HttpClient) (_ : string) =>
              Ok (tile.mkResponse 200 (Ok [])) in
  let Decode := fun _ : list Byte.byte => Ok 7%N in
  let loadTexture := fun _ : PngTile => Ok 1%N in
  let run := [ActGo 0; ActGo 0; ActGo 0; ActGo 0; ActReceive 0; ActLoaded 0 false] in
  exists w' : World,
    cache_keys_ok (grid (spawn tile006 origin_world)) /\
    acts unrepresentable_is_zero NewRequest Do Decode loadTexture 8
         (spawn tile006 origin_world) run = Some w' /\
    cache (grid w') !! tile006 = Some (mkPngTile tile006 7) /\
    cache_keys_ok (grid w').
Proof.
  cbv zeta. eexists.
  assert (H0 : cache_keys_ok (grid (spawn tile006 origin_world))).
  { intros k p H. cbn in H. now rewrite lookup_empty in H. }
  split; [exact H0 |].
  assert (E : acts unrepresentable_is_zero (fun url : string => Ok url)
                (fun (_ : tile.HttpClient) (_ : string) => Ok (tile.mkResponse 200 (Ok [])))
                (fun _ : list Byte.byte => Ok 7%N) (fun _ : PngTile => Ok 1%N) 8
                (spawn tile006 origin_world)
                [ActGo 0; ActGo 0; ActGo 0; ActGo 0; ActReceive 0; ActLoaded 0 false]
              = Some (mkWorld (set_TilesInFlight
                                 (set_cache origin_grid {[tile006 := mkPngTile tile006 7]})
                                 [tile006])
                        [] [] [])).
  { vm_compute. reflexivity. }
  split; [exact E |]. split; [reflexivity |].
  exact (cached_tiles_sit_under_their_coordinates _ _ _ _ _ _ _ _ _ H0 E).
Defined.

(** ** The arrow keys *)

Lemma of_Z_add (a b : Z) :
  Z.abs a < 2 ^ 22 -> Z.abs b < 2 ^ 22 -> (of_Z a + of_Z b)%f32 = of_Z (a + b).
Proof.
  intros Ha Hb. change (2 ^ 22) with 4194304 in *.
  assert (P23 : 2 ^ 23 = 8388608) by reflexivity.
  assert (P24 : 2 ^ 24 = 16777216) by reflexivity.
  rewrite !of_Z_half' by lia. unfold add. rewrite half_add by lia.
  f_equal. lia.
Qed.

Lemma leb_ltb_false (x y : float32) : (x <=? y)%f32 = true -> (y <? x)%f32 = false.
Proof.
  unfold leb, ltb, SFleb, SFltb. rewrite (SFcompare_antisym x y).
  destruct (SFcompare x y) as [[] |]; cbn; intros H; try discriminate; reflexivity.
Qed.

Lemma clampZoom_fixed (z : float32) : zoom_in_range z = true -> clampZoom z = z.
Proof.
  unfold zoom_in_range, clampZoom. intros H. apply andb_prop in H as [H2 H16].
  now rewrite (leb_ltb_false _ _ H16), (leb_ltb_false _ _ H2).
Qed.

Lemma Add_pan (c a : Coord) :
  (coordZ a =? of_Z 0)%f32 = true ->
  Add c a = mkCoord (coordX c + coordX a)%f32 (coordY c + coordY a)%f32
                    (clampZoom (coordZ c)).
Proof.
  intros Hz. unfold Add. destruct (eqb_zero_neither _ Hz) as [-> ->].
  destruct c as [x y z]. apply Add_clamp_last.
Qed.

(** [Add] with a delta of whole pixels and no zoom, on whole pixels. *)
Lemma Add_pan_on_pixels (lx ly dx dy : Z) (z : float32) :
  Z.abs lx < 2 ^ 22 -> Z.abs ly < 2 ^ 22 -> Z.abs dx < 2 ^ 22 -> Z.abs dy < 2 ^ 22 ->
  zoom_in_range z = true ->
  Add (mkCoord (of_Z lx) (of_Z ly) z) (mkCoord (of_Z dx) (of_Z dy) (of_Z 0)) =
  mkCoord (of_Z (lx + dx)) (of_Z (ly + dy)) z.
Proof.
  intros Hx Hy Hdx Hdy Hz. rewrite Add_pan by reflexivity.
  cbn [coordX coordY coordZ].
  rewrite clampZoom_fixed, !of_Z_add by assumption. reflexivity.
Qed.

(** X15. An arrow key pressed or held moves the map by 3 pixels, 30 with
    shift, to the left, right, up or down, exactly (on whole pixels below
    2^22 and with the zoom in range): [Move] is called with a delta without
    zoom, cancels nothing and calls [SetLocation] with the location moved. *)
Theorem arrow_key_pans (unrep : float32 -> Z) (fuel : nat) (w : World)
        (key : Key) (action : Action) (mods lx ly : Z) (z : float32) :
  location (grid w) = mkCoord (of_Z lx) (of_Z ly) z ->
  Z.abs lx < 2 ^ 22 -> Z.abs ly < 2 ^ 22 -> zoom_in_range z = true ->
  action <> Release -> key <> KeyOther ->
  exists delta : Coord,
    inputKeypressCallback key action mods = Some delta /\
    Move unrep fuel w delta =
      SetLocation unrep fuel w
        (mkCoord (of_Z (lx + (keyStep key mods).1)) (of_Z (ly + (keyStep key mods).2)) z).
Proof.
  intros Hloc Hx Hy Hz Ha Hk.
  assert (Hmove : forall dx dy : Z,
             Z.abs dx < 2 ^ 22 -> Z.abs dy < 2 ^ 22 ->
             Move unrep fuel w (mkCoord (of_Z dx) (of_Z dy) (of_Z 0)) =
             SetLocation unrep fuel w (mkCoord (of_Z (lx + dx)) (of_Z (ly + dy)) z)).
  { intros dx dy Hdx Hdy. unfold Move. cbn [coordZ].
    change ((of_Z 0 =? of_Z 0)%f32) with true. cbn [negb].
    rewrite SetLocation_set_location. cbn [grid set_grid location set_location].
    rewrite Hloc, Add_pan_on_pixels by assumption. reflexivity. }
  unfold inputKeypressCallback, keyStep.
  destruct action; [contradiction | |];
    destruct key; try contradiction;
    destruct (Z.land mods ModShift =? 0); cbn [negb fst snd];
    eexists; (split; [reflexivity |]);
    match goal with
    | |- _ = SetLocation _ _ _ (mkCoord (of_Z (lx + ?dx)) (of_Z (ly + ?dy)) _) =>
        exact (Hmove dx dy eq_refl eq_refl)
    end.
Qed.

Lemma arrow_key_pans_witness :
  location (grid origin_world) = mkCoord (of_Z 0) (of_Z 0) (of_Z 6) /\
  Z.abs 0 < 2 ^ 22 /\ zoom_in_range (of_Z 6) = true /\
  Press <> Release /\ KeyRight <> KeyOther /\
  exists delta : Coord,
    inputKeypressCallback KeyRight Press 1 = Some delta /\
    Move unrepresentable_is_zero 8 origin_world delta =
      SetLocation unrepresentable_is_zero 8 origin_world
        (mkCoord (of_Z (0 + (keyStep KeyRight 1).1)) (of_Z (0 + (keyStep KeyRight 1).2))
                 (of_Z 6)).
Proof.
  assert (H0 : Z.abs 0 < 2 ^ 22) by (change (2 ^ 22) with 4194304; cbn; lia).
  assert (Ha : Press <> Release) by discriminate.
  assert (Hk : KeyRight <> KeyOther) by discriminate.
  split; [reflexivity |]. split; [exact H0 |]. split; [reflexivity |].
  split; [exact Ha |]. split; [exact Hk |].
  exact (arrow_key_pans unrepresentable_is_zero 8 origin_world KeyRight Press 1 0 0
           (of_Z 6) eq_refl H0 H0 eq_refl Ha Hk).
Defined.

(** ** Zooming in, then out *)

Lemma double_halve_finite (s : bool) (m : positive) (e : Z) :
  double_halve (S754_finite s m e) =
  SFdiv prec emax (SFadd prec emax (SFmul prec emax (S754_finite s m e) two)
                                   (S754_zero false)) two.
Proof. reflexivity. Qed.

Lemma double_halve_exact (x : float32) :
  valid x = true -> doubles_exactly x = true -> double_halve x = x.
Proof.
  intros Hv Hx. destruct x as [[] | [] | | s m e]; try discriminate; try reflexivity.
  rewrite double_halve_finite. cbn in Hx. apply Z.ltb_lt in Hx.
  apply valid_finite in Hv as [Hhi [[HD Hlo] | [-> HD]]].
  - rewrite mul2_normal, add_finite_zero, div2_normal by lia. f_equal. lia.
  - rewrite mul2_subnormal, add_finite_zero, div2_subnormal_even by
      (try (cbn [digits2_pos]; rewrite Pos2Z.inj_succ); lia).
    reflexivity.
Qed.

Lemma ltb_neg_zero (z : float32) :
  (of_Z 0 <? z)%f32 = true -> (- z <? of_Z 0)%f32 = true.
Proof. destruct z as [[] | [] | | [] m e]; try discriminate; reflexivity. Qed.

(** X16. A zoom-in by [dz > 0] followed by a zoom-out by [-dz], both
    without pan, brings [x] and [y] back exactly, whether or not the zoom
    is clamped on the way: for every value but the finite ones of the
    largest exponent (2^127 and above in magnitude), whose double is
    infinite, and but [-0], which comes back as [+0]. *)
Theorem zoom_in_out_restores_pan (c : Coord) (dz : float32) :
  (of_Z 0 <? dz)%f32 = true ->
  let c' := Add (Add c (mkCoord (of_Z 0) (of_Z 0) dz))
                (mkCoord (of_Z 0) (of_Z 0) (- dz)%f32) in
  (valid (coordX c) = true -> doubles_exactly (coordX c) = true ->
   coordX c' = coordX c) /\
  (valid (coordY c) = true -> doubles_exactly (coordY c) = true ->
   coordY c' = coordY c).
Proof.
  intros Hdz. cbv zeta.
  rewrite (Add_zoom_in c (mkCoord (of_Z 0) (of_Z 0) dz) Hdz).
  rewrite Add_zoom_out by apply (ltb_neg_zero dz Hdz).
  cbn [coordX coordY].
  split; intros Hv Hd; now apply double_halve_exact.
Qed.

Lemma zoom_in_out_restores_pan_witness :
  let c := mkCoord (of_Z 100) (of_Z 60) (of_Z 16) in
  let dz := of_Z 1 in
  let c' := Add (Add c (mkCoord (of_Z 0) (of_Z 0) dz))
                (mkCoord (of_Z 0) (of_Z 0) (- dz)%f32) in
  (of_Z 0 <? dz)%f32 = true /\
  (valid (coordX c) = true -> doubles_exactly (coordX c) = true ->
   coordX c' = coordX c) /\
  (valid (coordY c) = true -> doubles_exactly (coordY c) = true ->
   coordY c' = coordY c).
Proof.
  cbv zeta. split; [reflexivity |].
  apply (zoom_in_out_restores_pan (mkCoord (of_Z 100) (of_Z 60) (of_Z 16)) (of_Z 1)).
  reflexivity.
Defined.

(** At the largest exponent the double is infinite and stays so. *)
Example double_halve_largest :
  double_halve (S754_finite false 8388608 104) = S754_infinity false.
Proof. vm_compute. reflexivity. Qed.

(** ** Far from the origin: a step of one tile is lost *)

Lemma shr_1_r (mrs : shr_record) :
  0 <= shr_m mrs -> shr_r (shr_1 mrs) = Z.odd (shr_m mrs).
Proof.
  destruct mrs as [m r s]. cbn [shr_m].
  destruct m as [| [p | p |] | p]; intros H; try lia; reflexivity.
Qed.

(** Shifting out [n] bits of which the first is 0 leaves a record that
    rounds down. *)
Lemma iter_shr_1_low (n : nat) (M : Z) :
  0 <= M -> (0 < n)%nat -> M mod 2 ^ Z.of_nat n < 2 ^ (Z.of_nat n - 1) ->
  let mrs := Nat.iter n shr_1 (Build_shr_record M false false) in
  shr_m mrs = M / 2 ^ Z.of_nat n /\
  round_nearest_even (shr_m mrs) (loc_of_shr_record mrs) = shr_m mrs.
Proof.
  intros HM Hn Hlow. cbv zeta. split; [now apply iter_shr_1_div |].
  destruct n as [| n]; [lia |].
  rewrite Nat.iter_succ.
  set (prev := Nat.iter n shr_1 (Build_shr_record M false false)).
  assert (Hprev : shr_m prev = M / 2 ^ Z.of_nat n) by (now apply iter_shr_1_div).
  assert (Hprev0 : 0 <= shr_m prev).
  { rewrite Hprev. apply Z.div_pos; [lia | apply Z.pow_pos_nonneg; lia]. }
  assert (Hr : shr_r (shr_1 prev) = false).
  { rewrite shr_1_r by exact Hprev0. rewrite Hprev.
    rewrite Nat2Z.inj_succ in Hlow.
    replace (Z.succ (Z.of_nat n) - 1) with (Z.of_nat n) in Hlow by lia.
    rewrite Z.pow_succ_r in Hlow by lia.
    set (P := 2 ^ Z.of_nat n) in *.
    assert (HP : 0 < P) by (apply Z.pow_pos_nonneg; lia).
    pose proof (Z_div_mod_eq_full M (2 * P)) as HMeq.
    pose proof (Z.mod_pos_bound M (2 * P) ltac:(lia)) as Hb.
    set (q := M / (2 * P)) in *. set (r := M mod (2 * P)) in *.
    assert (HMP : M / P = 2 * q).
    { symmetry. apply (Z.div_unique _ _ _ r); lia. }
    rewrite HMP. rewrite Z.odd_mul. reflexivity. }
  destruct (shr_1 prev) as [m r s]. cbn in Hr. subst r.
  destruct s; reflexivity.
Qed.

(** A float above zero plus a float above zero of less than half its unit
    in the last place is the float itself. *)
Lemma add_absorbs (m mt : positive) (e et : Z) :
  Z.pos (digits2_pos m) = 24 -> -100 <= et -> et < e -> e <= 104 ->
  Z.pos mt < 2 ^ (e - et - 1) ->
  (S754_finite false m e + S754_finite false mt et)%f32 = S754_finite false m e.
Proof.
  intros HD Het Hlt He Hmt.
  pose proof (digits2_pos_bounds m) as [Mlo Mhi]. rewrite HD in Mlo, Mhi.
  change (2 ^ (24 - 1)) with 8388608 in Mlo. change (2 ^ 24) with 16777216 in Mhi.
  set (n := e - et) in *.
  assert (Hn : 0 < n) by (subst n; lia).
  assert (H2n : 2 ^ n = 2 * 2 ^ (n - 1)).
  { replace n with (Z.succ (n - 1)) at 1 by lia. rewrite Z.pow_succ_r by lia. reflexivity. }
  assert (H2n1 : 0 < 2 ^ (n - 1)) by (apply Z.pow_pos_nonneg; lia).
  unfold add, SFadd. cbn [cond_Zopp].
  replace (Z.min e et) with et by lia.
  rewrite (shl_align_fst m e et) by lia. rewrite (shl_align_fst mt et et) by lia.
  rewrite Z.sub_diag, Z.pow_0_r, Z.mul_1_r. fold n.
  set (M := Z.pos m * 2 ^ n + Z.pos mt).
  assert (HM : 0 < M) by (subst M; nia).
  destruct M as [| pM | pM] eqn:EM; try lia.
  cbn [binary_normalize].
  assert (HDM : Z.pos (digits2_pos pM) = 24 + n).
  { apply digits2_pos_unique. rewrite <- EM.
    replace (24 + n - 1) with (23 + n) by lia.
    rewrite !Z.pow_add_r by lia.
    change (2 ^ 23) with 8388608. change (2 ^ 24) with 16777216. nia. }
  unfold binary_round, shl_align. rewrite HDM.
  rewrite (fexp_normal (24 + n + et)) by lia.
  replace (24 + n + et - 24 - et) with n by lia.
  destruct n as [| pn | pn] eqn:En; try lia.
  unfold binary_round_aux, shr_fexp, shr. cbn [Zdigits2]. rewrite HDM.
  rewrite (fexp_normal (24 + Z.pos pn + et)) by lia.
  replace (24 + Z.pos pn + et - 24 - et) with (Z.pos pn) by lia.
  cbn [shr_record_of_loc]. rewrite iter_pos_nat.
  assert (Hmod : Z.pos pM = Z.pos m * 2 ^ Z.pos pn + Z.pos mt) by (rewrite <- EM; reflexivity).
  pose proof (iter_shr_1_low (Pos.to_nat pn) (Z.pos pM) ltac:(lia) ltac:(lia)) as Hlow.
  rewrite positive_nat_Z in Hlow.
  assert (Hquot : Z.pos pM / 2 ^ Z.pos pn = Z.pos m /\ Z.pos pM mod 2 ^ Z.pos pn = Z.pos mt).
  { assert (0 < 2 ^ Z.pos pn) by (apply Z.pow_pos_nonneg; lia).
    split.
    - symmetry. apply (Z.div_unique _ _ _ (Z.pos mt)); lia.
    - symmetry. apply (Z.mod_unique _ _ (Z.pos m)); lia. }
  destruct Hquot as [Hq Hr]. rewrite Hr in Hlow. specialize (Hlow Hmt).
  cbv zeta in Hlow. destruct Hlow as [Hm1 Hrne]. rewrite Hrne, Hm1, Hq.
  cbn [Zdigits2]. rewrite HD.
  replace (et + Z.pos pn) with e by lia.
  rewrite (fexp_normal (24 + e)) by lia.
  replace (24 + e - 24 - e) with 0 by lia. cbn [shr_m shr_record_of_loc].
  replace (e <=? emax - prec) with true
    by (symmetry; apply Z.leb_le; unfold emax, prec; lia).
  reflexivity.
Qed.

(** X17. Where the first column of the scan, [location.X - tileWidth], is
    a float above zero whose unit in the last place, 2^e, is more than
    twice the tile width, a step of one tile leaves it where it is: the
    scan yields no tile at all, or it never returns. *)
Theorem far_scan_yields_nothing_or_stalls
        (unrep : float32 -> Z) (t : TileGrid) (tw : Z) (m : positive) (e : Z) :
  tileWidth t = of_Z tw -> 0 < tw < 2 ^ 24 ->
  (coordX (location t) - tileWidth t)%f32 = S754_finite false m e ->
  valid (S754_finite false m e) = true -> 2 * tw < 2 ^ e ->
  (forall fuel : nat, visibleTiles unrep (Datatypes.S fuel) t = Returned []) \/
  (forall fuel : nat, returned (visibleTiles unrep fuel t) = false).
Proof.
  intros Htw Htwr Hx1 Hv He.
  assert (He1 : 1 <= e).
  { destruct (Z_le_gt_dec 1 e) as [| Hn]; [assumption | exfalso].
    assert (2 ^ e <= 2 ^ 0) by (destruct (Z_lt_ge_dec e 0);
      [rewrite Z.pow_neg_r by lia; cbn; lia | apply Z.pow_le_mono_r; lia]).
    change (2 ^ 0) with 1 in *. lia. }
  apply valid_finite in Hv as [Hhi [[HD _] | [E _]]]; [| lia].
  assert (Hstep : (S754_finite false m e + tileWidth t)%f32 = S754_finite false m e).
  { rewrite Htw. destruct tw as [| pt | pt]; try lia.
    pose proof (Zdigits2_le24 (Z.pos pt) ltac:(rewrite Z.abs_eq; lia)) as HDt.
    pose proof (Zdigits2_pos (Z.pos pt) ltac:(lia)) as HDt0.
    cbn [Zdigits2] in HDt, HDt0.
    rewrite (of_Z_canonical pt) by exact HDt.
    set (Dt := Z.pos (digits2_pos pt)) in *.
    assert (H2 : 0 < 2 ^ (24 - Dt)) by (apply Z.pow_pos_nonneg; lia).
    apply add_absorbs; try lia.
    rewrite Z2Pos.id by lia.
    replace (e - (Dt - 24) - 1) with ((e - 1) + (24 - Dt)) by lia.
    rewrite Z.pow_add_r by lia.
    assert (H2e : 2 ^ e = 2 * 2 ^ (e - 1)).
    { replace e with (Z.succ (e - 1)) at 1 by lia. rewrite Z.pow_succ_r by lia. reflexivity. }
    apply Z.mul_lt_mono_pos_r; lia. }
  unfold visibleTiles, forEachVisibleTile, forEachCell. rewrite Hx1.
  set (x2 := (coordX (location t) + halfTileWidth t + screenWidth t)%f32).
  destruct (S754_finite false m e <? x2)%f32 eqn:Hlt.
  - right. intros fuel. now apply forX_stalls.
  - left. intros fuel. cbn [forX]. now rewrite Hlt.
Qed.

Lemma far_scan_yields_nothing_or_stalls_witness :
  let t := set_location origin_grid (mkCoord (of_Z (2 ^ 33)) (of_Z 0) (of_Z 6)) in
  tileWidth t = of_Z 256 /\ 0 < 256 < 2 ^ 24 /\
  (coordX (location t) - tileWidth t)%f32 = S754_finite false 8388608 10 /\
  valid (S754_finite false 8388608 10) = true /\ 2 * 256 < 2 ^ 10 /\
  ((forall fuel : nat,
      visibleTiles unrepresentable_is_zero (Datatypes.S fuel) t = Returned []) \/
   (forall fuel : nat, returned (visibleTiles unrepresentable_is_zero fuel t) = false)).
Proof.
  cbv zeta.
  assert (H1 : 0 < 256 < 2 ^ 24) by (change (2 ^ 24) with 16777216; lia).
  assert (H2 : 2 * 256 < 2 ^ 10) by (change (2 ^ 10) with 1024; lia).
  split; [reflexivity |]. split; [exact H1 |]. split; [vm_compute; reflexivity |].
  split; [reflexivity |]. split; [exact H2 |].
  exact (far_scan_yields_nothing_or_stalls unrepresentable_is_zero
           (set_location origin_grid (mkCoord (of_Z (2 ^ 33)) (of_Z 0) (of_Z 6)))
           256 8388608 10 eq_refl H1 eq_refl eq_refl H2).
Defined.

(** ** The errors of the construction *)

(** X18. The construction reports an error exactly when one of its four
    sizes is zero, whatever the location: the error of the viewport where
    the viewport width or height is zero, and otherwise the error of the
    tiles where the tile width or height is zero. *)
Theorem NewTileGrid_errors (unrep : float32 -> Z) (fuel : nat) (current : Coord)
        (tw th sw sh : Z) :
  ((exists msg : string, NewTileGrid unrep fuel current tw th sw sh = Err msg) <->
   tw = 0 \/ th = 0 \/ sw = 0 \/ sh = 0) /\
  (sw = 0 \/ sh = 0 ->
   NewTileGrid unrep fuel current tw th sw sh =
   Err "screen width and height must be positive") /\
  (sw <> 0 -> sh <> 0 -> tw = 0 \/ th = 0 ->
   NewTileGrid unrep fuel current tw th sw sh =
   Err "tile width and height must be positive").
Proof.
  unfold NewTileGrid.
  destruct (Z.eqb_spec sw 0) as [Esw | Esw]; destruct (Z.eqb_spec sh 0) as [Esh | Esh];
    destruct (Z.eqb_spec tw 0) as [Etw | Etw]; destruct (Z.eqb_spec th 0) as [Eth | Eth];
    cbn [orb]; (split; [split; [intros [msg H]; try discriminate; lia | intros H; eauto; lia] |]);
    (split; [intros H; try reflexivity; lia | intros H1 H2 H; try reflexivity; lia]).
Qed.

(** ** The zoom keys: in and out again *)

Lemma dyadic_0 (e : Z) : dyadic 0 e = S754_zero false.
Proof. reflexivity. Qed.

Lemma dyadic_canonical (n e : Z) :
  n <> 0 -> Z.abs n < 2 ^ 24 -> -100 <= e <= 100 ->
  dyadic n e = S754_finite (n <? 0) (Z.to_pos (Z.abs n * 2 ^ (24 - Zdigits2 n)))
                           (Zdigits2 n - 24 + e).
Proof.
  intros Hn Hb He. pose proof (Zdigits2_le n 24 ltac:(lia) Hb) as HD.
  pose proof (Zdigits2_pos n Hn) as HD0.
  unfold dyadic, binary_normalize.
  destruct n as [| p | p]; [contradiction | |]; simpl in HD, HD0;
    rewrite binary_round_small by lia; simpl Z.abs; simpl Zdigits2;
    (f_equal; lia).
Qed.

Lemma dyadic_aligned (n e ez : Z) :
  n <> 0 -> Z.abs n < 2 ^ 24 -> ez <= Zdigits2 n - 24 + e ->
  cond_Zopp (n <? 0)
    (Z.pos (fst (shl_align (Z.to_pos (Z.abs n * 2 ^ (24 - Zdigits2 n)))
                           (Zdigits2 n - 24 + e) ez)))
  = n * 2 ^ (e - ez).
Proof.
  intros Hn Hb He. pose proof (Zdigits2_le n 24 ltac:(lia) Hb) as HD.
  rewrite shl_align_fst by lia. rewrite half_mantissa by assumption.
  rewrite <- Z.mul_assoc, <- Z.pow_add_r by lia.
  replace (24 - Zdigits2 n + (Zdigits2 n - 24 + e - ez)) with (e - ez) by lia.
  unfold cond_Zopp. destruct (n <? 0) eqn:E.
  - apply Z.ltb_lt in E. rewrite Z.abs_neq by lia. lia.
  - apply Z.ltb_ge in E. rewrite Z.abs_eq by lia. lia.
Qed.

(** Sums and differences on one grid of spacing 2^e are exact while they
    fit 24 bits. *)
Lemma dyadic_add (a b e : Z) :
  Z.abs a < 2 ^ 24 -> Z.abs b < 2 ^ 24 -> Z.abs (a + b) < 2 ^ 24 ->
  -100 <= e <= 100 ->
  (dyadic a e + dyadic b e)%f32 = dyadic (a + b) e.
Proof.
  intros Ha Hb Hab He. unfold add.
  destruct (Z.eq_dec a 0) as [-> | Na].
  { rewrite dyadic_0, Z.add_0_l.
    destruct (Z.eq_dec b 0) as [-> | Nb]; [reflexivity |].
    rewrite dyadic_canonical by assumption. reflexivity. }
  destruct (Z.eq_dec b 0) as [-> | Nb].
  { rewrite dyadic_0, Z.add_0_r. rewrite dyadic_canonical by assumption. reflexivity. }
  pose proof (Zdigits2_le24 a Ha) as Da. pose proof (Zdigits2_le24 b Hb) as Db.
  pose proof (Zdigits2_pos a Na) as Da0. pose proof (Zdigits2_pos b Nb) as Db0.
  rewrite (dyadic_canonical a), (dyadic_canonical b) by assumption.
  unfold SFadd.
  set (ez := Z.min (Zdigits2 a - 24 + e) (Zdigits2 b - 24 + e)).
  rewrite (dyadic_aligned a e ez), (dyadic_aligned b e ez) by (assumption || subst ez; lia).
  rewrite <- Z.mul_add_distr_r.
  rewrite binary_normalize_scaled by (assumption || subst ez; lia).
  unfold dyadic. f_equal. subst ez. lia.
Qed.

Lemma dyadic_opp (a e : Z) :
  a <> 0 -> Z.abs a < 2 ^ 24 -> -100 <= e <= 100 ->
  (- dyadic a e)%f32 = dyadic (- a) e.
Proof.
  intros Na Ha He.
  rewrite (dyadic_canonical a), (dyadic_canonical (- a)) by (assumption || lia).
  unfold neg. cbn [SFopp]. rewrite Z.abs_opp.
  assert (Hd : Zdigits2 (- a) = Zdigits2 a) by (destruct a; reflexivity).
  rewrite Hd. f_equal.
  destruct (a <? 0) eqn:E1, (- a <? 0) eqn:E2; try reflexivity; lia.
Qed.

Lemma dyadic_sub (a b e : Z) :
  Z.abs a < 2 ^ 24 -> Z.abs b < 2 ^ 24 -> Z.abs (a - b) < 2 ^ 24 ->
  -100 <= e <= 100 ->
  (dyadic a e - dyadic b e)%f32 = dyadic (a - b) e.
Proof.
  intros Ha Hb Hab He.
  destruct (Z.eq_dec b 0) as [-> | Nb].
  { rewrite dyadic_0, Z.sub_0_r.
    destruct (Z.eq_dec a 0) as [-> | Na]; [reflexivity |].
    rewrite dyadic_canonical by assumption. reflexivity. }
  destruct (Z.eq_dec a 0) as [-> | Na].
  { rewrite dyadic_0, Z.sub_0_l. rewrite <- dyadic_opp by assumption.
    rewrite dyadic_canonical by assumption. reflexivity. }
  pose proof (Zdigits2_le24 a Ha) as Da. pose proof (Zdigits2_le24 b Hb) as Db.
  pose proof (Zdigits2_pos a Na) as Da0. pose proof (Zdigits2_pos b Nb) as Db0.
  rewrite (dyadic_canonical a), (dyadic_canonical b) by assumption.
  unfold sub, SFsub.
  set (ez := Z.min (Zdigits2 a - 24 + e) (Zdigits2 b - 24 + e)).
  rewrite (dyadic_aligned a e ez), (dyadic_aligned b e ez) by (assumption || subst ez; lia).
  rewrite <- Z.mul_sub_distr_r.
  rewrite binary_normalize_scaled by (assumption || subst ez; lia).
  unfold dyadic. f_equal. subst ez. lia.
Qed.

(** A coarser grid inside a finer one. *)
Lemma dyadic_finer (n j e : Z) :
  0 <= j -> Z.abs n < 2 ^ 24 -> -100 <= e -> e + j <= 100 ->
  dyadic (n * 2 ^ j) e = dyadic n (e + j).
Proof. intros. unfold dyadic. apply binary_normalize_scaled; lia. Qed.

Lemma dyadic_compare (a b e : Z) :
  Z.abs a < 2 ^ 24 -> Z.abs b < 2 ^ 24 -> -100 <= e <= 100 ->
  SFcompare (dyadic a e) (dyadic b e) = Some (a ?= b).
Proof.
  intros Ha Hb He.
  destruct (Z.eq_dec a 0) as [-> | Na]; destruct (Z.eq_dec b 0) as [-> | Nb].
  - reflexivity.
  - rewrite dyadic_0, (dyadic_canonical b) by assumption.
    destruct b; [contradiction | reflexivity | reflexivity].
  - rewrite dyadic_0, (dyadic_canonical a) by assumption.
    destruct a; [contradiction | reflexivity | reflexivity].
  - rewrite (dyadic_canonical a), (dyadic_canonical b) by assumption.
    unfold SFcompare. f_equal.
    assert (Hshift : forall x y : Z, (x - 24 + e ?= y - 24 + e) = (x - 25 ?= y - 25)).
    { intros x y. destruct (Z.compare_spec (x - 25) (y - 25)) as [H | H | H].
      - apply Z.compare_eq_iff. lia.
      - apply Z.compare_lt_iff. lia.
      - apply Z.compare_gt_iff. lia. }
    rewrite !Hshift.
    destruct (a <? 0) eqn:Ea, (b <? 0) eqn:Eb.
    + assert (Hd : forall n, Zdigits2 n = Zdigits2 (- n)) by (intros []; reflexivity).
      pose proof (half_compare_pos (- b) (- a) ltac:(lia) ltac:(lia)) as H.
      rewrite <- !Hd, !Z.abs_opp in H.
      rewrite Z.compare_opp in H. rewrite <- H.
      rewrite (Z.compare_antisym (Zdigits2 a - 25) (Zdigits2 b - 25)).
      destruct (Zdigits2 a - 25 ?= Zdigits2 b - 25); simpl; try reflexivity.
      now rewrite Pos.compare_cont_antisym.
    + symmetry. apply Z.compare_lt_iff. lia.
    + symmetry. apply Z.compare_gt_iff. lia.
    + apply half_compare_pos; lia.
Qed.

Lemma dyadic_ltb (a b e : Z) :
  Z.abs a < 2 ^ 24 -> Z.abs b < 2 ^ 24 -> -100 <= e <= 100 ->
  (dyadic a e <? dyadic b e)%f32 = (a <? b).
Proof.
  intros Ha Hb He. unfold ltb, SFltb. rewrite dyadic_compare by assumption.
  unfold Z.ltb. destruct (a ?= b); reflexivity.
Qed.

Lemma Zdigits2_mul (a b : Z) :
  a <> 0 -> b <> 0 ->
  Zdigits2 a + Zdigits2 b - 1 <= Zdigits2 (a * b) <= Zdigits2 a + Zdigits2 b.
Proof.
  intros Na Nb.
  pose proof (Zdigits2_bounds a Na) as [Alo Ahi].
  pose proof (Zdigits2_bounds b Nb) as [Blo Bhi].
  pose proof (Zdigits2_bounds (a * b) ltac:(nia)) as [Plo Phi].
  pose proof (Zdigits2_pos a Na) as Da. pose proof (Zdigits2_pos b Nb) as Db.
  pose proof (Zdigits2_pos (a * b) ltac:(nia)) as Dp.
  rewrite Z.abs_mul in Plo, Phi.
  assert (Hlo : 2 ^ (Zdigits2 a - 1 + (Zdigits2 b - 1)) <= Z.abs a * Z.abs b).
  { rewrite Z.pow_add_r by lia.
    apply Z.mul_le_mono_nonneg; try assumption; apply Z.pow_nonneg; lia. }
  assert (Hhi : Z.abs a * Z.abs b < 2 ^ (Zdigits2 a + Zdigits2 b)).
  { rewrite Z.pow_add_r by lia.
    apply Z.mul_lt_mono_nonneg; try assumption; lia. }
  split.
  - destruct (Z_le_gt_dec (Zdigits2 a + Zdigits2 b - 1) (Zdigits2 (a * b))) as [| Hgt];
      [assumption | exfalso].
    assert (2 ^ Zdigits2 (a * b) <= 2 ^ (Zdigits2 a - 1 + (Zdigits2 b - 1)))
      by (apply Z.pow_le_mono_r; lia).
    lia.
  - destruct (Z_le_gt_dec (Zdigits2 (a * b)) (Zdigits2 a + Zdigits2 b)) as [| Hgt];
      [assumption | exfalso].
    assert (2 ^ (Zdigits2 a + Zdigits2 b) <= 2 ^ (Zdigits2 (a * b) - 1))
      by (apply Z.pow_le_mono_r; lia).
    lia.
Qed.

(** Products are exact while they fit 24 bits. *)
Lemma dyadic_mul (a b e1 e2 : Z) :
  a <> 0 -> b <> 0 -> Z.abs (a * b) < 2 ^ 24 ->
  -50 <= e1 <= 50 -> -50 <= e2 <= 50 ->
  (dyadic a e1 * dyadic b e2)%f32 = dyadic (a * b) (e1 + e2).
Proof.
  intros Na Nb Hab He1 He2.
  assert (Ha : Z.abs a < 2 ^ 24) by (rewrite Z.abs_mul in Hab; nia).
  assert (Hb : Z.abs b < 2 ^ 24) by (rewrite Z.abs_mul in Hab; nia).
  assert (Nab : a * b <> 0) by nia.
  pose proof (Zdigits2_le24 a Ha) as Da. pose proof (Zdigits2_le24 b Hb) as Db.
  pose proof (Zdigits2_le24 (a * b) Hab) as Dab.
  pose proof (Zdigits2_pos a Na) as Da0. pose proof (Zdigits2_pos b Nb) as Db0.
  pose proof (Zdigits2_mul a b Na Nb) as [Dlo Dhi].
  rewrite (dyadic_canonical a), (dyadic_canonical b), (dyadic_canonical (a * b))
    by (assumption || lia).
  unfold mul, SFmul.
  set (ma := Z.to_pos (Z.abs a * 2 ^ (24 - Zdigits2 a))).
  set (mb := Z.to_pos (Z.abs b * 2 ^ (24 - Zdigits2 b))).
  set (mab := Z.to_pos (Z.abs (a * b) * 2 ^ (24 - Zdigits2 (a * b)))).
  assert (Hma : Z.pos ma = Z.abs a * 2 ^ (24 - Zdigits2 a)) by (apply half_mantissa; assumption).
  assert (Hmb : Z.pos mb = Z.abs b * 2 ^ (24 - Zdigits2 b)) by (apply half_mantissa; assumption).
  assert (Hmab : Z.pos mab = Z.abs (a * b) * 2 ^ (24 - Zdigits2 (a * b)))
    by (apply half_mantissa; assumption).
  set (j := Zdigits2 (a * b) + 24 - Zdigits2 a - Zdigits2 b).
  assert (Hp : Z.pos (ma * mb) = Z.pos mab * 2 ^ j).
  { rewrite Pos2Z.inj_mul, Hma, Hmb, Hmab, Z.abs_mul.
    rewrite <- (Z.mul_assoc _ (2 ^ (24 - Zdigits2 (a * b)))), <- Z.pow_add_r by (subst j; lia).
    replace (24 - Zdigits2 (a * b) + j) with ((24 - Zdigits2 a) + (24 - Zdigits2 b))
      by (subst j; lia).
    rewrite Z.pow_add_r by lia. ring. }
  assert (Hs : xorb (a <? 0) (b <? 0) = (a * b <? 0)).
  { destruct (a <? 0) eqn:E1, (b <? 0) eqn:E2, (a * b <? 0) eqn:E3; try reflexivity;
      exfalso; nia. }
  rewrite Hs.
  rewrite (round_aux_shift (a * b <? 0) (ma * mb) mab
             (Zdigits2 a - 24 + e1 + (Zdigits2 b - 24 + e2)) j).
  - f_equal. subst j. lia.
  - subst j. lia.
  - exact Hp.
  - rewrite (digits2_pos_shift _ mab j) by (subst j; lia || exact Hp).
    subst mab. rewrite half_mantissa_digits by assumption.
    unfold fexp, emin, prec, emax. subst j. lia.
  - unfold emax, prec. subst j. lia.
Qed.

(** Dividing by a power of two takes it off the exponent, while the
    quotient is not below the normal range. *)
Lemma div_pow2_normal (s : bool) (m : positive) (e k : Z) :
  Z.pos (digits2_pos m) = 24 -> k - 148 <= e -> e - k <= 104 ->
  SFdiv prec emax (S754_finite s m e) (S754_finite false 8388608 (k - 23))
  = S754_finite s m (e - k).
Proof.
  intros HD Hlo Hhi. unfold SFdiv, SFdiv_core_binary.
  cbn [Zdigits2]. rewrite HD. change (Z.pos (digits2_pos 8388608)) with 24.
  rewrite xorb_false_r.
  assert (He' : Z.min (fexp prec emax (24 + e - (24 + (k - 23)))) (e - (k - 23)) = e - k - 1).
  { unfold fexp, emin, prec, emax. lia. }
  rewrite He'. replace (e - (k - 23) - (e - k - 1)) with 24 by lia.
  rewrite Z.shiftl_mul_pow2 by lia.
  rewrite (div_eucl_exact _ _ (Z.pos m~0))
    by (reflexivity || (change (2 ^ 24) with (2 * 8388608); lia)).
  change (new_location 8388608 0) with loc_Exact.
  rewrite (round_aux_shift s (m~0) m (e - k - 1) 1).
  - f_equal. lia.
  - lia.
  - lia.
  - cbn [digits2_pos]. rewrite Pos2Z.inj_succ, HD.
    unfold fexp, emin, prec, emax. lia.
  - unfold emax, prec. lia.
Qed.

Lemma dyadic_div_pow2 (a e k : Z) :
  Z.abs a < 2 ^ 24 -> -50 <= e <= 50 -> 0 <= k <= 40 ->
  (dyadic a e / S754_finite false 8388608 (k - 23))%f32 = dyadic a (e - k).
Proof.
  intros Ha He Hk.
  destruct (Z.eq_dec a 0) as [-> | Na]; [reflexivity |].
  pose proof (Zdigits2_le24 a Ha) as Da. pose proof (Zdigits2_pos a Na) as Da0.
  rewrite (dyadic_canonical a e), (dyadic_canonical a (e - k)) by (assumption || lia).
  unfold div. rewrite div_pow2_normal.
  - f_equal. lia.
  - apply half_mantissa_digits; assumption.
  - lia.
  - lia.
Qed.

Lemma dyadic_div2 (a e : Z) :
  Z.abs a < 2 ^ 24 -> -50 <= e <= 50 -> (dyadic a e / of_Z 2)%f32 = dyadic a (e - 1).
Proof. intros Ha He. apply (dyadic_div_pow2 a e 1); lia. Qed.

Lemma dyadic_div4 (a e : Z) :
  Z.abs a < 2 ^ 24 -> -50 <= e <= 50 -> (dyadic a e / of_Z 4)%f32 = dyadic a (e - 2).
Proof. intros Ha He. apply (dyadic_div_pow2 a e 2); lia. Qed.

Lemma dyadic_mul2 (a e : Z) :
  Z.abs a < 2 ^ 24 -> -50 <= e <= 49 -> (dyadic a e * of_Z 2)%f32 = dyadic a (e + 1).
Proof.
  intros Ha He.
  destruct (Z.eq_dec a 0) as [-> | Na]; [reflexivity |].
  pose proof (Zdigits2_le24 a Ha) as Da. pose proof (Zdigits2_pos a Na) as Da0.
  rewrite (dyadic_canonical a e), (dyadic_canonical a (e + 1)) by (assumption || lia).
  change (of_Z 2) with two. unfold mul. rewrite mul2_normal.
  - f_equal. lia.
  - apply half_mantissa_digits; assumption.
  - lia.
  - lia.
Qed.

Lemma of_Z_dyadic (n : Z) : of_Z n = dyadic n 0.
Proof. reflexivity. Qed.

Lemma clampZoom_of_Z (n : Z) :
  Z.abs n < 2 ^ 24 -> clampZoom (of_Z n) = of_Z (Z.max MIN_ZOOM (Z.min MAX_ZOOM n)).
Proof.
  intros Hn. unfold clampZoom, MAX_ZOOM, MIN_ZOOM. rewrite !of_Z_dyadic.
  rewrite !dyadic_ltb by (try assumption; try (cbn; lia); lia).
  destruct (Z.ltb_spec 16 n); [f_equal; lia |].
  destruct (Z.ltb_spec n 2); f_equal; lia.
Qed.

(** The loops over one grid of spacing 2^e return. *)
Lemma forY_dyadic {S : Type} (t : TileGrid) (body : float32 -> S -> S) (e hi step : Z) :
  -100 <= e <= 100 -> tileHeight t = dyadic step e -> 0 < step < 2 ^ 24 ->
  - 2 ^ 24 < hi -> hi + step < 2 ^ 24 ->
  forall (n : nat) (c : Z) (s : S),
    Z.abs c < 2 ^ 24 -> hi - c <= Z.of_nat n * step ->
    returned (forY (Datatypes.S n) t body (dyadic c e) (dyadic hi e) s) = true.
Proof.
  intros He Ht Hstep Hlo Hhi. induction n as [| n IH]; intros c s Hc H;
    rewrite forY_S; rewrite dyadic_ltb by lia;
    destruct (c <? hi) eqn:E; try reflexivity.
  - apply Z.ltb_lt in E. lia.
  - apply Z.ltb_lt in E.
    rewrite Ht. rewrite dyadic_add by lia. apply IH; lia.
Qed.

Lemma forY_returned_more {S : Type} (t : TileGrid) (body : float32 -> S -> S)
      (y y2 : float32) (s : S) (n m : nat) :
  returned (forY n t body y y2 s) = true ->
  exists s' : S, forY (n + m) t body y y2 s = Returned s'.
Proof.
  destruct (forY n t body y y2 s) as [s' | s'] eqn:E; [| discriminate].
  intros _. exists s'. now apply forY_more_fuel.
Qed.

Lemma forX_dyadic {S : Type} (t : TileGrid) (body : float32 -> float32 -> S -> S)
      (e hi stepx y1 y2 stepy : Z) (m : nat) :
  -100 <= e <= 100 ->
  tileWidth t = dyadic stepx e -> tileHeight t = dyadic stepy e ->
  0 < stepx < 2 ^ 24 -> 0 < stepy < 2 ^ 24 ->
  - 2 ^ 24 < hi -> hi + stepx < 2 ^ 24 ->
  - 2 ^ 24 < y2 -> y2 + stepy < 2 ^ 24 -> Z.abs y1 < 2 ^ 24 ->
  y2 - y1 <= Z.of_nat m * stepy ->
  forall (n : nat) (c : Z) (s : S),
    Z.abs c < 2 ^ 24 -> hi - c <= Z.of_nat n * stepx ->
    returned (forX (Datatypes.S (m + n)) t body (dyadic c e) (dyadic hi e)
                   (dyadic y1 e) (dyadic y2 e) s) = true.
Proof.
  intros He Htw Hth Hsx Hsy Hlo Hhi Hylo Hyhi Hy1 Hm.
  induction n as [| n IH]; intros c s Hc H;
    rewrite forX_S; rewrite dyadic_ltb by lia;
    destruct (c <? hi) eqn:E; try reflexivity.
  - apply Z.ltb_lt in E. lia.
  - apply Z.ltb_lt in E.
    pose proof (forY_dyadic t (body (dyadic c e)) e y2 stepy He Hth Hsy Hylo Hyhi
                  m y1 s Hy1 Hm) as Hy.
    apply (forY_returned_more _ _ _ _ _ _ (Datatypes.S n)) in Hy as [s' Hy].
    replace (Datatypes.S (m + Datatypes.S n)) with (Datatypes.S m + Datatypes.S n)%nat by lia.
    rewrite Hy.
    rewrite Htw. rewrite dyadic_add by lia.
    replace (m + Datatypes.S n)%nat with (Datatypes.S (m + n)) by lia.
    apply IH; lia.
Qed.

Lemma forX_returned_more {S : Type} (t : TileGrid)
      (body : float32 -> float32 -> S -> S) (x x2 y1 y2 : float32) (s : S) (n m : nat) :
  returned (forX n t body x x2 y1 y2 s) = true ->
  returned (forX (n + m) t body x x2 y1 y2 s) = true.
Proof.
  destruct (forX n t body x x2 y1 y2 s) as [s' | s'] eqn:E; [| discriminate].
  intros _. now rewrite (forX_more_fuel t body x2 y1 y2 s' n x s E m).
Qed.

(** The scan of a grid whose location and sizes sit on one grid of spacing
    2^e returns. *)
Lemma scan_returns_dyadic {S : Type} (unrep : float32 -> Z) (t : TileGrid)
      (f : TileCoord -> S -> S) (e X Y TW TH HW HH SW SH : Z) :
  -100 <= e <= 100 ->
  coordX (location t) = dyadic X e -> coordY (location t) = dyadic Y e ->
  tileWidth t = dyadic TW e -> tileHeight t = dyadic TH e ->
  halfTileWidth t = dyadic HW e -> halfTileHeight t = dyadic HH e ->
  screenWidth t = dyadic SW e -> screenHeight t = dyadic SH e ->
  0 < TW -> 0 < TH -> 0 <= HW -> 0 <= HH -> 0 <= SW -> 0 <= SH ->
  Z.abs X + TW + HW + SW < 2 ^ 24 -> Z.abs Y + TH + HH + SH < 2 ^ 24 ->
  exists fuel : nat, forall (more : nat) (s : S),
    returned (forEachVisibleTile unrep (fuel + more) t f s) = true.
Proof.
  intros He HX HY Htw Hth Hhw Hhh Hsw Hsh Ptw Pth Phw Phh Psw Psh Bx By.
  set (m := Z.to_nat (Y + HH + SH - (Y - TH))).
  set (n := Z.to_nat (X + HW + SW - (X - TW))).
  exists (Datatypes.S (m + n)). intros more s.
  unfold forEachVisibleTile, forEachCell. apply forX_returned_more.
  rewrite HX, HY, Htw, Hth, Hhw, Hhh, Hsw, Hsh.
  rewrite !dyadic_sub, !dyadic_add by lia.
  apply (forX_dyadic t _ e (X + HW + SW) TW (Y - TH) (Y + HH + SH) TH m); try lia.
  - rewrite Htw. reflexivity.
  - rewrite Hth. reflexivity.
  - subst m. rewrite Z2Nat.id by lia. nia.
  - subst n. rewrite Z2Nat.id by lia. nia.
Qed.

(** [Move] with a zoom delta, as one call of [SetLocation]. *)
Lemma Move_zoom (unrep : float32 -> Z) (fuel : nat) (w : World) (delta : Coord) :
  (coordZ delta =? of_Z 0)%f32 = false ->
  Move unrep fuel w delta =
  SetLocation unrep fuel
    (CancelLoadingTiles (set_grid w (set_location (grid w) (Add (location (grid w)) delta))))
    (moved (grid w) delta).
Proof.
  intros H. unfold Move, moved. rewrite H. cbn [negb]. cbv zeta.
  rewrite SetLocation_set_location.
  unfold CancelLoadingTiles. cbn [grid set_grid location set_location].
  unfold recentre.
  cbn [ScreenTileWidth ScreenTileHeight tileWidth tileHeight set_loading set_cache
       set_TilesToLoad set_TilesInFlight set_location location].
  reflexivity.
Qed.

(** What [Move] leaves of the grid's sizes. *)
Lemma Move_sizes (unrep : float32 -> Z) (fuel : nat) (w : World) (delta : Coord) :
  let t := grid w in
  let t' := grid (run_state (Move unrep fuel w delta)) in
  location t' = moved t delta /\
  tileWidth t' = tileWidth t /\ tileHeight t' = tileHeight t /\
  halfTileWidth t' = halfTileWidth t /\ halfTileHeight t' = halfTileHeight t /\
  screenWidth t' = screenWidth t /\ screenHeight t' = screenHeight t /\
  ScreenTileWidth t' = ScreenTileWidth t /\ ScreenTileHeight t' = ScreenTileHeight t.
Proof.
  cbv zeta. split; [apply Move_location |].
  unfold Move. rewrite SetLocation_grid.
  destruct (negb (coordZ delta =? of_Z 0)%f32); repeat split; reflexivity.
Qed.

Lemma moved_zoom_in (t : TileGrid) :
  moved t (mkCoord (of_Z 0) (of_Z 0) (of_Z 1)) =
  mkCoord ((coordX (location t) + of_Z 0) * of_Z 2
           + of_Z (ScreenTileWidth t) / of_Z 2 * tileWidth t)%f32
          ((coordY (location t) + of_Z 0) * of_Z 2
           + of_Z (ScreenTileHeight t) / of_Z 2 * tileHeight t)%f32
          (clampZoom (clampZoom (coordZ (location t) + of_Z 1)%f32)).
Proof.
  unfold moved. cbn [coordZ].
  change ((of_Z 1 =? of_Z 0)%f32) with false. cbn [negb].
  rewrite (Add_zoom_in (location t)) by reflexivity.
  rewrite Add_pan by reflexivity. reflexivity.
Qed.

Lemma moved_zoom_out (t : TileGrid) :
  moved t (mkCoord (of_Z 0) (of_Z 0) (of_Z (-1))) =
  mkCoord ((coordX (location t) + of_Z 0) / of_Z 2
           + - of_Z (ScreenTileWidth t) / of_Z 4 * tileWidth t)%f32
          ((coordY (location t) + of_Z 0) / of_Z 2
           + - of_Z (ScreenTileHeight t) / of_Z 4 * tileHeight t)%f32
          (clampZoom (clampZoom (coordZ (location t) + of_Z (-1))%f32)).
Proof.
  unfold moved. cbn [coordZ].
  change ((of_Z (-1) =? of_Z 0)%f32) with false. cbn [negb].
  rewrite (Add_zoom_out (location t)) by reflexivity.
  rewrite Add_pan by reflexivity. reflexivity.
Qed.

(** The shift of the zoom-in: half the whole tiles across, in pixels. *)
Lemma shift_in (n size : Z) :
  0 <= n -> 0 < size < 2 ^ 24 -> n * size < 2 ^ 24 ->
  (of_Z n / of_Z 2 * of_Z size)%f32 = dyadic (n * size) (-1).
Proof.
  intros Hn Hs Hb. rewrite !of_Z_dyadic.
  assert (Hn24 : Z.abs n < 2 ^ 24) by nia.
  rewrite dyadic_div2 by lia.
  destruct (Z.eq_dec n 0) as [-> | Nn].
  - rewrite Z.mul_0_l, !dyadic_0, (dyadic_canonical size) by lia.
    unfold mul. cbn [SFmul]. destruct (Z.ltb_spec size 0); [lia | reflexivity].
  - rewrite dyadic_mul by lia. reflexivity.
Qed.

(** The shift of the zoom-out: a quarter of them, to the left, which is
    [-0] where no whole tile fits. *)
Lemma shift_out (n size : Z) :
  0 <= n -> 0 < size < 2 ^ 24 -> n * size < 2 ^ 24 ->
  (- of_Z n / of_Z 4 * of_Z size)%f32 =
  if n =? 0 then S754_zero true else dyadic (- (n * size)) (-2).
Proof.
  intros Hn Hs Hb. destruct (Z.eqb_spec n 0) as [-> | Nn].
  { rewrite (of_Z_dyadic size), (dyadic_canonical size) by lia.
    change (- of_Z 0 / of_Z 4)%f32 with (S754_zero true).
    unfold mul. cbn [SFmul]. destruct (Z.ltb_spec size 0); [lia | reflexivity]. }
  rewrite !of_Z_dyadic.
  assert (Hn24 : Z.abs n < 2 ^ 24) by nia.
  rewrite dyadic_opp by lia.
  rewrite dyadic_div4 by lia.
  rewrite dyadic_mul by lia. f_equal. lia.
Qed.

Lemma dyadic_add_shift_out (a n size : Z) :
  0 <= n -> 0 < size -> n * size < 2 ^ 24 ->
  Z.abs a < 2 ^ 24 -> Z.abs (a - n * size) < 2 ^ 24 ->
  (dyadic a (-2) + (if Z.eqb n 0 then S754_zero true else dyadic (- (n * size)) (-2)))%f32
  = dyadic (a - n * size) (-2).
Proof.
  intros Hn Hs Hb Ha Hd. destruct (Z.eqb_spec n 0) as [-> | Nn].
  - rewrite Z.mul_0_l, Z.sub_0_r.
    destruct (Z.eq_dec a 0) as [-> | Na]; [reflexivity |].
    rewrite dyadic_canonical by lia. reflexivity.
  - rewrite dyadic_add by lia. f_equal.
Qed.

Lemma dyadic_add_0 (a e : Z) :
  Z.abs a < 2 ^ 24 -> -100 <= e <= 100 -> (dyadic a e + of_Z 0)%f32 = dyadic a e.
Proof.
  intros Ha He. change (of_Z 0) with (dyadic 0 e).
  rewrite dyadic_add by (try assumption; try lia; rewrite Z.add_0_r; assumption).
  now rewrite Z.add_0_r.
Qed.

Lemma zoom_after_in (k : Z) :
  MIN_ZOOM <= k <= MAX_ZOOM ->
  clampZoom (clampZoom (of_Z k + of_Z 1)%f32) = of_Z (Z.min MAX_ZOOM (k + 1)).
Proof.
  unfold MIN_ZOOM, MAX_ZOOM. intros Hk.
  rewrite of_Z_add by (change (2 ^ 22) with 4194304; lia).
  rewrite !clampZoom_of_Z by (change (2 ^ 24) with 16777216; unfold MIN_ZOOM, MAX_ZOOM; lia).
  unfold MIN_ZOOM, MAX_ZOOM. f_equal. lia.
Qed.

Lemma zoom_after_out (k : Z) :
  MIN_ZOOM <= k <= MAX_ZOOM ->
  clampZoom (clampZoom (of_Z k + of_Z (-1))%f32) = of_Z (Z.max MIN_ZOOM (k - 1)).
Proof.
  unfold MIN_ZOOM, MAX_ZOOM. intros Hk.
  rewrite of_Z_add by (change (2 ^ 22) with 4194304; lia).
  rewrite !clampZoom_of_Z by (change (2 ^ 24) with 16777216; unfold MIN_ZOOM, MAX_ZOOM; lia).
  unfold MIN_ZOOM, MAX_ZOOM. f_equal. lia.
Qed.

(** A zoom step to a location on the grid of spacing 2^e returns. *)
Lemma Move_zoom_returns (unrep : float32 -> Z) (w : World) (delta : Coord)
      (e X Y TW TH HW HH SW SH : Z) (z : float32) :
  (coordZ delta =? of_Z 0)%f32 = false ->
  moved (grid w) delta = mkCoord (dyadic X e) (dyadic Y e) z ->
  -100 <= e <= 100 ->
  tileWidth (grid w) = dyadic TW e -> tileHeight (grid w) = dyadic TH e ->
  halfTileWidth (grid w) = dyadic HW e -> halfTileHeight (grid w) = dyadic HH e ->
  screenWidth (grid w) = dyadic SW e -> screenHeight (grid w) = dyadic SH e ->
  0 < TW -> 0 < TH -> 0 <= HW -> 0 <= HH -> 0 <= SW -> 0 <= SH ->
  Z.abs X + TW + HW + SW < 2 ^ 24 -> Z.abs Y + TH + HH + SH < 2 ^ 24 ->
  exists fuel : nat, forall more : nat,
    returned (Move unrep (fuel + more) w delta) = true.
Proof.
  intros Hd Hm He H1 H2 H3 H4 H5 H6 Ptw Pth Phw Phh Psw Psh BX BY.
  set (wc := CancelLoadingTiles
               (set_grid w (set_location (grid w) (Add (location (grid w)) delta)))).
  set (loc := moved (grid w) delta) in *.
  destruct (scan_returns_dyadic unrep (set_location (grid wc) loc) spawn
              e X Y TW TH HW HH SW SH He) as [fuel Hfuel]; try assumption.
  - cbn [location set_location]. rewrite Hm. reflexivity.
  - cbn [location set_location]. rewrite Hm. reflexivity.
  - exists fuel. intros more. rewrite Move_zoom by exact Hd.
    fold wc. fold loc. unfold SetLocation. apply Hfuel.
Qed.

(** One zoom-in from a location on the grid of spacing 1/4: the pan ends
    on the grid of spacing 1/2. *)
Lemma moved_in_quarter (t : TileGrid) (A B tw th k : Z) :
  location t = mkCoord (dyadic A (-2)) (dyadic B (-2)) (of_Z k) ->
  tileWidth t = of_Z tw -> tileHeight t = of_Z th ->
  0 < tw < 2 ^ 23 -> 0 < th < 2 ^ 23 ->
  0 <= ScreenTileWidth t -> 0 <= ScreenTileHeight t ->
  ScreenTileWidth t * tw < 2 ^ 23 -> ScreenTileHeight t * th < 2 ^ 23 ->
  Z.abs A < 2 ^ 23 -> Z.abs B < 2 ^ 23 -> MIN_ZOOM <= k <= MAX_ZOOM ->
  moved t (mkCoord (of_Z 0) (of_Z 0) (of_Z 1)) =
  mkCoord (dyadic (A + ScreenTileWidth t * tw) (-1))
          (dyadic (B + ScreenTileHeight t * th) (-1))
          (of_Z (Z.min MAX_ZOOM (k + 1))).
Proof.
  intros Hloc Htw Hth Rtw Rth Px Py Sx Sy RA RB Hk.
  change (2 ^ 23) with 8388608 in *.
  assert (P24 : 2 ^ 24 = 16777216) by reflexivity.
  rewrite moved_zoom_in, Hloc, Htw, Hth. cbn [coordX coordY coordZ].
  rewrite zoom_after_in by exact Hk.
  rewrite !shift_in by lia.
  rewrite !dyadic_add_0 by lia.
  rewrite !dyadic_mul2 by lia.
  change (-2 + 1) with (-1).
  rewrite !dyadic_add by lia. reflexivity.
Qed.

(** One zoom-out from a location on the grid of spacing 1/2: the pan ends
    on the grid of spacing 1/4. *)
Lemma moved_out_half (t : TileGrid) (A B tw th k : Z) :
  location t = mkCoord (dyadic A (-1)) (dyadic B (-1)) (of_Z k) ->
  tileWidth t = of_Z tw -> tileHeight t = of_Z th ->
  0 < tw < 2 ^ 23 -> 0 < th < 2 ^ 23 ->
  0 <= ScreenTileWidth t -> 0 <= ScreenTileHeight t ->
  ScreenTileWidth t * tw < 2 ^ 23 -> ScreenTileHeight t * th < 2 ^ 23 ->
  Z.abs A < 2 ^ 23 -> Z.abs B < 2 ^ 23 -> MIN_ZOOM <= k <= MAX_ZOOM ->
  moved t (mkCoord (of_Z 0) (of_Z 0) (of_Z (-1))) =
  mkCoord (dyadic (A - ScreenTileWidth t * tw) (-2))
          (dyadic (B - ScreenTileHeight t * th) (-2))
          (of_Z (Z.max MIN_ZOOM (k - 1))).
Proof.
  intros Hloc Htw Hth Rtw Rth Px Py Sx Sy RA RB Hk.
  change (2 ^ 23) with 8388608 in *.
  assert (P24 : 2 ^ 24 = 16777216) by reflexivity.
  rewrite moved_zoom_out, Hloc, Htw, Hth. cbn [coordX coordY coordZ].
  rewrite zoom_after_out by exact Hk.
  rewrite !shift_out by lia.
  rewrite !dyadic_add_0 by lia.
  rewrite !dyadic_div2 by lia.
  change (-1 - 1) with (-2).
  rewrite !dyadic_add_shift_out by lia. reflexivity.
Qed.

Lemma Move_sized (unrep : float32 -> Z) (fuel : nat) (w : World) (delta : Coord)
      (tw th sw sh : Z) :
  sized (grid w) tw th sw sh ->
  sized (grid (run_state (Move unrep fuel w delta))) tw th sw sh.
Proof.
  intros (H1 & H2 & H3 & H4 & H5 & H6 & H7 & H8).
  pose proof (Move_sizes unrep fuel w delta) as H. cbv zeta in H.
  destruct H as (_ & E1 & E2 & E3 & E4 & E5 & E6 & E7 & E8).
  unfold sized. rewrite E1, E2, E3, E4, E5, E6, E7, E8. repeat split; assumption.
Qed.

Lemma Move_more_fuel (unrep : float32 -> Z) (n m : nat) (w w' : World) (delta : Coord) :
  Move unrep n w delta = Returned w' -> Move unrep (n + m) w delta = Returned w'.
Proof. unfold Move. apply SetLocation_more_fuel. Qed.

Lemma of_Z_on_halves (n : Z) : Z.abs n < 2 ^ 24 -> of_Z n = dyadic (2 * n) (-1).
Proof.
  intros Hn. replace (2 * n) with (n * 2 ^ 1) by lia.
  rewrite dyadic_finer by lia. reflexivity.
Qed.

Lemma of_Z_on_quarters (n : Z) : Z.abs n < 2 ^ 24 -> of_Z n = dyadic (4 * n) (-2).
Proof.
  intros Hn. replace (4 * n) with (n * 2 ^ 2) by lia.
  rewrite dyadic_finer by lia. reflexivity.
Qed.

Lemma halves_on_quarters (n : Z) : Z.abs n < 2 ^ 24 -> dyadic n (-1) = dyadic (2 * n) (-2).
Proof.
  intros Hn. replace (2 * n) with (n * 2 ^ 1) by lia.
  rewrite dyadic_finer by lia. reflexivity.
Qed.

(** A zoom step of a grid with sizes on whole pixels, to a location on
    the grid of spacing 1/2 or 1/4: the call returns. *)
Lemma zoom_step (unrep : float32 -> Z) (w : World) (delta : Coord)
      (j X Y tw th sw sh : Z) (z : float32) :
  (coordZ delta =? of_Z 0)%f32 = false ->
  sized (grid w) tw th sw sh ->
  moved (grid w) delta = mkCoord (dyadic X (- j)) (dyadic Y (- j)) z ->
  j = 1 \/ j = 2 ->
  0 < tw <= 2 ^ 20 -> 0 < th <= 2 ^ 20 -> 0 < sw <= 2 ^ 20 -> 0 < sh <= 2 ^ 20 ->
  Z.abs X <= 5 * 2 ^ 20 -> Z.abs Y <= 5 * 2 ^ 20 ->
  exists (fuel : nat) (w1 : World),
    (forall more : nat, Move unrep (fuel + more) w delta = Returned w1) /\
    location (grid w1) = mkCoord (dyadic X (- j)) (dyadic Y (- j)) z /\
    sized (grid w1) tw th sw sh.
Proof.
  intros Hd Hs Hm Hj Rtw Rth Rsw Rsh RX RY.
  pose proof Hs as (H1 & H2 & H3 & H4 & H5 & H6 & _ & _).
  change (2 ^ 20) with 1048576 in *.
  assert (P24 : 2 ^ 24 = 16777216) by reflexivity.
  assert (Hret : exists fuel : nat, forall more : nat,
             returned (Move unrep (fuel + more) w delta) = true).
  { destruct Hj as [-> | ->].
    - apply (Move_zoom_returns unrep w delta (-1) X Y (2 * tw) (2 * th) tw th
               (2 * sw) (2 * sh) z); try assumption; try lia.
      + rewrite H1. apply of_Z_on_halves. lia.
      + rewrite H2. apply of_Z_on_halves. lia.
      + rewrite H3, of_Z_dyadic, dyadic_div2 by lia. reflexivity.
      + rewrite H4, of_Z_dyadic, dyadic_div2 by lia. reflexivity.
      + rewrite H5. apply of_Z_on_halves. lia.
      + rewrite H6. apply of_Z_on_halves. lia.
    - apply (Move_zoom_returns unrep w delta (-2) X Y (4 * tw) (4 * th) (2 * tw) (2 * th)
               (4 * sw) (4 * sh) z); try assumption; try lia.
      + rewrite H1. apply of_Z_on_quarters. lia.
      + rewrite H2. apply of_Z_on_quarters. lia.
      + rewrite H3, of_Z_dyadic, dyadic_div2 by lia. apply halves_on_quarters. lia.
      + rewrite H4, of_Z_dyadic, dyadic_div2 by lia. apply halves_on_quarters. lia.
      + rewrite H5. apply of_Z_on_quarters. lia.
      + rewrite H6. apply of_Z_on_quarters. lia. }
  destruct Hret as [fuel Hret]. pose proof (Hret 0%nat) as H0.
  destruct (Move unrep (fuel + 0) w delta) as [w1 | w1] eqn:E; [| discriminate].
  exists fuel, w1. split; [| split].
  - intros more. rewrite Nat.add_0_r in E. now apply Move_more_fuel.
  - pose proof (Move_location unrep (fuel + 0) w delta) as HL.
    rewrite E in HL. cbn [run_state] in HL. now rewrite HL.
  - pose proof (Move_sized unrep (fuel + 0) w delta tw th sw sh Hs) as HS.
    now rewrite E in HS.
Qed.

(** X20. The keys '+' and '-' undo each other. On a grid on whole pixels
    (location at most 2^20 in magnitude, sizes in (0, 2^20], the whole tiles
    across the viewport counted as [NewTileGrid] counts them) and a zoom
    level [k] in [MIN_ZOOM, MAX_ZOOM]: the two calls of [Move] return, and
    the shift to the centre that the first adds is taken back by the second,
    so that the pan offsets are exactly what they were. The zoom level is
    [k] again, except at the limits: '+' then '-' at [MAX_ZOOM] ends one
    level below, '-' then '+' at [MIN_ZOOM] one level above. *)
Theorem zoom_keys_undo_each_other (unrep : float32 -> Z) (w : World)
        (lx ly tw th sw sh k : Z) :
  on_pixels (grid w) lx ly tw th sw sh -> pixel_range lx ly tw th sw sh ->
  ScreenTileWidth (grid w) = sw / tw -> ScreenTileHeight (grid w) = sh / th ->
  coordZ (location (grid w)) = of_Z k -> MIN_ZOOM <= k <= MAX_ZOOM ->
  exists (plus minus : Coord) (fuel : nat),
    inputCharCallback 43 = Some plus /\ inputCharCallback 45 = Some minus /\
    forall more : nat,
      (exists w1 w2 : World,
         Move unrep (fuel + more) w plus = Returned w1 /\
         Move unrep (fuel + more) w1 minus = Returned w2 /\
         location (grid w2) =
           mkCoord (of_Z lx) (of_Z ly) (of_Z (Z.min k (MAX_ZOOM - 1)))) /\
      (exists w1 w2 : World,
         Move unrep (fuel + more) w minus = Returned w1 /\
         Move unrep (fuel + more) w1 plus = Returned w2 /\
         location (grid w2) =
           mkCoord (of_Z lx) (of_Z ly) (of_Z (Z.max k (MIN_ZOOM + 1)))).
Proof.
  intros (HX & HY & Htw & Hth & Hhw & Hhh & Hsw & Hsh) (Rx & Ry & Rtw & Rth & Rsw & Rsh)
         Hstw Hsth HZ Hk.
  change (2 ^ 20) with 1048576 in *.
  assert (P23 : 2 ^ 23 = 8388608) by reflexivity.
  assert (P24 : 2 ^ 24 = 16777216) by reflexivity.
  assert (Hs : sized (grid w) tw th sw sh) by (repeat split; assumption).
  assert (Hloc : location (grid w) = mkCoord (of_Z lx) (of_Z ly) (of_Z k)).
  { destruct (location (grid w)) as [x y z]. cbn in HX, HY, HZ. now subst. }
  set (Sx := sw / tw * tw). set (Sy := sh / th * th).
  assert (Sx0 : 0 <= sw / tw) by (apply Z.div_pos; lia).
  assert (Sy0 : 0 <= sh / th) by (apply Z.div_pos; lia).
  assert (BSx : 0 <= Sx <= sw).
  { subst Sx. pose proof (Z.mul_div_le sw tw ltac:(lia)). nia. }
  assert (BSy : 0 <= Sy <= sh).
  { subst Sy. pose proof (Z.mul_div_le sh th ltac:(lia)). nia. }
  set (plus := mkCoord (of_Z 0) (of_Z 0) (of_Z 1)).
  set (minus := mkCoord (of_Z 0) (of_Z 0) (of_Z (-1))).
  assert (Hin : forall (t : TileGrid) (A B n : Z),
             sized t tw th sw sh ->
             location t = mkCoord (dyadic A (-2)) (dyadic B (-2)) (of_Z n) ->
             Z.abs A < 8388608 -> Z.abs B < 8388608 -> MIN_ZOOM <= n <= MAX_ZOOM ->
             moved t plus = mkCoord (dyadic (A + Sx) (-1)) (dyadic (B + Sy) (-1))
                                    (of_Z (Z.min MAX_ZOOM (n + 1)))).
  { intros t A B n (T1 & T2 & _ & _ & _ & _ & T7 & T8) HL HA HB Hn.
    subst plus. rewrite (moved_in_quarter t A B tw th n); rewrite ?T7, ?T8;
      try assumption; try lia; try (fold Sx; lia); try (fold Sy; lia).
    reflexivity. }
  assert (Hout : forall (t : TileGrid) (A B n : Z),
             sized t tw th sw sh ->
             location t = mkCoord (dyadic A (-1)) (dyadic B (-1)) (of_Z n) ->
             Z.abs A < 8388608 -> Z.abs B < 8388608 -> MIN_ZOOM <= n <= MAX_ZOOM ->
             moved t minus = mkCoord (dyadic (A - Sx) (-2)) (dyadic (B - Sy) (-2))
                                     (of_Z (Z.max MIN_ZOOM (n - 1)))).
  { intros t A B n (T1 & T2 & _ & _ & _ & _ & T7 & T8) HL HA HB Hn.
    subst minus. rewrite (moved_out_half t A B tw th n); rewrite ?T7, ?T8;
      try assumption; try lia; try (fold Sx; lia); try (fold Sy; lia).
    reflexivity. }
  (* '+' then '-' *)
  assert (Hm1 : moved (grid w) plus =
                mkCoord (dyadic (4 * lx + Sx) (- 1)) (dyadic (4 * ly + Sy) (- 1))
                        (of_Z (Z.min MAX_ZOOM (k + 1)))).
  { apply Hin; try assumption; try lia.
    rewrite Hloc, (of_Z_on_quarters lx), (of_Z_on_quarters ly) by lia. reflexivity. }
  destruct (zoom_step unrep w plus 1 _ _ tw th sw sh _ eq_refl Hs Hm1)
    as (f1 & w1 & R1 & L1 & S1); try lia.
  assert (Hm2 : moved (grid w1) minus =
                mkCoord (dyadic (4 * lx) (- 2)) (dyadic (4 * ly) (- 2))
                        (of_Z (Z.min k (MAX_ZOOM - 1)))).
  { rewrite (Hout (grid w1) (4 * lx + Sx) (4 * ly + Sy) (Z.min MAX_ZOOM (k + 1)));
      try assumption; try lia; try (unfold MIN_ZOOM, MAX_ZOOM in *; lia).
    f_equal; f_equal; unfold MIN_ZOOM, MAX_ZOOM in *; lia. }
  destruct (zoom_step unrep w1 minus 2 _ _ tw th sw sh _ eq_refl S1 Hm2)
    as (f2 & w2 & R2 & L2 & S2); try lia.
  (* '-' then '+' *)
  assert (Hm3 : moved (grid w) minus =
                mkCoord (dyadic (2 * lx - Sx) (- 2)) (dyadic (2 * ly - Sy) (- 2))
                        (of_Z (Z.max MIN_ZOOM (k - 1)))).
  { apply Hout; try assumption; try lia.
    rewrite Hloc, (of_Z_on_halves lx), (of_Z_on_halves ly) by lia. reflexivity. }
  destruct (zoom_step unrep w minus 2 _ _ tw th sw sh _ eq_refl Hs Hm3)
    as (f3 & w3 & R3 & L3 & S3); try lia.
  assert (Hm4 : moved (grid w3) plus =
                mkCoord (dyadic (2 * lx) (- 1)) (dyadic (2 * ly) (- 1))
                        (of_Z (Z.max k (MIN_ZOOM + 1)))).
  { rewrite (Hin (grid w3) (2 * lx - Sx) (2 * ly - Sy) (Z.max MIN_ZOOM (k - 1)));
      try assumption; try lia; try (unfold MIN_ZOOM, MAX_ZOOM in *; lia).
    f_equal; f_equal; unfold MIN_ZOOM, MAX_ZOOM in *; lia. }
  destruct (zoom_step unrep w3 plus 1 _ _ tw th sw sh _ eq_refl S3 Hm4)
    as (f4 & w4 & R4 & L4 & S4); try lia.
  exists plus, minus, (f1 + f2 + f3 + f4)%nat.
  split; [reflexivity |]. split; [reflexivity |].
  intros more. split.
  - exists w1, w2. split; [| split].
    + replace (f1 + f2 + f3 + f4 + more)%nat with (f1 + (f2 + f3 + f4 + more))%nat by lia.
      apply R1.
    + replace (f1 + f2 + f3 + f4 + more)%nat with (f2 + (f1 + f3 + f4 + more))%nat by lia.
      apply R2.
    + rewrite L2. change (Z.opp 2) with (-2).
      rewrite <- (of_Z_on_quarters lx), <- (of_Z_on_quarters ly) by lia. reflexivity.
  - exists w3, w4. split; [| split].
    + replace (f1 + f2 + f3 + f4 + more)%nat with (f3 + (f1 + f2 + f4 + more))%nat by lia.
      apply R3.
    + replace (f1 + f2 + f3 + f4 + more)%nat with (f4 + (f1 + f2 + f3 + more))%nat by lia.
      apply R4.
    + rewrite L4. change (Z.opp 1) with (-1).
      rewrite <- (of_Z_on_halves lx), <- (of_Z_on_halves ly) by lia. reflexivity.
Qed.

Lemma zoom_keys_undo_each_other_witness :
  on_pixels (grid origin_world) 0 0 256 256 512 512 /\
  pixel_range 0 0 256 256 512 512 /\
  ScreenTileWidth (grid origin_world) = 512 / 256 /\
  ScreenTileHeight (grid origin_world) = 512 / 256 /\
  coordZ (location (grid origin_world)) = of_Z 6 /\ MIN_ZOOM <= 6 <= MAX_ZOOM /\
  exists (plus minus : Coord) (fuel : nat),
    inputCharCallback 43 = Some plus /\ inputCharCallback 45 = Some minus /\
    forall more : nat,
      (exists w1 w2 : World,
         Move unrepresentable_is_zero (fuel + more) origin_world plus = Returned w1 /\
         Move unrepresentable_is_zero (fuel + more) w1 minus = Returned w2 /\
         location (grid w2) =
           mkCoord (of_Z 0) (of_Z 0) (of_Z (Z.min 6 (MAX_ZOOM - 1)))) /\
      (exists w1 w2 : World,
         Move unrepresentable_is_zero (fuel + more) origin_world minus = Returned w1 /\
         Move unrepresentable_is_zero (fuel + more) w1 plus = Returned w2 /\
         location (grid w2) =
           mkCoord (of_Z 0) (of_Z 0) (of_Z (Z.max 6 (MIN_ZOOM + 1)))).
Proof.
  assert (H1 : on_pixels (grid origin_world) 0 0 256 256 512 512)
    by (repeat split; reflexivity).
  assert (H2 : pixel_range 0 0 256 256 512 512)
    by (unfold pixel_range; change (2 ^ 20) with 1048576; lia).
  assert (H3 : MIN_ZOOM <= 6 <= MAX_ZOOM) by (unfold MIN_ZOOM, MAX_ZOOM; lia).
  split; [exact H1 |]. split; [exact H2 |]. split; [reflexivity |].
  split; [reflexivity |]. split; [reflexivity |]. split; [exact H3 |].
  exact (zoom_keys_undo_each_other unrepresentable_is_zero origin_world
           0 0 256 256 512 512 6 H1 H2 eq_refl eq_refl eq_refl H3).
Defined.

(** On the way the map is centred: from (0, 0) at zoom 6 with two tiles
    across, '+' leaves the location at (256, 256) at zoom 7. *)
Example plus_key_at_origin :
  moved origin_grid (mkCoord (of_Z 0) (of_Z 0) (of_Z 1)) =
  mkCoord (of_Z 256) (of_Z 256) (of_Z 7).
Proof. vm_compute. reflexivity. Qed.

(** ** Where a tile is drawn *)

(** The scale of a tile in a window of at most 2^24 pixels is zero or a
    positive finite number. *)
Lemma scale_finite (size view : Z) :
  0 < size < 2 ^ 24 -> 0 < view < 2 ^ 24 ->
  (of_Z size / of_Z view)%f32 = S754_zero false \/
  exists (m : positive) (e : Z), (of_Z size / of_Z view)%f32 = S754_finite false m e.
Proof.
  intros Hs Hv. pose proof (trunc_div_of_Z size view ltac:(lia) Hv) as Ht.
  revert Ht.
  rewrite of_Z_dyadic, (of_Z_dyadic view), (dyadic_canonical size),
    (dyadic_canonical view) by lia.
  replace (size <? 0) with false by (symmetry; apply Z.ltb_ge; lia).
  replace (view <? 0) with false by (symmetry; apply Z.ltb_ge; lia).
  match goal with
  | |- context [(S754_finite false ?ma ?ea / S754_finite false ?mb ?eb)%f32] =>
      pose proof (div_signed false false ma mb ea eb) as Hsg;
      destruct (S754_finite false ma ea / S754_finite false mb eb)%f32 as [s | s | | s m e]
  end; cbn in Hsg; try contradiction; try discriminate; subst s; intros _.
  - now left.
  - right. now exists m, e.
Qed.

(** The offset of a tile from the location, in tiles, where the location
    is the tile's corner: none. *)
Lemma tile_offset_zero (i : Z) :
  0 <= i < 2 ^ 16 -> (of_Z i - of_Z (256 * i) / of_Z 256)%f32 = S754_zero false.
Proof.
  intros Hi. change (2 ^ 16) with 65536 in Hi.
  assert (P24 : 2 ^ 24 = 16777216) by reflexivity.
  rewrite (of_Z_dyadic (256 * i)).
  change (of_Z 256) with (S754_finite false 8388608 (8 - 23)).
  rewrite dyadic_div_pow2 by lia.
  rewrite of_Z_dyadic. replace (256 * i) with (i * 2 ^ 8) by lia.
  rewrite (dyadic_finer i 8 (0 - 8)) by lia.
  change (0 - 8 + 8) with 0.
  rewrite dyadic_sub by lia. now rewrite Z.sub_diag.
Qed.

(** X21. The tile whose corner is the location is drawn from the top left
    corner of the window, (-1, 1) in the coordinates of OpenGL, to the
    right by twice the scale [TILE_X / Width] and down by twice the scale
    [TILE_Y / Height], for every window below 2^24 pixels and every tile
    index below 2^16; the texture is laid on it unturned. *)
Theorem drawTile_at_the_location (Width Height i j zc : Z) (z : float32) (texture : N) :
  0 < Width < 2 ^ 24 -> 0 < Height < 2 ^ 24 -> 0 <= i < 2 ^ 16 -> 0 <= j < 2 ^ 16 ->
  let scaleX := (of_Z TILE_X / of_Z Width)%f32 in
  let scaleY := (of_Z TILE_Y / of_Z Height)%f32 in
  let right := (scaleX * of_Z 2 - of_Z 1)%f32 in
  let bottom := (- scaleY * of_Z 2 + of_Z 1)%f32 in
  drawTile Width Height (mkCoord (of_Z (TILE_X * i)) (of_Z (TILE_Y * j)) z)
           (mkTileCoord i j zc) texture =
  [ BindTexture2D texture; BeginQuads;
    TexCoord2f (of_Z 0) (of_Z 0); Vertex3f (of_Z (-1)) (of_Z 1) (of_Z 1);
    TexCoord2f (of_Z 1) (of_Z 0); Vertex3f right (of_Z 1) (of_Z 1);
    TexCoord2f (of_Z 1) (of_Z 1); Vertex3f right bottom (of_Z 1);
    TexCoord2f (of_Z 0) (of_Z 1); Vertex3f (of_Z (-1)) bottom (of_Z 1);
    End_ ].
Proof.
  intros HW HH Hi Hj. cbv zeta. unfold drawTile, TILE_X, TILE_Y.
  cbn [coordX coordY tileX tileY].
  rewrite !tile_offset_zero by assumption.
  assert (P24 : 256 < 2 ^ 24) by reflexivity.
  destruct (scale_finite 256 Width ltac:(lia) HW) as [-> | (mx & ex & ->)];
    destruct (scale_finite 256 Height ltac:(lia) HH) as [-> | (my & ey & ->)];
    reflexivity.
Qed.

Lemma drawTile_at_the_location_witness :
  0 < 1024 < 2 ^ 24 /\ 0 < 768 < 2 ^ 24 /\ 0 <= 31 < 2 ^ 16 /\ 0 <= 22 < 2 ^ 16 /\
  drawTile 1024 768 (mkCoord (of_Z (TILE_X * 31)) (of_Z (TILE_Y * 22)) (of_Z 6))
           (mkTileCoord 31 22 6) 1%N =
  [ BindTexture2D 1%N; BeginQuads;
    TexCoord2f (of_Z 0) (of_Z 0); Vertex3f (of_Z (-1)) (of_Z 1) (of_Z 1);
    TexCoord2f (of_Z 1) (of_Z 0);
    Vertex3f (of_Z TILE_X / of_Z 1024 * of_Z 2 - of_Z 1)%f32 (of_Z 1) (of_Z 1);
    TexCoord2f (of_Z 1) (of_Z 1);
    Vertex3f (of_Z TILE_X / of_Z 1024 * of_Z 2 - of_Z 1)%f32
             (- (of_Z TILE_Y / of_Z 768) * of_Z 2 + of_Z 1)%f32 (of_Z 1);
    TexCoord2f (of_Z 0) (of_Z 1);
    Vertex3f (of_Z (-1)) (- (of_Z TILE_Y / of_Z 768) * of_Z 2 + of_Z 1)%f32 (of_Z 1);
    End_ ].
Proof.
  assert (H1 : 0 < 1024 < 2 ^ 24) by (change (2 ^ 24) with 16777216; lia).
  assert (H2 : 0 < 768 < 2 ^ 24) by (change (2 ^ 24) with 16777216; lia).
  assert (H3 : 0 <= 31 < 2 ^ 16) by (change (2 ^ 16) with 65536; lia).
  assert (H4 : 0 <= 22 < 2 ^ 16) by (change (2 ^ 16) with 65536; lia).
  split; [exact H1 |]. split; [exact H2 |]. split; [exact H3 |]. split; [exact H4 |].
  exact (drawTile_at_the_location 1024 768 31 22 6 (of_Z 6) 1%N H1 H2 H3 H4).
Defined.

(** ** [Move] on a zoom step: what is cancelled and how far the map shifts *)

Lemma NewTileGrid_sized (unrep : float32 -> Z) (fuel : nat) (current : Coord)
      (tw th sw sh : Z) (r : run World) :
  NewTileGrid unrep fuel current tw th sw sh = Ok r ->
  sized (grid (run_state r)) tw th sw sh.
Proof.
  unfold NewTileGrid.
  destruct ((sw =? 0) || (sh =? 0)); [discriminate |].
  destruct ((tw =? 0) || (th =? 0)); [discriminate |].
  cbv zeta. intros H. injection H as <-. rewrite SetLocation_grid.
  repeat split; reflexivity.
Qed.

(** C3 (amended). On a zoom delta that is not zero, [Move] applies the
    delta, cancels what is in flight (both channels drained, every waiting
    cancel function called, the loading set left empty), then adds to the
    pan offset minus a quarter of the whole tiles across the viewport times
    the tile size when [dz < 0], and plus half of them otherwise, and calls
    [SetLocation] with that location; with a zero zoom delta it cancels
    nothing, shifts nothing and calls [SetLocation] with the delta applied.
    The whole tiles across the viewport are the viewport size divided by
    the tile size, rounded down: [NewTileGrid] sets them so and [Move]
    keeps them; in pixels the shifts are exactly
    [-(sw div tw) * tw / 4] and [+(sw div tw) * tw / 2] (and the same in
    [y]), the first being [-0] where less than a tile fits. *)
Theorem Move_on_zoom (unrep : float32 -> Z) (fuel : nat) (w : World) (delta : Coord) :
  let t := grid w in
  let applied := set_grid w (set_location t (Add (location t) delta)) in
  let drained := CancelLoadingTiles applied in
  let shift :=
    if (coordZ delta <? of_Z 0)%f32
    then mkCoord (- of_Z (ScreenTileWidth t) / of_Z 4 * tileWidth t)%f32
                 (- of_Z (ScreenTileHeight t) / of_Z 4 * tileHeight t)%f32
                 (of_Z 0)
    else mkCoord (of_Z (ScreenTileWidth t) / of_Z 2 * tileWidth t)%f32
                 (of_Z (ScreenTileHeight t) / of_Z 2 * tileHeight t)%f32
                 (of_Z 0) in
  ((coordZ delta =? of_Z 0)%f32 = false ->
     loading (grid drained) = ∅ /\
     TilesToLoad (grid drained) = [] /\
     TilesInFlight (grid drained) = [] /\
     cancelled drained = cancelled w ++ TilesInFlight t /\
     Move unrep fuel w delta =
       SetLocation unrep fuel drained (Add (Add (location t) delta) shift) /\
     loading (grid (run_state (Move unrep fuel w delta))) = ∅)
  /\ ((coordZ delta =? of_Z 0)%f32 = true ->
      Move unrep fuel w delta = SetLocation unrep fuel w (Add (location t) delta) /\
      cancelled (run_state (Move unrep fuel w delta)) = cancelled w /\
      loading (grid (run_state (Move unrep fuel w delta))) = loading t /\
      TilesToLoad (grid (run_state (Move unrep fuel w delta))) = TilesToLoad t /\
      TilesInFlight (grid (run_state (Move unrep fuel w delta))) = TilesInFlight t)
  /\ (forall tw th sw sh : Z,
        sized t tw th sw sh ->
        0 < tw < 2 ^ 24 -> 0 < th < 2 ^ 24 -> 0 <= sw < 2 ^ 24 -> 0 <= sh < 2 ^ 24 ->
        (- of_Z (ScreenTileWidth t) / of_Z 4 * tileWidth t)%f32 =
          (if Z.eqb (sw / tw) 0 then S754_zero true
           else dyadic (- (sw / tw * tw)) (-2)) /\
        (- of_Z (ScreenTileHeight t) / of_Z 4 * tileHeight t)%f32 =
          (if Z.eqb (sh / th) 0 then S754_zero true
           else dyadic (- (sh / th * th)) (-2)) /\
        (of_Z (ScreenTileWidth t) / of_Z 2 * tileWidth t)%f32 =
          dyadic (sw / tw * tw) (-1) /\
        (of_Z (ScreenTileHeight t) / of_Z 2 * tileHeight t)%f32 =
          dyadic (sh / th * th) (-1) /\
        sized (grid (run_state (Move unrep fuel w delta))) tw th sw sh)
  /\ (forall (current : Coord) (tw th sw sh : Z) (r : run World),
        NewTileGrid unrep fuel current tw th sw sh = Ok r ->
        sized (grid (run_state r)) tw th sw sh /\
        ScreenTileWidth (grid (run_state r)) = sw / tw /\
        ScreenTileHeight (grid (run_state r)) = sh / th).
Proof.
  cbv zeta. split; [| split; [| split]].
  - intros Hz.
    destruct (CancelLoadingTiles_effect
                (set_grid w (set_location (grid w) (Add (location (grid w)) delta))))
      as (H1 & H2 & H3 & H4 & _ & H6 & _).
    assert (Hmove : Move unrep fuel w delta =
      SetLocation unrep fuel
        (CancelLoadingTiles
           (set_grid w (set_location (grid w) (Add (location (grid w)) delta))))
        (Add (Add (location (grid w)) delta) (recentre (grid w) delta))).
    { rewrite Move_zoom by exact Hz. unfold moved. rewrite Hz. reflexivity. }
    repeat split; try assumption.
    rewrite Hmove, SetLocation_grid. exact H1.
  - intros Hz.
    assert (Hmove : Move unrep fuel w delta =
                    SetLocation unrep fuel w (Add (location (grid w)) delta)).
    { unfold Move. rewrite Hz. reflexivity. }
    rewrite Hmove. split; [reflexivity |].
    split.
    + unfold SetLocation.
      apply (forEachVisibleTile_invariant unrep (fun w' => cancelled w' = cancelled w));
        [| reflexivity].
      intros k s Hs. exact Hs.
    + rewrite SetLocation_grid. repeat split; reflexivity.
  - intros tw th sw sh Hs Rtw Rth Rsw Rsh.
    pose proof Hs as (H1 & H2 & _ & _ & _ & _ & H7 & H8).
    assert (Sx0 : 0 <= sw / tw) by (apply Z.div_pos; lia).
    assert (Sy0 : 0 <= sh / th) by (apply Z.div_pos; lia).
    assert (BSx : sw / tw * tw <= sw)
      by (pose proof (Z.mul_div_le sw tw ltac:(lia)); lia).
    assert (BSy : sh / th * th <= sh)
      by (pose proof (Z.mul_div_le sh th ltac:(lia)); lia).
    rewrite H1, H2, H7, H8.
    rewrite !shift_out, !shift_in by lia.
    refine (conj _ (conj _ (conj _ (conj _ _)))); try reflexivity.
    now apply Move_sized.
  - intros current tw th sw sh r Hr.
    pose proof (NewTileGrid_sized unrep fuel current tw th sw sh r Hr) as Hs.
    split; [exact Hs |]. destruct Hs as (_ & _ & _ & _ & _ & _ & H7 & H8). now split.
Qed.

(** ** The construction: the checks of the sizes, and the grid built *)

(** C8. The construction reports an error exactly when one of its four
    sizes is zero (they are [uint32]: none is negative), whatever the
    location; otherwise it reports none and builds the grid of the source
    with the sizes given, the whole tiles across the viewport counted, and
    empty maps and channels, and it returns this grid as soon as the scan
    of [SetLocation] at the initial location returns; the scan returns for
    every location on whole pixels of at most 2^20 in magnitude with sizes
    of at most 2^20. *)
Theorem NewTileGrid_checks_sizes (unrep : float32 -> Z) (fuel : nat) (current : Coord)
        (tw th sw sh : Z) :
  ((exists msg : string, NewTileGrid unrep fuel current tw th sw sh = Err msg) <->
   tw = 0 \/ th = 0 \/ sw = 0 \/ sh = 0) /\
  (0 < tw -> 0 < th -> 0 < sw -> 0 < sh ->
   exists r : run World,
     NewTileGrid unrep fuel current tw th sw sh = Ok r /\
     grid (run_state r) =
       mkTileGrid current (of_Z tw) (of_Z th)
         (of_Z tw / of_Z 2)%f32 (of_Z th / of_Z 2)%f32 (of_Z sw) (of_Z sh)
         ∅ ∅ (sw / tw) (sh / th) [] [] [] /\
     returned r = returned (visibleTiles unrep fuel (grid (run_state r)))) /\
  (forall lx ly : Z,
     coordX current = of_Z lx -> coordY current = of_Z ly ->
     pixel_range lx ly tw th sw sh ->
     exists (enough : nat) (w : World),
       forall more : nat,
         NewTileGrid unrep (enough + more) current tw th sw sh = Ok (Returned w)).
Proof.
  split; [apply NewTileGrid_error_iff |]. split.
  - intros Htw Hth Hsw Hsh.
    destruct (NewTileGrid_ok unrep fuel current tw th sw sh Htw Hth Hsw Hsh)
      as (r & Hr & Hg).
    exists r. split; [exact Hr |]. split; [exact Hg |].
    revert Hr. unfold NewTileGrid.
    destruct ((sw =? 0) || (sh =? 0)); [discriminate |].
    destruct ((tw =? 0) || (th =? 0)); [discriminate |].
    cbv zeta. intros H. injection H as <-.
    rewrite SetLocation_grid. unfold SetLocation, visibleTiles.
    apply forEachVisibleTile_returned.
  - intros lx ly HX HY Hrange.
    destruct current as [x y z]. cbn in HX, HY. subst x y.
    apply NewTileGrid_returns_on_pixels. exact Hrange.
Qed.

(** C8 at the call of [main]: location (31 * 256, 22 * 256, 6), 256x256
    tiles and a 1024x768 viewport. *)
Lemma NewTileGrid_checks_sizes_witness :
  pixel_range 7936 5632 256 256 1024 768 /\
  exists (enough : nat) (w : World),
    forall more : nat,
      NewTileGrid unrepresentable_is_zero (enough + more)
        (mkCoord (of_Z 7936) (of_Z 5632) (of_Z 6)) 256 256 1024 768 = Ok (Returned w).
Proof.
  assert (H : pixel_range 7936 5632 256 256 1024 768)
    by (unfold pixel_range; change (2 ^ 20) with 1048576; lia).
  split; [exact H |].
  exact (proj2 (proj2 (NewTileGrid_checks_sizes unrepresentable_is_zero 0
                         (mkCoord (of_Z 7936) (of_Z 5632) (of_Z 6)) 256 256 1024 768))
           7936 5632 eq_refl eq_refl H).
Defined.

(** ** Every [float32]: values, order and rounding *)

Lemma sound_zero (s : bool) : sound (S754_zero s).
Proof. split; reflexivity. Qed.

Lemma sound_finite (s : bool) (m : positive) (e : Z) :
  sound (S754_finite s m e) <->
  e <= 104 /\ -149 <= e /\ Z.pos (digits2_pos m) <= 24 /\
  (e = -149 \/ Z.pos (digits2_pos m) = 24).
Proof.
  unfold sound, valid, valid_binary, bounded, canonical_mantissa, is_finite.
  unfold fexp, emin, emax, prec.
  rewrite andb_true_iff, Z.eqb_eq, Z.leb_le.
  pose proof (Pos2Z.is_pos (digits2_pos m)). split.
  - intros [[H1 H2] _]. lia.
  - intros (H1 & H2 & H3 & H4). split; [split; lia | reflexivity].
Qed.








(** The floats [n * 2^e] for [n] of at most 24 bits. *)
Lemma dyadic_sound_units (n e : Z) :
  Z.abs n < 2 ^ 24 -> -100 <= e <= 100 ->
  sound (dyadic n e) /\ units (dyadic n e) = n * 2 ^ (e + 149).
Proof.
  intros Hn He.
  destruct (Z.eq_dec n 0) as [-> | Nn]; [split; [apply sound_zero | reflexivity] |].
  pose proof (Zdigits2_le24 n Hn) as HD. pose proof (Zdigits2_pos n Nn) as HD0.
  rewrite dyadic_canonical by assumption.
  pose proof (half_mantissa n Nn Hn) as Hm.
  pose proof (half_mantissa_digits n Nn Hn) as Hd.
  split.
  - apply sound_finite. rewrite Hd. lia.
  - cbn [units]. rewrite Hm, <- Z.mul_assoc, <- Z.pow_add_r by lia.
    replace (24 - Zdigits2 n + (Zdigits2 n - 24 + e + 149)) with (e + 149) by lia.
    unfold cond_Zopp. destruct (Z.ltb_spec n 0).
    + rewrite Z.abs_neq by lia. lia.
    + rewrite Z.abs_eq by lia. reflexivity.
Qed.













(** ** Bounds in half pixels *)

Lemma halves_units (n : Z) :
  Z.abs n < 2 ^ 24 -> sound (dyadic n (-1)) /\ units (dyadic n (-1)) = n * 2 ^ 148.
Proof. intros Hn. apply (dyadic_sound_units n (-1)); lia. Qed.

Lemma within_halves (n : Z) : Z.abs n < 2 ^ 24 -> within n (dyadic n (-1)) n.
Proof. intros Hn. destruct (halves_units n Hn) as [Hs Hu]. split; [exact Hs | lia]. Qed.







(** ** The scan of any location *)





(** ** The index of the first two cells *)






(** ** The scan near the origin, for every [float32] location *)








